(** * The seal pipeline poller and the spread assigner

  A shallow embedding of [provider/lpseal/poller.go] (the pipeline
  state-machine poller) and of [SpreadWS] (the spread window selector of the
  sector-storage scheduler), with the properties stated about them in the
  specification. *)

From Stdlib Require Import ZArith Lia.
From stdpp Require Import base option list sorting gmap strings.

Local Open Scope Z_scope.

(** ** Go's fixed-width integers *)

Module Int64.

Definition MaxInt64 : Z := 2 ^ 63 - 1.
Definition MinInt64 : Z := - 2 ^ 63.

(** Two's complement wrap-around of a 64-bit signed integer. *)
Definition wrap (z : Z) : Z := (z + 2 ^ 63) mod 2 ^ 64 - 2 ^ 63.

(** [a + b] on [int64]. *)
Definition add (a b : Z) : Z := wrap (a + b).

(** The conversion [uint64(x)] of an [int64]. *)
Definition to_uint64 (z : Z) : Z := z mod 2 ^ 64.

Definition in_range (z : Z) : Prop := MinInt64 <= z <= MaxInt64.

End Int64.

(** ** The poller of [provider/lpseal] *)

Module lpseal.

(** The [iota] constants that index [SealPoller.pollers]. *)
Inductive poller : Set :=
| pollerSDR
| pollerTrees
| pollerPrecommitMsg
| pollerPoRep
| pollerCommitMsg.

#[global] Instance poller_eq_dec : EqDecision poller.
Proof. solve_decision. Defined.

Definition seedEpochConfidence : Z := 3.

(** Go errors, kept structured: [xerrors.Errorf("...: %w", err)] wraps. *)
Inductive error : Set :=
| ErrDB
| ErrChain (what : string)
| ErrAddress
| ErrRows (n : Z)
| ErrWrap (msg : string) (cause : error).

Definition result (A : Type) : Type := A + error.

(** [pollTask]: the columns that [poll] selects for a sector. *)
Record pollTask : Set := mkPollTask {
  SpID : Z;
  SectorNumber : Z;
  TaskSDR : option Z;
  AfterSDR : bool;
  TaskTreeD : option Z;
  AfterTreeD : bool;
  TaskTreeC : option Z;
  AfterTreeC : bool;
  TaskTreeR : option Z;
  AfterTreeR : bool;
  TaskPrecommitMsg : option Z;
  AfterPrecommitMsg : bool;
  AfterPrecommitMsgSuccess : bool;
  SeedEpoch : option Z;
  TaskPoRep : option Z;
  PoRepProof : list Z;
  AfterPoRep : bool;
  TaskCommitMsg : option Z;
  AfterCommitMsg : bool;
  AfterCommitMsgSuccess : bool;
  Failed : bool;
  FailedReason : string
}.

(** A row of [sectors_sdr_pipeline]: the polled columns and the message
    columns that only the SQL statements of the poller mention. *)
Record row : Set := mkRow {
  cols : pollTask;
  precommit_msg_cid : option string;
  precommit_msg_tsk : option string;
  commit_msg_cid : option string;
  commit_msg_tsk : option string
}.

(** The anonymous struct that both landing checks scan into. *)
Record execResult : Set := mkExecResult {
  ExecutedTskCID : string;
  ExecutedTskEpoch : Z;
  ExecutedMsgCID : string;
  ExecutedRcptExitCode : Z;
  ExecutedRcptGasUsed : Z
}.

(** A row of [message_waits]; [executed] is [None] while
    [executed_tsk_epoch] is null. *)
Record message_wait : Set := mkWait {
  signed_message_cid : string;
  executed : option execResult
}.

(** The database behind [harmonydb.DB]; [available = false] makes every
    statement fail. *)
Record DB : Set := mkDB {
  sectors_sdr_pipeline : list row;
  message_waits : list message_wait;
  available : bool
}.

Definition key (r : row) : Z * Z := (SpID (cols r), SectorNumber (cols r)).
Definition task_key (t : pollTask) : Z * Z := (SpID t, SectorNumber t).

Definition is_key (sp sn : Z) (r : row) : bool :=
  (SpID (cols r) =? sp) && (SectorNumber (cols r) =? sn).

Definition is_null {A} (o : option A) : bool :=
  match o with None => true | Some _ => false end.

(** *** Column assignments of the UPDATE statements *)

Definition with_cols (r : row) (c : pollTask) : row :=
  mkRow c (precommit_msg_cid r) (precommit_msg_tsk r) (commit_msg_cid r) (commit_msg_tsk r).

Definition set_task_id_sdr (id : Z) (r : row) : row :=
  let c := cols r in
  with_cols r
    (mkPollTask (SpID c) (SectorNumber c) (Some id) (AfterSDR c)
       (TaskTreeD c) (AfterTreeD c) (TaskTreeC c) (AfterTreeC c) (TaskTreeR c) (AfterTreeR c)
       (TaskPrecommitMsg c) (AfterPrecommitMsg c) (AfterPrecommitMsgSuccess c) (SeedEpoch c)
       (TaskPoRep c) (PoRepProof c) (AfterPoRep c)
       (TaskCommitMsg c) (AfterCommitMsg c) (AfterCommitMsgSuccess c)
       (Failed c) (FailedReason c)).

Definition set_task_id_trees (id : Z) (r : row) : row :=
  let c := cols r in
  with_cols r
    (mkPollTask (SpID c) (SectorNumber c) (TaskSDR c) (AfterSDR c)
       (Some id) (AfterTreeD c) (Some id) (AfterTreeC c) (Some id) (AfterTreeR c)
       (TaskPrecommitMsg c) (AfterPrecommitMsg c) (AfterPrecommitMsgSuccess c) (SeedEpoch c)
       (TaskPoRep c) (PoRepProof c) (AfterPoRep c)
       (TaskCommitMsg c) (AfterCommitMsg c) (AfterCommitMsgSuccess c)
       (Failed c) (FailedReason c)).

Definition set_task_id_precommit_msg (id : Z) (r : row) : row :=
  let c := cols r in
  with_cols r
    (mkPollTask (SpID c) (SectorNumber c) (TaskSDR c) (AfterSDR c)
       (TaskTreeD c) (AfterTreeD c) (TaskTreeC c) (AfterTreeC c) (TaskTreeR c) (AfterTreeR c)
       (Some id) (AfterPrecommitMsg c) (AfterPrecommitMsgSuccess c) (SeedEpoch c)
       (TaskPoRep c) (PoRepProof c) (AfterPoRep c)
       (TaskCommitMsg c) (AfterCommitMsg c) (AfterCommitMsgSuccess c)
       (Failed c) (FailedReason c)).

Definition set_task_id_porep (id : Z) (r : row) : row :=
  let c := cols r in
  with_cols r
    (mkPollTask (SpID c) (SectorNumber c) (TaskSDR c) (AfterSDR c)
       (TaskTreeD c) (AfterTreeD c) (TaskTreeC c) (AfterTreeC c) (TaskTreeR c) (AfterTreeR c)
       (TaskPrecommitMsg c) (AfterPrecommitMsg c) (AfterPrecommitMsgSuccess c) (SeedEpoch c)
       (Some id) (PoRepProof c) (AfterPoRep c)
       (TaskCommitMsg c) (AfterCommitMsg c) (AfterCommitMsgSuccess c)
       (Failed c) (FailedReason c)).

Definition set_task_id_commit_msg (id : Z) (r : row) : row :=
  let c := cols r in
  with_cols r
    (mkPollTask (SpID c) (SectorNumber c) (TaskSDR c) (AfterSDR c)
       (TaskTreeD c) (AfterTreeD c) (TaskTreeC c) (AfterTreeC c) (TaskTreeR c) (AfterTreeR c)
       (TaskPrecommitMsg c) (AfterPrecommitMsg c) (AfterPrecommitMsgSuccess c) (SeedEpoch c)
       (TaskPoRep c) (PoRepProof c) (AfterPoRep c)
       (Some id) (AfterCommitMsg c) (AfterCommitMsgSuccess c)
       (Failed c) (FailedReason c)).

(** [SET seed_epoch = $1, precommit_msg_tsk = $2, after_precommit_msg_success = true] *)
Definition set_precommit_landed (randHeight : Z) (tsk : string) (r : row) : row :=
  let c := cols r in
  mkRow
    (mkPollTask (SpID c) (SectorNumber c) (TaskSDR c) (AfterSDR c)
       (TaskTreeD c) (AfterTreeD c) (TaskTreeC c) (AfterTreeC c) (TaskTreeR c) (AfterTreeR c)
       (TaskPrecommitMsg c) (AfterPrecommitMsg c) true (Some randHeight)
       (TaskPoRep c) (PoRepProof c) (AfterPoRep c)
       (TaskCommitMsg c) (AfterCommitMsg c) (AfterCommitMsgSuccess c)
       (Failed c) (FailedReason c))
    (precommit_msg_cid r) (Some tsk) (commit_msg_cid r) (commit_msg_tsk r).

(** [SET after_commit_msg_success = true, commit_msg_tsk = $1] *)
Definition set_commit_landed (tsk : string) (r : row) : row :=
  let c := cols r in
  mkRow
    (mkPollTask (SpID c) (SectorNumber c) (TaskSDR c) (AfterSDR c)
       (TaskTreeD c) (AfterTreeD c) (TaskTreeC c) (AfterTreeC c) (TaskTreeR c) (AfterTreeR c)
       (TaskPrecommitMsg c) (AfterPrecommitMsg c) (AfterPrecommitMsgSuccess c) (SeedEpoch c)
       (TaskPoRep c) (PoRepProof c) (AfterPoRep c)
       (TaskCommitMsg c) (AfterCommitMsg c) true
       (Failed c) (FailedReason c))
    (precommit_msg_cid r) (precommit_msg_tsk r) (commit_msg_cid r) (Some tsk).

(** *** SQL statements *)

(** [UPDATE sectors_sdr_pipeline SET set WHERE cond]: the rows that satisfy
    [cond] are rewritten, and their number is reported. *)
Definition sql_update (cond : row -> bool) (set : row -> row) (rows : list row)
  : Z * list row :=
  (Z.of_nat (length (List.filter cond rows)),
   List.map (fun r => if cond r then set r else r) rows).

(** [Exec] of an UPDATE, on the pool or inside a transaction. *)
Definition Exec (cond : row -> bool) (set : row -> row) (d : DB) : result Z * DB :=
  if available d then
    let '(n, rows) := sql_update cond set (sectors_sdr_pipeline d) in
    (inl n, mkDB rows (message_waits d) (available d))
  else (inr ErrDB, d).

(** [SELECT ... FROM sectors_sdr_pipeline WHERE after_commit_msg_success != true] *)
Definition select_tasks (d : DB) : result (list pollTask) :=
  if available d then
    inl (List.map cols
           (List.filter (fun r => negb (AfterCommitMsgSuccess (cols r)))
              (sectors_sdr_pipeline d)))
  else inr ErrDB.

(** [... JOIN message_waits ON sectors_sdr_pipeline.<cid> = message_waits.signed_message_cid
     WHERE sp_id = $1 AND sector_number = $2 AND executed_tsk_epoch is not null] *)
Definition joined (cid : row -> option string) (r : row) (w : message_wait)
  : option execResult :=
  match cid r with
  | Some c => if String.eqb c (signed_message_cid w) then executed w else None
  | None => None
  end.

Definition select_executed (cid : row -> option string) (sp sn : Z) (d : DB)
  : result (list execResult) :=
  if available d then
    inl (List.flat_map
           (fun r => omap (joined cid r) (message_waits d))
           (List.filter (is_key sp sn) (sectors_sdr_pipeline d)))
  else inr ErrDB.


(** *** The chain *)

(** Of [miner.SectorPreCommitOnChainInfo] the poller reads [PreCommitEpoch]. *)
Record SectorPreCommitOnChainInfo : Set := mkPreCommitInfo {
  PreCommitEpoch : Z
}.

(** Of [miner.SectorOnChainInfo] the poller only tests the pointer. *)
Inductive SectorOnChainInfo : Set := mkSectorInfo.

(** [SealPollerAPI].  A tipset is represented by its height; [ChainHead n] is
    the answer to the [n]-th call of the method, so that the head may move
    between two calls.  Addresses are ID addresses, given by their number. *)
Record SealPollerAPI : Type := mkAPI {
  StateSectorPreCommitInfo : Z -> Z -> result (option SectorPreCommitOnChainInfo);
  StateSectorGetInfo : Z -> Z -> result (option SectorOnChainInfo);
  ChainHead : nat -> result Z
}.

(** [address.NewIDAddress]: ids above [MaxInt64] are refused. *)
Definition NewIDAddress (id : Z) : result Z :=
  if Int64.MaxInt64 <? id then inr ErrAddress else inl id.

(** *** The world the poller acts on *)

(** What the poller asks of its collaborators, in the order it asks. *)
Inductive Event : Set :=
| EvChainHead (n : nat)
| EvClaim (p : poller) (sp sn : Z)
| EvRegistered (id : Z)
| EvRolledBack (id : Z) (seriousError : option error)
| EvLog (msg : string) (e : error).

Record World : Set := mkWorld {
  db : DB;
  next_task : Z;
  heads_read : nat;
  trace : list Event
}.

(** A computation returns a value in a new world, or it blocks for ever in
    the world it has reached. *)
Inductive outcome (A : Type) : Type :=
| Ret (a : A * World)
| Blocked (w : World).
Arguments Ret {A} a.
Arguments Blocked {A} w.

(** Computations of the poller: they change the world and may block. *)
Definition M (A : Type) : Type := World -> outcome A.

Definition ret {A} (a : A) : M A := fun w => Ret (a, w).

Definition bind {A B} (m : M A) (k : A -> M B) : M B :=
  fun w => match m w with
           | Ret (a, w') => k a w'
           | Blocked w' => Blocked w'
           end.

(** The world in which a computation ends. *)
Definition final {A} (o : outcome A) : World :=
  match o with
  | Ret (_, w) => w
  | Blocked w => w
  end.

Notation "x <- m ;; k" := (bind m (fun x => k))
  (at level 100, m at next level, right associativity).
Notation "m ;;; k" := (bind m (fun _ => k))
  (at level 100, right associativity).

Definition emit (e : Event) : M unit :=
  fun w => Ret (tt, mkWorld (db w) (next_task w) (heads_read w) (trace w ++ [e])).

Definition log_Errorw (msg : string) (e : error) : M unit := emit (EvLog msg e).

(** [s.db.Exec] and [s.db.Select] outside a transaction. *)
Definition db_Exec (cond : row -> bool) (set : row -> row) : M (result Z) :=
  fun w => let '(r, d) := Exec cond set (db w) in
           Ret (r, mkWorld d (next_task w) (heads_read w) (trace w)).

Definition db_Select {A} (q : DB -> result A) : M (result A) :=
  fun w => Ret (q (db w), w).

(** [s.api.ChainHead(ctx)] *)
Definition api_ChainHead (api : SealPollerAPI) : M (result Z) :=
  fun w => Ret (ChainHead api (heads_read w),
                mkWorld (db w) (next_task w) (S (heads_read w))
                  (trace w ++ [EvChainHead (heads_read w)])).

(** *** Deferred task registration *)

(** The closure type [func(id TaskID, tx *Tx) (shouldCommit bool, seriousError error)]. *)
Definition claimFn : Type := Z -> DB -> (bool * option error) * DB.

Definition AddTaskFunc : Type := claimFn -> M unit.

(** Modelled from the spec: [harmonytask.AddTaskFunc], of the package
    lib/harmony/harmonytask, whose source is not among the files verified
    here.  The handle mints a new task id, runs the closure inside a
    transaction and keeps the transaction only when the closure answers
    [shouldCommit = true] without an error; otherwise the registration is
    rolled back. *)
Definition AddTask : AddTaskFunc :=
  fun extraInfo w =>
    let id := next_task w in
    let '((shouldCommit, seriousError), tx) := extraInfo id (db w) in
    if shouldCommit && is_null seriousError then
      Ret (tt, mkWorld tx (id + 1) (heads_read w) (trace w ++ [EvRegistered id]))
    else
      Ret (tt, mkWorld (db w) (id + 1) (heads_read w)
                 (trace w ++ [EvRolledBack id seriousError])).

(** [SealPoller]: [pollers p] tells whether the promise of stage [p] is set. *)
Record SealPoller : Type := mkSealPoller {
  api : SealPollerAPI;
  pollers : poller -> bool
}.

(** Modelled from the spec: [Promise.IsSet], of the package lib/promise,
    whose source is not among the files verified here.  It is the
    non-blocking test of a settable-once future. *)
Definition IsSet (s : SealPoller) (p : poller) : bool := pollers s p.

(** Modelled from the spec: [Promise.Val], of the same package.  It waits for
    the value, so on a promise that is not set it does not return; the value
    of a promise that is set is the handle of the Task Execution Service. *)
Definition Val (s : SealPoller) (p : poller) : M AddTaskFunc :=
  fun w => if pollers s p then Ret (AddTask, w) else Blocked w.

(** *** The claims *)

(** The body shared by the five closures: run the UPDATE, fail on an error,
    fail unless exactly one row was updated. *)
Definition claim (cond : row -> bool) (set : Z -> row -> row) : claimFn :=
  fun id tx =>
    let '(r, tx') := Exec cond (set id) tx in
    match r with
    | inr err => ((false, Some (ErrWrap "update sectors_sdr_pipeline" err)), tx')
    | inl n =>
        if negb (n =? 1) then ((false, Some (ErrRows n)), tx')
        else ((true, None), tx')
    end.

(** [WHERE sp_id = $2 AND sector_number = $3 and task_id_sdr is null] *)
Definition where_sdr (task : pollTask) (r : row) : bool :=
  is_key (SpID task) (SectorNumber task) r && is_null (TaskSDR (cols r)).

(** [WHERE sp_id = $2 AND sector_number = $3 and after_sdr = true
     and task_id_tree_d is null and task_id_tree_c is null and task_id_tree_r is null] *)
Definition where_trees (task : pollTask) (r : row) : bool :=
  is_key (SpID task) (SectorNumber task) r && AfterSDR (cols r)
  && is_null (TaskTreeD (cols r)) && is_null (TaskTreeC (cols r))
  && is_null (TaskTreeR (cols r)).

(** [WHERE sp_id = $2 AND sector_number = $3 and task_id_precommit_msg is null
     and after_tree_r = true and after_tree_d = true] *)
Definition where_precommit_msg (task : pollTask) (r : row) : bool :=
  is_key (SpID task) (SectorNumber task) r && is_null (TaskPrecommitMsg (cols r))
  && AfterTreeR (cols r) && AfterTreeD (cols r).

(** [WHERE sp_id = $2 AND sector_number = $3 and task_id_porep is null] *)
Definition where_porep (task : pollTask) (r : row) : bool :=
  is_key (SpID task) (SectorNumber task) r && is_null (TaskPoRep (cols r)).

(** [WHERE sp_id = $2 AND sector_number = $3 and task_id_commit_msg is null] *)
Definition where_commit_msg (task : pollTask) (r : row) : bool :=
  is_key (SpID task) (SectorNumber task) r && is_null (TaskCommitMsg (cols r)).

(** [WHERE sp_id = $3 AND sector_number = $4 and seed_epoch is NULL] *)
Definition where_precommit_landed (task : pollTask) (r : row) : bool :=
  is_key (SpID task) (SectorNumber task) r && is_null (SeedEpoch (cols r)).

(** [WHERE sp_id = $2 AND sector_number = $3 and after_commit_msg_success = false] *)
Definition where_commit_landed (task : pollTask) (r : row) : bool :=
  is_key (SpID task) (SectorNumber task) r && negb (AfterCommitMsgSuccess (cols r)).

Definition claimSDR (task : pollTask) : claimFn :=
  claim (where_sdr task) set_task_id_sdr.
Definition claimTrees (task : pollTask) : claimFn :=
  claim (where_trees task) set_task_id_trees.
Definition claimPrecommitMsg (task : pollTask) : claimFn :=
  claim (where_precommit_msg task) set_task_id_precommit_msg.
Definition claimPoRep (task : pollTask) : claimFn :=
  claim (where_porep task) set_task_id_porep.
Definition claimCommitMsg (task : pollTask) : claimFn :=
  claim (where_commit_msg task) set_task_id_commit_msg.

(** [s.pollers[p].Val(ctx)(closure)], with the call noted in the trace. *)
Definition register (s : SealPoller) (p : poller) (task : pollTask) (f : claimFn) : M unit :=
  emit (EvClaim p (SpID task) (SectorNumber task)) ;;;
  addTask <- Val s p ;;
  addTask f.

(** *** The stages *)

Definition readySDR (s : SealPoller) (task : pollTask) : bool :=
  is_null (TaskSDR task) && IsSet s pollerSDR.

Definition pollStartSDR (s : SealPoller) (task : pollTask) : M unit :=
  if readySDR s task then register s pollerSDR task (claimSDR task) else ret tt.

Definition readySDRTrees (s : SealPoller) (task : pollTask) : bool :=
  is_null (TaskTreeD task) && is_null (TaskTreeC task) && is_null (TaskTreeR task)
  && IsSet s pollerTrees && AfterSDR task.

Definition pollStartSDRTrees (s : SealPoller) (task : pollTask) : M unit :=
  if readySDRTrees s task then register s pollerTrees task (claimTrees task) else ret tt.

(** This stage does not test its promise. *)
Definition readyPrecommitMsg (task : pollTask) : bool :=
  is_null (TaskPrecommitMsg task) && AfterTreeR task && AfterTreeD task.

Definition pollStartPrecommitMsg (s : SealPoller) (task : pollTask) : M unit :=
  if readyPrecommitMsg task
  then register s pollerPrecommitMsg task (claimPrecommitMsg task) else ret tt.

(** [ts.Height() >= abi.ChainEpoch( *task.SeedEpoch+seedEpochConfidence)], with
    the sum taken on [int64]. *)
Definition seed_reached (task : pollTask) (ts : Z) : bool :=
  match SeedEpoch task with
  | Some seed => Int64.add seed seedEpochConfidence <=? ts
  | None => false
  end.

Definition readyPoRep (s : SealPoller) (task : pollTask) (ts : Z) : bool :=
  IsSet s pollerPoRep && AfterPrecommitMsgSuccess task
  && negb (is_null (SeedEpoch task)) && is_null (TaskPoRep task)
  && seed_reached task ts.

Definition pollStartPoRep (s : SealPoller) (task : pollTask) (ts : Z) : M unit :=
  if readyPoRep s task ts then register s pollerPoRep task (claimPoRep task) else ret tt.

Definition readyCommitMsg (s : SealPoller) (task : pollTask) : bool :=
  AfterPoRep task && (0 <? Z.of_nat (length (PoRepProof task)))
  && is_null (TaskCommitMsg task) && IsSet s pollerCommitMsg.

Definition pollStartCommitMsg (s : SealPoller) (task : pollTask) : M unit :=
  if readyCommitMsg s task
  then register s pollerCommitMsg task (claimCommitMsg task) else ret tt.

(** *** The landing checks *)

(** [s.db.Select(ctx, &execResult, ...)] of a landing check: an error is
    logged and the result stays empty. *)
Definition select_landed (cid : row -> option string) (task : pollTask)
  : M (list execResult) :=
  r <- db_Select (select_executed cid (SpID task) (SectorNumber task)) ;;
  match r with
  | inr err => log_Errorw "failed to query message_waits" err ;;; ret []
  | inl execResult => ret execResult
  end.

Definition checksPrecommitMsgLanded (task : pollTask) : bool :=
  negb (is_null (TaskPrecommitMsg task)) && negb (AfterPrecommitMsgSuccess task).

Section WithPolicy.

(** [policy.GetPreCommitChallengeDelay()], a parameter of the network. *)
Variable PreCommitChallengeDelay : Z.

Definition pollPrecommitMsgLanded (s : SealPoller) (task : pollTask) : M (option error) :=
  if checksPrecommitMsgLanded task then
    execResult <- select_landed precommit_msg_cid task ;;
    match execResult with
    | [] => ret None
    | e0 :: _ =>
        match NewIDAddress (Int64.to_uint64 (SpID task)) with
        | inr err => ret (Some err)
        | inl maddr =>
            match StateSectorPreCommitInfo (api s) maddr
                    (Int64.to_uint64 (SectorNumber task)) with
            | inr err => ret (Some (ErrWrap "get precommit info" err))
            | inl None => ret None
            | inl (Some pci) =>
                let randHeight := Int64.add (PreCommitEpoch pci) PreCommitChallengeDelay in
                r <- db_Exec (where_precommit_landed task)
                       (set_precommit_landed randHeight (ExecutedTskCID e0)) ;;
                match r with
                | inr err => ret (Some (ErrWrap "update sectors_sdr_pipeline" err))
                | inl _ => ret None
                end
            end
        end
    end
  else ret None.

Definition checksCommitMsgLanded (s : SealPoller) (task : pollTask) : bool :=
  AfterCommitMsg task && negb (AfterCommitMsgSuccess task) && IsSet s pollerCommitMsg.

Definition pollCommitMsgLanded (s : SealPoller) (task : pollTask) : M (option error) :=
  if checksCommitMsgLanded s task then
    execResult <- select_landed commit_msg_cid task ;;
    match execResult with
    | [] => ret None
    | e0 :: _ =>
        match NewIDAddress (Int64.to_uint64 (SpID task)) with
        | inr err => ret (Some err)
        | inl maddr =>
            match StateSectorGetInfo (api s) maddr
                    (Int64.to_uint64 (SectorNumber task)) with
            | inr err => ret (Some (ErrWrap "get sector info" err))
            | inl None =>
                log_Errorw "todo handle missing sector info (not found after cron)"
                  (ErrChain (ExecutedTskCID e0)) ;;;
                ret None
            | inl (Some si) =>
                r <- db_Exec (where_commit_landed task)
                       (set_commit_landed (ExecutedTskCID e0)) ;;
                match r with
                | inr err => ret (Some (ErrWrap "update sectors_sdr_pipeline" err))
                | inl _ => ret None
                end
            end
        end
    end
  else ret None.

Definition mustPoll (err : option error) : M unit :=
  match err with
  | Some e => log_Errorw "poller operation failed" e
  | None => ret tt
  end.

(** *** One tick *)

(** The stages of one record, in the order [poll] calls them. *)
Definition pollTaskStages (s : SealPoller) (task : pollTask) (ts : Z) : M unit :=
  pollStartSDR s task ;;;
  pollStartSDRTrees s task ;;;
  pollStartPrecommitMsg s task ;;;
  (e <- pollPrecommitMsgLanded s task ;; mustPoll e) ;;;
  pollStartPoRep s task ts ;;;
  pollStartCommitMsg s task ;;;
  (e <- pollCommitMsgLanded s task ;; mustPoll e).

(** The [for _, task := range tasks] loop. *)
Fixpoint pollTasks (s : SealPoller) (tasks : list pollTask) : M (option error) :=
  match tasks with
  | [] => ret None
  | task :: rest =>
      if Failed task then pollTasks s rest
      else
        r <- api_ChainHead (api s) ;;
        match r with
        | inr err => ret (Some (ErrWrap "getting chain head" err))
        | inl ts => pollTaskStages s task ts ;;; pollTasks s rest
        end
  end.

Definition poll (s : SealPoller) : M (option error) :=
  r <- db_Select select_tasks ;;
  match r with
  | inr err => ret (Some err)
  | inl tasks => pollTasks s tasks
  end.

End WithPolicy.

(** *** The five claims, by stage *)

Definition stageClaim (p : poller) : pollTask -> claimFn :=
  match p with
  | pollerSDR => claimSDR
  | pollerTrees => claimTrees
  | pollerPrecommitMsg => claimPrecommitMsg
  | pollerPoRep => claimPoRep
  | pollerCommitMsg => claimCommitMsg
  end.

Definition stageWhere (p : poller) : pollTask -> row -> bool :=
  match p with
  | pollerSDR => where_sdr
  | pollerTrees => where_trees
  | pollerPrecommitMsg => where_precommit_msg
  | pollerPoRep => where_porep
  | pollerCommitMsg => where_commit_msg
  end.

Definition stageSet (p : poller) : Z -> row -> row :=
  match p with
  | pollerSDR => set_task_id_sdr
  | pollerTrees => set_task_id_trees
  | pollerPrecommitMsg => set_task_id_precommit_msg
  | pollerPoRep => set_task_id_porep
  | pollerCommitMsg => set_task_id_commit_msg
  end.

(** The task-id columns of a stage; the tree group has three. *)
Definition taskIdColumns (p : poller) (r : row) : list (option Z) :=
  match p with
  | pollerSDR => [TaskSDR (cols r)]
  | pollerTrees => [TaskTreeD (cols r); TaskTreeC (cols r); TaskTreeR (cols r)]
  | pollerPrecommitMsg => [TaskPrecommitMsg (cols r)]
  | pollerPoRep => [TaskPoRep (cols r)]
  | pollerCommitMsg => [TaskCommitMsg (cols r)]
  end.

(** The number of rows that the claim of stage [p] for [task] updates. *)
Definition rowsAffected (p : poller) (task : pollTask) (tx : DB) : Z :=
  Z.of_nat (length (List.filter (stageWhere p task) (sectors_sdr_pipeline tx))).

(** The events that a computation appends to the trace. *)
Definition newEvents (w w' : World) : list Event :=
  drop (length (trace w)) (trace w').

(** *** The poller as a whole *)

(** [NewPoller]: the database is the one of the world.  The promises of
    [pollers] are left at their zero value, so none of them is set until the
    Task Execution Service supplies its handles. *)
Definition NewPoller (api : SealPollerAPI) : SealPoller :=
  mkSealPoller api (fun _ => false).

(** What the [select] of [RunPoller] receives: the context is done, or the
    ticker fires. *)
Inductive signal : Set :=
| ctxDone
| tickerC.

Section Run.

Variable PreCommitChallengeDelay : Z.

(** The case [<-ticker.C] of the loop: one tick, whose error is logged. *)
Definition pollLogged (s : SealPoller) : M unit :=
  err <- poll PreCommitChallengeDelay s ;;
  match err with
  | Some e => log_Errorw "polling failed" e
  | None => ret tt
  end.

(** [RunPoller] on the signals that its [select] receives, in their order.
    The answer tells whether the loop has returned; it has not when the
    signals are used up and the loop waits for the next one. *)
Fixpoint RunPoller (s : SealPoller) (signals : list signal) : M bool :=
  match signals with
  | [] => ret false
  | ctxDone :: _ => ret true
  | tickerC :: rest => pollLogged s ;;; RunPoller s rest
  end.

End Run.

End lpseal.

(** ** The spread assigner of the sector-storage scheduler *)

Module sectorstorage.

(** [storiface.WorkerID] is a UUID; it is represented by its 128-bit value. *)
Definition WorkerID : Set := N.

(** Go's [int] is taken to be 64 bits wide. *)
Definition MaxInt : Z := Int64.MaxInt64.

(** [l[i]] for an [int] index; [None] is the index-out-of-range panic. *)
Definition index {A} (l : list A) (i : Z) : option A :=
  if decide (0 <= i) then l !! Z.to_nat i else None.

(** The fields of [WorkerRequest] that the assigner reads. *)
Record WorkerRequest : Set := mkRequest {
  SectorNumber : Z;
  ProofType : Z;
  TaskType : string;
  IndexHeap : Z
}.

Record SchedWindowRequest : Set := mkWindowRequest {
  Worker : WorkerID
}.

Section Assigner.

(** The resource types of [storiface] and the two operations on them are
    defined outside the files verified here; the assigner is parameterised
    by them. *)
Variable WorkerResources : Type.
Variable zeroWorkerResources : WorkerResources.
Variable Resources : Type.
Variable ActiveResources : Type.

(** [storiface.WorkerInfo] *)
Record WorkerInfo : Type := mkWorkerInfo {
  Hostname : string;
  IgnoreResources : bool;
  WResources : WorkerResources
}.

(** The zero value that [var info storiface.WorkerInfo] declares. *)
Definition zeroWorkerInfo : WorkerInfo := mkWorkerInfo "" false zeroWorkerResources.

(** [r.ResourceSpec(proofType, taskType)] on a [WorkerResources]. *)
Variable ResourceSpec : WorkerResources -> Z -> string -> Resources.

(** [a.CanHandleRequest(needRes, wid, caller, info)], the admission test of a
    window's allocation. *)
Variable CanHandleRequest :
  ActiveResources -> Resources -> WorkerID -> string -> WorkerInfo -> bool.

Record WorkerHandle : Type := mkWorkerHandle {
  Info : WorkerInfo
}.

Record SchedWindow : Type := mkSchedWindow {
  Allocated : ActiveResources;
  Todo : list WorkerRequest
}.

Record Scheduler : Type := mkScheduler {
  SchedQueue : list WorkerRequest;
  OpenWindows : list SchedWindowRequest;
  Workers : gmap WorkerID WorkerHandle
}.

(** The variables of the inner loop. *)
Record selection : Type := mkSelection {
  selectedWindow : Z;
  info : WorkerInfo;
  bestWid : WorkerID;
  bestAssigned : Z
}.

Definition noSelection : selection := mkSelection (-1) zeroWorkerInfo 0%N MaxInt.

(** [wu, _ := workerAssigned[wid]] *)
Definition assigned (workerAssigned : gmap WorkerID Z) (wid : WorkerID) : Z :=
  default 0 (workerAssigned !! wid).

(** The admission test as the loop calls it for the candidate [wnd]: the
    request and the worker information both come from the variable [info]. *)
Definition admits (windows : list SchedWindow) (task : WorkerRequest)
    (st : selection) (wid : WorkerID) (wnd : Z) : option bool :=
  let res := ResourceSpec (WResources (info st)) (ProofType task) (TaskType task) in
  win ← index windows wnd;
  Some (CanHandleRequest (Allocated win) res wid "schedAssign" (info st)).

(** One iteration of [for i, wnd := range acceptableWindows[task.IndexHeap]]. *)
Definition tryWindow (sh : Scheduler) (windows : list SchedWindow)
    (workerAssigned : gmap WorkerID Z) (task : WorkerRequest)
    (st : selection) (wnd : Z) : option selection :=
  ow ← index (OpenWindows sh) wnd;
  let wid := Worker ow in
  let w := Workers sh !! wid in
  ok ← admits windows task st wid wnd;
  if negb ok then Some st
  else
    let wu := assigned workerAssigned wid in
    if bestAssigned st <=? wu then Some st
    else
      h ← w;
      Some (mkSelection wnd (Info h) wid wu).

Fixpoint scanWindows (sh : Scheduler) (windows : list SchedWindow)
    (workerAssigned : gmap WorkerID Z) (task : WorkerRequest)
    (st : selection) (acceptable : list Z) : option selection :=
  match acceptable with
  | [] => Some st
  | wnd :: rest =>
      st' ← tryWindow sh windows workerAssigned task st wnd;
      scanWindows sh windows workerAssigned task st' rest
  end.

(** The variables of the outer loop. *)
Record pass : Type := mkPass {
  scheduled : Z;
  rmQueue : list Z;
  workerAssigned : gmap WorkerID Z;
  windows : list SchedWindow
}.

(** [windows[selectedWindow].Todo = append(windows[selectedWindow].Todo, task)] *)
Definition appendTodo (ws : list SchedWindow) (wnd : Z) (task : WorkerRequest)
  : option (list SchedWindow) :=
  win ← index ws wnd;
  Some (<[Z.to_nat wnd := mkSchedWindow (Allocated win) (Todo win ++ [task])]> ws).

(** The body of [for sqi := 0; sqi < queueLen; sqi++]. *)
Definition assignTask (sh : Scheduler) (acceptableWindows : list (list Z))
    (p : pass) (sqi : Z) : option pass :=
  task ← index (SchedQueue sh) sqi;
  acceptable ← index acceptableWindows (IndexHeap task);
  sel ← scanWindows sh (windows p) (workerAssigned p) task noSelection acceptable;
  if selectedWindow sel <? 0 then Some p
  else
    ws ← appendTodo (windows p) (selectedWindow sel) task;
    Some (mkPass
            (Int64.add (scheduled p) 1)
            (rmQueue p ++ [sqi])
            (<[bestWid sel := Int64.add (assigned (workerAssigned p) (bestWid sel)) 1]>
               (workerAssigned p))
            ws).

Fixpoint assignTasks (sh : Scheduler) (acceptableWindows : list (list Z))
    (p : pass) (sqis : list Z) : option pass :=
  match sqis with
  | [] => Some p
  | sqi :: rest =>
      p' ← assignTask sh acceptableWindows p sqi;
      assignTasks sh acceptableWindows p' rest
  end.

(** Modelled from the spec: [RequestQueue.Remove], whose source is not among
    the files verified here.  The queue is removable by index, and removing
    an entry keeps the relative order of the others. *)
Definition Remove (q : list WorkerRequest) (i : Z) : option (list WorkerRequest) :=
  if decide (0 <= i < Z.of_nat (length q)) then Some (delete (Z.to_nat i) q) else None.

(** [for i := len(rmQueue) - 1; i >= 0; i-- { sh.SchedQueue.Remove(rmQueue[i]) }] *)
Fixpoint removeAll (q : list WorkerRequest) (rmReversed : list Z)
  : option (list WorkerRequest) :=
  match rmReversed with
  | [] => Some q
  | i :: rest => q' ← Remove q i; removeAll q' rest
  end.

Definition initialPass (ws : list SchedWindow) : pass := mkPass 0 [] ∅ ws.

(** The scan of the queue, before the placed tasks are removed from it.
    [make([]int, 0, queueLen)] panics on a negative capacity. *)
Definition scanQueue (sh : Scheduler) (queueLen : Z) (acceptableWindows : list (list Z))
    (ws : list SchedWindow) : option pass :=
  if decide (0 <= queueLen)
  then assignTasks sh acceptableWindows (initialPass ws) (seqZ 0 queueLen)
  else None.

(** [SpreadWS]: the number of tasks placed, with the scheduler and the
    windows as the pass leaves them. *)
Definition SpreadWS (sh : Scheduler) (queueLen : Z) (acceptableWindows : list (list Z))
    (ws : list SchedWindow) : option (Z * Scheduler * list SchedWindow) :=
  p ← scanQueue sh queueLen acceptableWindows ws;
  q ← removeAll (SchedQueue sh) (reverse (rmQueue p));
  Some (scheduled p, mkScheduler q (OpenWindows sh) (Workers sh), windows p).

(** *** Notions used to state what a pass does *)

(** The in-pass counter of the worker that owns window [wnd]. *)
Definition windowLoad (sh : Scheduler) (workerAssigned : gmap WorkerID Z) (wnd : Z) : Z :=
  match index (OpenWindows sh) wnd with
  | Some ow => assigned workerAssigned (Worker ow)
  | None => 0
  end.

(** The candidates that the scan's own call of the admission test lets
    through, in the order of the scan.  The call is [admits]: it is made on
    the variable [info], so these need not be the candidates that the
    window's test accepts for the candidate's own worker. *)
Fixpoint admitted (sh : Scheduler) (windows : list SchedWindow)
    (workerAssigned : gmap WorkerID Z) (task : WorkerRequest)
    (st : selection) (acceptable : list Z) : list Z :=
  match acceptable with
  | [] => []
  | wnd :: rest =>
      match index (OpenWindows sh) wnd,
            tryWindow sh windows workerAssigned task st wnd with
      | Some ow, Some st' =>
          match admits windows task st (Worker ow) wnd with
          | Some true => wnd :: admitted sh windows workerAssigned task st' rest
          | _ => admitted sh windows workerAssigned task st' rest
          end
      | _, _ => []
      end
  end.

(** The entries of a queue whose position is not listed in [rm], in their
    order; [i] is the position of the first entry. *)
Fixpoint keepFrom (i : Z) (rm : list Z) (q : list WorkerRequest) : list WorkerRequest :=
  match q with
  | [] => []
  | x :: q' =>
      if decide (i ∈ rm) then keepFrom (i + 1) rm q' else x :: keepFrom (i + 1) rm q'
  end.

Definition unplaced (rm : list Z) (q : list WorkerRequest) : list WorkerRequest :=
  keepFrom 0 rm q.

(** Placements are pairs of a queue position and a window.  The tasks placed
    on window [j], in the order of their placement. *)
Definition placedOn (sh : Scheduler) (j : Z) (placed : list (Z * Z)) : list WorkerRequest :=
  omap (fun pl : Z * Z => if decide (pl.2 = j) then index (SchedQueue sh) pl.1 else None)
    placed.

(** The number of placements on windows of worker [wid]. *)
Definition placedWith (sh : Scheduler) (wid : WorkerID) (placed : list (Z * Z)) : Z :=
  Z.of_nat (length (List.filter
    (fun pl : Z * Z =>
       match index (OpenWindows sh) pl.2 with
       | Some ow => bool_decide (Worker ow = wid)
       | None => false
       end) placed)).

End Assigner.

Arguments mkWorkerInfo {WorkerResources} Hostname IgnoreResources WResources.
Arguments Hostname {WorkerResources} w.
Arguments IgnoreResources {WorkerResources} w.
Arguments WResources {WorkerResources} w.
Arguments zeroWorkerInfo {WorkerResources} zeroWorkerResources.
Arguments mkWorkerHandle {WorkerResources} Info.
Arguments Info {WorkerResources} w.
Arguments mkSchedWindow {ActiveResources} Allocated Todo.
Arguments Allocated {ActiveResources} s.
Arguments Todo {ActiveResources} s.
Arguments mkScheduler {WorkerResources} SchedQueue OpenWindows Workers.
Arguments SchedQueue {WorkerResources} s.
Arguments OpenWindows {WorkerResources} s.
Arguments Workers {WorkerResources} s.
Arguments mkSelection {WorkerResources} selectedWindow info bestWid bestAssigned.
Arguments selectedWindow {WorkerResources} s.
Arguments info {WorkerResources} s.
Arguments bestWid {WorkerResources} s.
Arguments bestAssigned {WorkerResources} s.
Arguments noSelection {WorkerResources} zeroWorkerResources.
Arguments mkPass {ActiveResources} scheduled rmQueue workerAssigned windows.
Arguments scheduled {ActiveResources} p.
Arguments rmQueue {ActiveResources} p.
Arguments workerAssigned {ActiveResources} p.
Arguments windows {ActiveResources} p.
Arguments initialPass {ActiveResources} ws.
Arguments appendTodo {ActiveResources} ws wnd task.
Arguments admits {WorkerResources Resources ActiveResources}
  ResourceSpec CanHandleRequest windows task st wid wnd.
Arguments tryWindow {WorkerResources Resources ActiveResources}
  ResourceSpec CanHandleRequest sh windows workerAssigned task st wnd.
Arguments scanWindows {WorkerResources Resources ActiveResources}
  ResourceSpec CanHandleRequest sh windows workerAssigned task st acceptable.
Arguments assignTask {WorkerResources} zeroWorkerResources {Resources ActiveResources}
  ResourceSpec CanHandleRequest sh acceptableWindows p sqi.
Arguments assignTasks {WorkerResources} zeroWorkerResources {Resources ActiveResources}
  ResourceSpec CanHandleRequest sh acceptableWindows p sqis.
Arguments scanQueue {WorkerResources} zeroWorkerResources {Resources ActiveResources}
  ResourceSpec CanHandleRequest sh queueLen acceptableWindows ws.
Arguments SpreadWS {WorkerResources} zeroWorkerResources {Resources ActiveResources}
  ResourceSpec CanHandleRequest sh queueLen acceptableWindows ws.
Arguments windowLoad {WorkerResources} sh workerAssigned wnd.
Arguments admitted {WorkerResources Resources ActiveResources}
  ResourceSpec CanHandleRequest sh windows workerAssigned task st acceptable.
Arguments placedOn {WorkerResources} sh j placed.
Arguments placedWith {WorkerResources} sh wid placed.

End sectorstorage.

(** ** The state-root statistics of [lotus-shed] *)

(** A shallow embedding of [cmd/lotus-shed/stateroot-stats.go]: the store
    that counts what it reads, and the commands [stateroot stat] and
    [stateroot diffs].  The node, the parsers and the sorting routine of the
    Go library are parameters. *)
Module stateroot.

(** Go's [uint64]: sums and differences wrap around. *)
Definition wrap64 (z : Z) : Z := z mod 2 ^ 64.

(** An error, given by its message. *)
Definition error : Set := string.

Definition result (A : Type) : Type := A + error.

(** [s[:n]] for an [int] bound; [None] is the slice-bounds panic. *)
Definition sliceTo {A} (s : list A) (n : Z) : option (list A) :=
  if decide (0 <= n <= Z.of_nat (length s)) then Some (take (Z.to_nat n) s) else None.

(** [for _, x := range xs { y, err := f(x); if err != nil { return err }; ys = append(ys, y) }] *)
Fixpoint collect {A B} (f : A -> result B) (xs : list A) : result (list B) :=
  match xs with
  | [] => inl []
  | x :: rest =>
      match f x with
      | inr err => inr err
      | inl y =>
          match collect f rest with
          | inr err => inr err
          | inl ys => inl (y :: ys)
          end
      end
  end.

(** *** The store that counts what it reads *)

(** [trackingApiStore]: the two counters; the context and the node do not
    change. *)
Record trackingApiStore : Set := mkStore {
  blocksRead : Z;
  dataRead : Z
}.

(** How a call of [Get] ends. *)
Inductive got (V : Type) : Type :=
| Decoded (v : V)
| GetFailed (err : error)
| Panicked.
Arguments Decoded {V} v.
Arguments GetFailed {V} err.
Arguments Panicked {V}.

Section Store.

Variable Cid : Type.
Variable V : Type.

(** [ts.api.ChainReadObj] *)
Variable ChainReadObj : Cid -> result (list Byte.byte).

(** The argument [out] of [Get]: a [cbg.CBORUnmarshaler], given by what its
    [UnmarshalCBOR] makes of the bytes, or a value of another type, on
    which the type assertion panics. *)
Definition out : Type := option (list Byte.byte -> result V).

Definition Get (ts : trackingApiStore) (c : Cid) (o : out) : got V * trackingApiStore :=
  match ChainReadObj c with
  | inr err => (GetFailed err, ts)
  | inl obj =>
      let ts' := mkStore (Int64.add (blocksRead ts) 1)
                   (Int64.add (dataRead ts) (Z.of_nat (length obj))) in
      match o with
      | None => (Panicked, ts')
      | Some UnmarshalCBOR =>
          match UnmarshalCBOR obj with
          | inr err => (GetFailed err, ts')
          | inl v => (Decoded v, ts')
          end
      end
  end.

(** [Put]: [cid.Undef] and an error. *)
Definition Put (ts : trackingApiStore) (v : V) : (option Cid * option error) * trackingApiStore :=
  ((None, Some "Put is not implemented"), ts).

End Store.

Arguments Get {Cid V} ChainReadObj ts c o.
Arguments Put {Cid V} ts v.

(** *** [stateroot stat] *)

(** [api.ObjStat] *)
Record ObjStat : Set := mkObjStat {
  Size : Z;
  Links : Z
}.

(** What a command prints, line by line. *)
Inductive line (Address Cid : Type) : Type :=
| TotalStateTreeSize (n : Z)
| SumOfActorStateSize (n : Z)
| StateTreeStructureSize (n : Z)
| StatHeader
| StatRow (addr : Address) (digest : string) (size : Z)
| DiffsHeader
| DiffsRow (height size links : Z) (obj : Cid) (base : option Cid).
Arguments TotalStateTreeSize {Address Cid} n.
Arguments SumOfActorStateSize {Address Cid} n.
Arguments StateTreeStructureSize {Address Cid} n.
Arguments StatHeader {Address Cid}.
Arguments StatRow {Address Cid} addr digest size.
Arguments DiffsHeader {Address Cid}.
Arguments DiffsRow {Address Cid} height size links obj base.

Section Commands.

Variable Address : Type.
Variable Cid : Type.
Variable TipSetKey : Type.

(** Of [types.Actor] the commands read the code and the head. *)
Record Actor : Type := mkActor {
  Code : Cid;
  Head : Cid
}.

(** Of [types.BlockHeader] the commands read the parent state root and the
    parents. *)
Record BlockHeader : Type := mkBlockHeader {
  ParentStateRoot : Cid;
  Parents : list Cid
}.

(** [types.TipSet], with what its methods [Height], [Key], [Blocks] and
    [ParentState] return. *)
Record TipSet : Type := mkTipSet {
  Height : Z;
  Key : TipSetKey;
  Blocks : list BlockHeader;
  ParentState : Cid
}.

Record statItem : Type := mkStatItem {
  Addr : Address;
  Actor_ : Actor;
  Stat : ObjStat
}.

(** The methods of the node that the commands call; [None] stands for
    [cid.Undef]. *)
Record FullNode : Type := mkFullNode {
  StateListActors : TipSetKey -> result (list Address);
  StateGetActor : Address -> TipSetKey -> result Actor;
  ChainStatObj : Cid -> option Cid -> result ObjStat;
  ChainGetTipSet : TipSetKey -> result TipSet
}.

(** [lcli.GetFullNodeAPI] and [lcli.LoadTipSet], as the command line and the
    node answer them. *)
Variable GetFullNodeAPI : result FullNode.
Variable LoadTipSet : FullNode -> result TipSet.

(** [address.NewFromString] *)
Variable NewFromString : string -> result Address.

(** [multihash.Decode(c.Hash())], of which the digest is printed. *)
Variable Digest : Cid -> result string.

(** [types.NewTipSetKey] *)
Variable NewTipSetKey : list Cid -> TipSetKey.

(** [sort.Slice(infos, less)] with [less] comparing the sizes, greater
    first.  The routine is not stable; what the library promises of it is
    stated where it is used. *)
Variable sortSlice : list statItem -> list statItem.

Definition out_line : Type := line Address Cid.

(** The loop over the addresses: the actor, then the size of its state. *)
Definition statOf (api : FullNode) (tsk : TipSetKey) (a : Address) : result statItem :=
  match StateGetActor api a tsk with
  | inr err => inr err
  | inl act =>
      match ChainStatObj api (Head act) None with
      | inr err => inr err
      | inl stat => inl (mkStatItem a act stat)
      end
  end.

(** [totalActorsSize += info.Stat.Size] over the items. *)
Definition totalActorsSize (infos : list statItem) : Z :=
  fold_left (fun acc info => wrap64 (acc + Size (Stat info))) infos 0.

(** The number of rows to print: ten, or as many as there are arguments if
    there are more, and no more than there are items. *)
Definition outcap (nArg : Z) (infos : list statItem) : Z :=
  let outcap := 10 in
  let outcap := if outcap <? nArg then nArg else outcap in
  let outcap := if Z.of_nat (length infos) <? outcap then Z.of_nat (length infos)
                else outcap in
  outcap.

(** The loop that prints the rows; it stops at a code cid that does not
    decode. *)
Fixpoint printRows (infos : list statItem) : list out_line * option error :=
  match infos with
  | [] => ([], None)
  | inf :: rest =>
      match Digest (Code (Actor_ inf)) with
      | inr err => ([], Some err)
      | inl digest =>
          let '(rows, err) := printRows rest in
          (StatRow (Addr inf) digest (Size (Stat inf)) :: rows, err)
      end
  end.

(** How a command ends: what it has printed, and its error if it has one;
    or a panic. *)
Inductive ended : Type :=
| Exit (printed : list out_line) (err : option error)
| Panic.

(** The action of [staterootStatCmd] on the arguments [args]. *)
Definition staterootStat (args : list string) : ended :=
  match GetFullNodeAPI with
  | inr err => Exit [] (Some err)
  | inl api =>
  match LoadTipSet api with
  | inr err => Exit [] (Some err)
  | inl ts =>
  match collect NewFromString args with
  | inr err => Exit [] (Some err)
  | inl addrs =>
  match (if decide (length addrs = 0%nat) then StateListActors api (Key ts)
         else inl addrs) with
  | inr err => Exit [] (Some err)
  | inl addrs =>
  match collect (statOf api (Key ts)) addrs with
  | inr err => Exit [] (Some err)
  | inl infos =>
      let infos := sortSlice infos in
      let total := totalActorsSize infos in
      let outcap := outcap (Z.of_nat (length args)) infos in
      match ChainStatObj api (ParentState ts) None with
      | inr err => Exit [] (Some err)
      | inl totalStat =>
          let summary :=
            [TotalStateTreeSize (Size totalStat);
             SumOfActorStateSize total;
             StateTreeStructureSize (wrap64 (Size totalStat - total));
             StatHeader] in
          match sliceTo infos outcap with
          | None => Panic
          | Some shown =>
              let '(rows, err) := printRows shown in
              Exit (summary ++ rows) err
          end
      end
  end end end end end.

(** *** [stateroot diffs] *)

(** The closure [fn]: the parent state root and the parents of the first
    block of a tipset; [None] is the panic on a tipset without blocks. *)
Definition fn (ts : TipSet) : option (Cid * list Cid) :=
  match Blocks ts with
  | [] => None
  | blk :: _ => Some (ParentStateRoot blk, Parents blk)
  end.

(** The loop [for i := 0; i < count; i++], with [n] rounds left. *)
Fixpoint diffsLoop (api : FullNode) (diff : bool) (n : nat) (ts : TipSet) : ended :=
  match n with
  | O => Exit [] None
  | S n' =>
      if Height ts =? 0 then Exit [] None
      else
        match fn ts with
        | None => Panic
        | Some (strt, cids) =>
            match ChainGetTipSet api (NewTipSetKey cids) with
            | inr err => Exit [] (Some err)
            | inl ts' =>
                match fn ts' with
                | None => Panic
                | Some (pstrt, _) =>
                    let pstrt := if negb diff then None else Some pstrt in
                    match ChainStatObj api strt pstrt with
                    | inr err => Exit [] (Some err)
                    | inl stats =>
                        match diffsLoop api diff n' ts' with
                        | Exit rows err =>
                            Exit (DiffsRow (Height ts') (Size stats) (Links stats)
                                    strt pstrt :: rows) err
                        | Panic => Panic
                        end
                    end
                end
            end
        end
  end.

(** The action of [staterootDiffsCmd] with the flags [count] and [diff]. *)
Definition staterootDiffs (count : Z) (diff : bool) : ended :=
  match GetFullNodeAPI with
  | inr err => Exit [] (Some err)
  | inl api =>
      match LoadTipSet api with
      | inr err => Exit [] (Some err)
      | inl ts =>
          match diffsLoop api diff (Z.to_nat count) ts with
          | Exit rows err => Exit (DiffsHeader :: rows) err
          | Panic => Panic
          end
      end
  end.

End Commands.

Arguments mkActor {Cid} Code Head.
Arguments Code {Cid} a.
Arguments Head {Cid} a.
Arguments mkBlockHeader {Cid} ParentStateRoot Parents.
Arguments ParentStateRoot {Cid} b.
Arguments Parents {Cid} b.
Arguments mkTipSet {Cid TipSetKey} Height Key Blocks ParentState.
Arguments Height {Cid TipSetKey} t.
Arguments Key {Cid TipSetKey} t.
Arguments Blocks {Cid TipSetKey} t.
Arguments ParentState {Cid TipSetKey} t.
Arguments mkStatItem {Address Cid} Addr Actor_ Stat.
Arguments Addr {Address Cid} s.
Arguments Actor_ {Address Cid} s.
Arguments Stat {Address Cid} s.
Arguments mkFullNode {Address Cid TipSetKey}
  StateListActors StateGetActor ChainStatObj ChainGetTipSet.
Arguments StateListActors {Address Cid TipSetKey} f tsk.
Arguments StateGetActor {Address Cid TipSetKey} f a tsk.
Arguments ChainStatObj {Address Cid TipSetKey} f obj base.
Arguments ChainGetTipSet {Address Cid TipSetKey} f tsk.
Arguments Exit {Address Cid} printed err.
Arguments Panic {Address Cid}.
Arguments statOf {Address Cid TipSetKey} api tsk a.
Arguments totalActorsSize {Address Cid} infos.
Arguments outcap {Address Cid} nArg infos.
Arguments printRows {Address Cid} Digest infos.
Arguments staterootStat {Address Cid TipSetKey}
  GetFullNodeAPI LoadTipSet NewFromString Digest sortSlice args.
Arguments fn {Cid TipSetKey} ts.
Arguments diffsLoop {Address Cid TipSetKey} NewTipSetKey api diff n ts.
Arguments staterootDiffs {Address Cid TipSetKey}
  GetFullNodeAPI LoadTipSet NewTipSetKey count diff.

End stateroot.

(** ** Notions used to state what the poller does *)

Module PollerNotions.
Import lpseal.

Definition updated (cond : row -> bool) (set : row -> row) (rows : list row) : list row :=
  List.map (fun r => if cond r then set r else r) rows.

Definition matching (cond : row -> bool) (rows : list row) : Z :=
  Z.of_nat (length (List.filter cond rows)).

(** [m] ends, returning or blocked, in a world related by [R] to the one it
    started in. *)
Definition preserves (R : World -> World -> Prop) {A} (m : M A) : Prop :=
  forall w, R w (final (m w)).

(** [m] returns from every world: it does not block. *)
Definition returns {A} (m : M A) : Prop :=
  forall w, exists a w', m w = Ret (a, w').

(** The readiness test of a stage, as its [pollStart] function has it. *)
Definition stageReady (s : SealPoller) (ts : Z) (p : poller) (task : pollTask) : bool :=
  match p with
  | pollerSDR => readySDR s task
  | pollerTrees => readySDRTrees s task
  | pollerPrecommitMsg => readyPrecommitMsg task
  | pollerPoRep => readyPoRep s task ts
  | pollerCommitMsg => readyCommitMsg s task
  end.

(** The rows of the two worlds are related one by one. *)
Definition rows_related (Q : row -> row -> Prop) (w w' : World) : Prop :=
  Forall2 Q (sectors_sdr_pipeline (db w)) (sectors_sdr_pipeline (db w')).

(** A row keeps its key and, once it has one, its seed epoch. *)
Definition seed_kept (r0 r1 : row) : Prop :=
  key r1 = key r0
  /\ forall e, SeedEpoch (cols r0) = Some e -> SeedEpoch (cols r1) = Some e.

Definition same_heads (w w' : World) : Prop := heads_read w' = heads_read w.

Definition notFailed (tasks : list pollTask) : list pollTask :=
  List.filter (fun t => negb (Failed t)) tasks.

(** The world after the chain head was read. *)
Definition afterHead (w : World) : World :=
  mkWorld (db w) (next_task w) (S (heads_read w))
    (trace w ++ [EvChainHead (heads_read w)]).

(** The claim of C5 as it is worded: a tick that returns has read the chain
    head exactly once. *)
Definition head_read_once (delay : Z) (s : SealPoller) (w : World) : Prop :=
  forall r w', poll delay s w = Ret (r, w') -> heads_read w' = S (heads_read w).

(** The claim of C3 as it is worded: at every height below the seed epoch of
    the record plus the margin, stage 4 is not ready. *)
Definition waits_for_margin (s : SealPoller) (task : pollTask) : Prop :=
  forall seed ts,
    SeedEpoch task = Some seed -> ts < seed + seedEpochConfidence ->
    readyPoRep s task ts = false.

(** The seed epoch of the record, if it has one, is small enough for the
    margin to be added to it on [int64]. *)
Definition seed_fits (task : pollTask) : Prop :=
  forall seed, SeedEpoch task = Some seed -> Int64.in_range (seed + seedEpochConfidence).


(** An UPDATE that is issued when [b] holds, seen from one row. *)
Definition upd (b : bool) (cond : row -> bool) (set : row -> row) (r : row) : row :=
  if b && cond r then set r else r.

(** What the collaborators answered while one record was polled: the task
    ids minted for its claims, and what its landing updates wrote, if they
    ran. *)
Record answers : Set := mkAnswers {
  minted : poller -> Z;
  landedPrecommit : option (Z * string);
  landedCommit : option string
}.

Definition updLanded {A} (o : option A) (b : bool) (cond : row -> bool)
    (set : A -> row -> row) (r : row) : row :=
  match o with
  | Some a => upd b cond (set a) r
  | None => r
  end.

(** The claim of stage [p], the landing update of the precommit message and
    that of the commit message, each seen from one row. *)
Definition rowClaim (s : SealPoller) (ts : Z) (t : pollTask) (x : answers)
    (p : poller) : row -> row :=
  upd (stageReady s ts p t) (stageWhere p t) (stageSet p (minted x p)).

Definition rowPrecommitLanded (t : pollTask) (x : answers) : row -> row :=
  updLanded (landedPrecommit x) (checksPrecommitMsgLanded t)
    (where_precommit_landed t) (fun a => set_precommit_landed a.1 a.2).

Definition rowCommitLanded (s : SealPoller) (t : pollTask) (x : answers) : row -> row :=
  updLanded (landedCommit x) (checksCommitMsgLanded s t)
    (where_commit_landed t) set_commit_landed.

(** The row [r] after the stages of the record [t] were run at height [ts]
    on a table whose keys are unique. *)
Definition rowAfter (s : SealPoller) (ts : Z) (t : pollTask) (x : answers) (r : row) : row :=
  rowCommitLanded s t x
    (rowClaim s ts t x pollerCommitMsg
       (rowClaim s ts t x pollerPoRep
          (rowPrecommitLanded t x
             (rowClaim s ts t x pollerPrecommitMsg
                (rowClaim s ts t x pollerTrees
                   (rowClaim s ts t x pollerSDR r)))))).

(** No stage but stage 4 is ready on [r1], and stage 4 is ready on it only if
    [r0] had not yet been marked as landed. *)
Definition quiescent (s : SealPoller) (ts : Z) (r0 r1 : row) : Prop :=
  (forall p, p <> pollerPoRep -> stageReady s ts p (cols r1) = false)
  /\ (stageReady s ts pollerPoRep (cols r1) = true ->
      AfterPrecommitMsgSuccess (cols r0) = false).

(** [r'] is as good as [r] for stage [p]: the readiness test and the WHERE
    clause of the stage do not tell them apart. *)
Definition same_for (s : SealPoller) (ts : Z) (p : poller) (r r' : row) : Prop :=
  stageReady s ts p (cols r') = stageReady s ts p (cols r)
  /\ forall t, stageWhere p t r' = stageWhere p t r.

(** The keys of the table are unique and the database answers. *)
Definition good (w : World) : Prop :=
  NoDup (List.map key (sectors_sdr_pipeline (db w))) /\ available (db w) = true.

(** From [w] to [w'] every row [r] became [f r], and nothing else changed in
    the database. *)
Definition maps_rows (f : row -> row) (w w' : World) : Prop :=
  sectors_sdr_pipeline (db w') = List.map f (sectors_sdr_pipeline (db w))
  /\ message_waits (db w') = message_waits (db w)
  /\ available (db w') = available (db w).

(** What a tick did to the row [r]: the stages of the one record with the
    key of [r] were run on it, if that record was polled. *)
Definition touched (s : SealPoller) (h : Z) (tasks : list pollTask) (r r' : row) : Prop :=
  ((forall t, In t (notFailed tasks) -> task_key t <> key r) /\ r' = r)
  \/ (exists t x, In t (notFailed tasks) /\ task_key t = key r
                  /\ r' = rowAfter s h t x r).

(** From [w] to [w'] the trace has grown, and every claim noted meanwhile
    satisfies [A]. *)
Definition claims_within (A : poller -> Z -> Z -> Prop) (w w' : World) : Prop :=
  exists evs, trace w' = trace w ++ evs
              /\ forall p sp sn, In (EvClaim p sp sn) evs -> A p sp sn.

(** The claims of a list of records, on a chain whose head stays at [h]. *)
Definition claimable (s : SealPoller) (h : Z) (tasks : list pollTask)
    (p : poller) (sp sn : Z) : Prop :=
  exists t, In t (notFailed tasks) /\ task_key t = (sp, sn)
            /\ stageReady s h p t = true.

Definition polled (d : DB) : list pollTask :=
  List.map cols
    (List.filter (fun r => negb (AfterCommitMsgSuccess (cols r))) (sectors_sdr_pipeline d)).

(** The events of a tick that are neither a claim nor an error. *)
Definition isQuiet (e : Event) : bool :=
  match e with
  | EvClaim _ _ _ | EvRolledBack _ _ | EvLog _ _ => false
  | EvChainHead _ | EvRegistered _ => true
  end.

(** The claim of C2 as it is worded: after a tick that returned without an
    error, the next tick attempts no claim and reports no error. *)
Definition second_tick_quiet (delay : Z) (s : SealPoller) (w0 : World) : Prop :=
  forall w1, poll delay s w0 = Ret (None, w1) ->
             forallb isQuiet (newEvents w1 (final (poll delay s w1))) = true.

End PollerNotions.

(** ** Notions used to state what the assigner does *)

Module AssignerNotions.
Import sectorstorage.

Section Notions.

Context {WorkerResources ActiveResources : Type}.
Variable sh : Scheduler WorkerResources.
Variable wa : gmap WorkerID Z.
Variable ws0 : list (SchedWindow ActiveResources).

(** The selection [st] is the first least loaded window of [seen]. *)
Definition firstLeast (st : selection WorkerResources) (seen : list Z) : Prop :=
  exists pre post ow,
    seen = pre ++ selectedWindow st :: post
    /\ index (OpenWindows sh) (selectedWindow st) = Some ow
    /\ bestWid st = Worker ow
    /\ bestAssigned st = assigned wa (Worker ow)
    /\ (forall x, x ∈ pre -> windowLoad sh wa (selectedWindow st) < windowLoad sh wa x)
    /\ (forall x, x ∈ post -> windowLoad sh wa (selectedWindow st) <= windowLoad sh wa x).

Definition selects (st : selection WorkerResources) (seen : list Z) : Prop :=
  (seen = [] /\ selectedWindow st = -1 /\ bestAssigned st = MaxInt)
  \/ firstLeast st seen.

(** The window with the task appended to its pending list. *)
Definition withTodo (win : SchedWindow ActiveResources) (task : WorkerRequest)
  : SchedWindow ActiveResources :=
  mkSchedWindow (Allocated win) (Todo win ++ [task]).

(** The pass after the task at [sqi] was placed on the window that [sel]
    selects. *)
Definition placedPass (p : pass ActiveResources) (sqi : Z) (task : WorkerRequest)
    (sel : selection WorkerResources) (win : SchedWindow ActiveResources)
  : pass ActiveResources :=
  mkPass (Int64.add (scheduled p) 1) (rmQueue p ++ [sqi])
    (<[bestWid sel := Int64.add (assigned (workerAssigned p) (bestWid sel)) 1]>
       (workerAssigned p))
    (<[Z.to_nat (selectedWindow sel) := withTodo win task]> (windows p)).

(** What the pass has done once it has handled the queue positions below
    [n]: [placed] lists its placements in their order. *)
Record PassInv (n : Z) (p : pass ActiveResources) (placed : list (Z * Z)) : Prop := {
  inv_rmQueue : rmQueue p = placed.*1;
  inv_scheduled : scheduled p = Z.of_nat (length placed);
  inv_count : Z.of_nat (length placed) <= n;
  inv_range : Forall (fun pl : Z * Z =>
                        0 <= pl.1 < n /\ is_Some (index (SchedQueue sh) pl.1)
                        /\ is_Some (index (OpenWindows sh) pl.2)) placed;
  inv_sorted : StronglySorted Z.gt (reverse (placed.*1));
  inv_length : length (windows p) = length ws0;
  inv_todo : forall j win, index ws0 j = Some win ->
    index (windows p) j
      = Some (mkSchedWindow (Allocated win) (Todo win ++ placedOn sh j placed));
  inv_counters : forall wid,
    assigned (workerAssigned p) wid = placedWith sh wid placed
}.

End Notions.

Section Choice.

Context {WorkerResources Resources ActiveResources : Type}.
Variable zeroWorkerResources : WorkerResources.
Variable ResourceSpec : WorkerResources -> Z -> string -> Resources.
Variable CanHandleRequest :
  ActiveResources -> Resources -> WorkerID -> string -> WorkerInfo WorkerResources -> bool.

(** A feasible candidate as the claims word it: the admission test of the
    window accepts the request derived from the resource information of the
    worker that owns the window. *)
Definition feasible (sh : Scheduler WorkerResources)
    (windows : list (SchedWindow ActiveResources)) (task : WorkerRequest) (wnd : Z) : bool :=
  match index (OpenWindows sh) wnd, index windows wnd with
  | Some ow, Some win =>
      match Workers sh !! Worker ow with
      | Some h =>
          CanHandleRequest (Allocated win)
            (ResourceSpec (WResources (Info h)) (ProofType task) (TaskType task))
            (Worker ow) "schedAssign" (Info h)
      | None => false
      end
  | _, _ => false
  end.

Variable sh : Scheduler WorkerResources.
Variable acceptableWindows : list (list Z).
Variable ws0 : list (SchedWindow ActiveResources).

(** The pass, started on the windows [ws0], reaches the queue position [n],
    and the scan of the acceptable windows of the task at [n] ends with the
    selection [sel]. *)
Definition selectedAt (n : Z) (sel : selection WorkerResources) : Prop :=
  exists p task acceptable,
    assignTasks zeroWorkerResources ResourceSpec CanHandleRequest sh acceptableWindows
      (initialPass ws0) (seqZ 0 n) = Some p
    /\ index (SchedQueue sh) n = Some task
    /\ index acceptableWindows (IndexHeap task) = Some acceptable
    /\ scanWindows ResourceSpec CanHandleRequest sh (windows p) (workerAssigned p) task
         (noSelection zeroWorkerResources) acceptable = Some sel.

(** The placement [pl] is the choice of the scan: for the task at [pl.1] the
    scan ended with the window [pl.2] in [selectedWindow] and the owner of
    that window in [bestWid]. *)
Definition chosen (pl : Z * Z) : Prop :=
  exists sel ow,
    selectedAt pl.1 sel
    /\ selectedWindow sel = pl.2
    /\ index (OpenWindows sh) pl.2 = Some ow
    /\ bestWid sel = Worker ow.

(** For the task at [n] the scan ended without a window. *)
Definition passedOver (n : Z) : Prop :=
  exists sel, selectedAt n sel /\ selectedWindow sel < 0.

End Choice.

End AssignerNotions.
(** ** Notions used to state what the poller keeps *)

Module RunNotions.
Import lpseal PollerNotions.

(** A column that is only ever filled in: once it holds a value it keeps
    that value. *)
Definition kept {A} (o o' : option A) : Prop :=
  forall a, o = Some a -> o' = Some a.

(** A flag that is only ever raised. *)
Definition raised (b b' : bool) : Prop := b = true -> b' = true.

(** The task-id columns of a row. *)
Definition taskIds (r : row) : list (option Z) :=
  [TaskSDR (cols r); TaskTreeD (cols r); TaskTreeC (cols r); TaskTreeR (cols r);
   TaskPrecommitMsg (cols r); TaskPoRep (cols r); TaskCommitMsg (cols r)].

(** The columns that no statement of the poller assigns: the flags that the
    tasks raise when they are done, the proof, the failure columns and the
    two message cids. *)
Definition notAssigned (r : row) :
    bool * bool * bool * bool * bool * bool * bool * list Z * bool * string
    * option string * option string :=
  (AfterSDR (cols r), AfterTreeD (cols r), AfterTreeC (cols r), AfterTreeR (cols r),
   AfterPrecommitMsg (cols r), AfterPoRep (cols r), AfterCommitMsg (cols r),
   PoRepProof (cols r), Failed (cols r), FailedReason (cols r),
   precommit_msg_cid r, commit_msg_cid r).

(** [r'] is [r] with some of its nulls filled in and some of its landing
    flags raised. *)
Record filled_in (r r' : row) : Prop := {
  fi_key : key r' = key r;
  fi_task_ids : Forall2 kept (taskIds r) (taskIds r');
  fi_seed : kept (SeedEpoch (cols r)) (SeedEpoch (cols r'));
  fi_precommit : raised (AfterPrecommitMsgSuccess (cols r))
                   (AfterPrecommitMsgSuccess (cols r'));
  fi_commit : raised (AfterCommitMsgSuccess (cols r)) (AfterCommitMsgSuccess (cols r'));
  fi_rest : notAssigned r' = notAssigned r
}.

(** The table went from rows to filled-in rows, and nothing else of the
    database changed. *)
Definition only_filled_in (w w' : World) : Prop :=
  rows_related filled_in w w'
  /\ message_waits (db w') = message_waits (db w)
  /\ available (db w') = available (db w).

(** A row whose key is not in [K] is left as it is. *)
Definition untouched_outside (K : Z * Z -> Prop) (r r' : row) : Prop :=
  key r' = key r /\ (~ K (key r) -> r' = r).

(** The keys of the records whose stages a tick runs: the records that the
    tick loads and that are not failed. *)
Definition live (d : DB) (k : Z * Z) : Prop :=
  exists t, In t (notFailed (polled d)) /\ task_key t = k.

(** A record that the poller is done with: it has failed, or its commit
    message has landed. *)
Definition terminal (r : row) : Prop :=
  Failed (cols r) = true \/ AfterCommitMsgSuccess (cols r) = true.

(** What the pipeline asks of a record before the task of stage [p] may be
    claimed for it: the stage is not claimed yet, and the work it builds on
    is done. *)
Definition prerequisite (p : poller) (t : pollTask) : Prop :=
  match p with
  | pollerSDR => TaskSDR t = None
  | pollerTrees =>
      AfterSDR t = true
      /\ TaskTreeD t = None /\ TaskTreeC t = None /\ TaskTreeR t = None
  | pollerPrecommitMsg =>
      AfterTreeD t = true /\ AfterTreeR t = true /\ TaskPrecommitMsg t = None
  | pollerPoRep =>
      AfterPrecommitMsgSuccess t = true /\ SeedEpoch t <> None /\ TaskPoRep t = None
  | pollerCommitMsg =>
      AfterPoRep t = true /\ PoRepProof t <> [] /\ TaskCommitMsg t = None
  end.

(** No task was registered and no task-id column was written. *)
Definition nothing_registered (w w' : World) : Prop :=
  next_task w' = next_task w
  /\ rows_related (fun r r' => key r' = key r /\ taskIds r' = taskIds r
                               /\ AfterCommitMsgSuccess (cols r')
                                  = AfterCommitMsgSuccess (cols r)) w w'.

(** Every chain head that is asked for is given. *)
Definition chain_answers (api : SealPollerAPI) : Prop :=
  forall n, exists h, ChainHead api n = inl h.


(** The world with one more line in the log. *)
Definition logged (msg : string) (e : error) (w : World) : World :=
  mkWorld (db w) (next_task w) (heads_read w) (trace w ++ [EvLog msg e]).

End RunNotions.

(** ** Notions used to state what a pass of the assigner keeps *)

Module SpreadNotions.
Import sectorstorage.

Section Notions.

Context {WorkerResources ActiveResources : Type}.
Variable sh : Scheduler WorkerResources.
Variable acceptableWindows : list (list Z).

(** The workers that own a window of the list [acceptable]. *)
Definition candidateWorker (acceptable : list Z) (wid : WorkerID) : Prop :=
  exists wnd ow,
    wnd ∈ acceptable /\ index (OpenWindows sh) wnd = Some ow /\ Worker ow = wid.

(** Every task among the first [queueLen] of the queue may go to the
    workers [W], and to no others. *)
Definition sameCandidates (queueLen : Z) (W : WorkerID -> Prop) : Prop :=
  forall n task acceptable,
    0 <= n < queueLen ->
    index (SchedQueue sh) n = Some task ->
    index acceptableWindows (IndexHeap task) = Some acceptable ->
    forall wid, W wid <-> candidateWorker acceptable wid.

(** The counters of any two workers of [W] differ by one at most. *)
Definition balanced (W : WorkerID -> Prop) (workerAssigned : gmap WorkerID Z) : Prop :=
  forall a b, W a -> W b -> assigned workerAssigned a <= assigned workerAssigned b + 1.

(** The indices that the scan of the queue position [n] uses are in range:
    the task is there, it has a list of acceptable windows, and every window
    of that list is an open window and a window of the pass. *)
Definition inBounds (ws : list (SchedWindow ActiveResources)) (n : Z) : Prop :=
  exists task acceptable,
    index (SchedQueue sh) n = Some task
    /\ index acceptableWindows (IndexHeap task) = Some acceptable
    /\ forall wnd, wnd ∈ acceptable ->
         is_Some (index (OpenWindows sh) wnd) /\ is_Some (index ws wnd).

(** The task [t] is one of the first [n] of the queue, and the window [j]
    is one of its acceptable windows. *)
Definition acceptedAt (n j : Z) (t : WorkerRequest) : Prop :=
  (exists i, 0 <= i < n /\ index (SchedQueue sh) i = Some t)
  /\ exists acceptable,
       index acceptableWindows (IndexHeap t) = Some acceptable /\ j ∈ acceptable.

(** Every task that the windows [ws] hold beyond those of [ws0] is on a
    window that is acceptable for it. *)
Definition acceptably (ws0 ws : list (SchedWindow ActiveResources)) (n : Z) : Prop :=
  forall j w0 win,
    index ws0 j = Some w0 -> index ws j = Some win ->
    forall t, t ∈ drop (length (Todo w0)) (Todo win) -> acceptedAt n j t.

End Notions.

(** What the pass has kept once it has handled the positions below [n]:
    its counters are balanced and, if there is a candidate worker at all, it
    has placed every task. *)
Definition evenly {ActiveResources : Type} (W : WorkerID -> Prop) (n : Z)
    (p : pass ActiveResources) : Prop :=
  balanced W (workerAssigned p) /\ ((exists wid, W wid) -> scheduled p = n).

(** The tasks that the windows [ws'] hold beyond those of [ws]. *)
Definition added {ActiveResources : Type} (ws ws' : list (SchedWindow ActiveResources))
  : list WorkerRequest :=
  concat (zip_with (fun w0 w' => drop (length (Todo w0)) (Todo w')) ws ws').

(** What the pass has kept of the tasks it has scanned, once it has handled
    the positions below [n]: each of them is either still among those that
    stay in the queue or among those added to the windows, once, and the
    number of tasks added is the count of the pass. *)
Definition conserved {WorkerResources ActiveResources : Type}
    (sh : Scheduler WorkerResources) (ws0 : list (SchedWindow ActiveResources))
    (n : Z) (p : pass ActiveResources) : Prop :=
  take (Z.to_nat n) (SchedQueue sh)
    ≡ₚ unplaced (rmQueue p) (take (Z.to_nat n) (SchedQueue sh))
       ++ added ws0 (windows p)
  /\ Z.of_nat (length (added ws0 (windows p))) = scheduled p.

End SpreadNotions.

(** ** Notions used to state what the state-root commands print *)

Module StaterootNotions.
Import stateroot.

Section Store.

Context {Cid V : Type}.
Variable ChainReadObj : Cid -> result (list Byte.byte).

(** The store after the calls of [Get] listed, in their order. *)
Fixpoint Gets (ts : trackingApiStore) (calls : list (Cid * out V)) : trackingApiStore :=
  match calls with
  | [] => ts
  | (c, o) :: rest => Gets (Get ChainReadObj ts c o).2 rest
  end.

(** The sizes of the objects that the calls listed have read; a call whose
    read fails reads nothing. *)
Definition sizesRead (calls : list (Cid * out V)) : list nat :=
  omap (fun call : Cid * out V =>
          match ChainReadObj call.1 with
          | inl obj => Some (length obj)
          | inr _ => None
          end) calls.

End Store.

(** The store as the command [init-stat] creates it. *)
Definition newStore : trackingApiStore := mkStore 0 0.

Section Commands.

Context {Address Cid TipSetKey : Type}.

(** [a] comes before [b] when it is at least as large. *)
Definition largerFirst (a b : statItem Address Cid) : Prop :=
  Size (Stat b) <= Size (Stat a).

(** What the library promises of [sort.Slice]: the items are rearranged, and
    no item is followed by one that [less] puts before it. *)
Definition sorts (sortSlice : list (statItem Address Cid) -> list (statItem Address Cid))
  : Prop :=
  forall l, sortSlice l ≡ₚ l /\ StronglySorted largerFirst (sortSlice l).

(** The items of the rows printed, address and size. *)
Definition shown (printed : list (line Address Cid)) : list (Address * Z) :=
  omap (fun l => match l with
                 | StatRow a _ size => Some (a, size)
                 | _ => None
                 end) printed.

Definition itemOf (i : statItem Address Cid) : Address * Z :=
  (Addr i, Size (Stat i)).

(** The sum of the sizes, as integers. *)
Definition sizeSum (infos : list (statItem Address Cid)) : Z :=
  foldr (fun i acc => Size (Stat i) + acc) 0 infos.

(** The rows about tipsets, with the height and the base of each. *)
Definition diffRows (printed : list (line Address Cid)) : list (Z * option Cid) :=
  omap (fun l => match l with
                 | DiffsRow height _ _ _ base => Some (height, base)
                 | _ => None
                 end) printed.

End Commands.

End StaterootNotions.

(** ** Concrete records, chains and pollers *)

Module Scenarios.
Import lpseal.

Local Open Scope string_scope.

(** The network's precommit challenge delay, in epochs. *)
Definition challengeDelay : Z := 150.

(** A sector that has just entered the pipeline. *)
Definition freshTask (sp sn : Z) : pollTask :=
  {| SpID := sp; SectorNumber := sn;
     TaskSDR := None; AfterSDR := false;
     TaskTreeD := None; AfterTreeD := false;
     TaskTreeC := None; AfterTreeC := false;
     TaskTreeR := None; AfterTreeR := false;
     TaskPrecommitMsg := None; AfterPrecommitMsg := false;
     AfterPrecommitMsgSuccess := false; SeedEpoch := None;
     TaskPoRep := None; PoRepProof := []; AfterPoRep := false;
     TaskCommitMsg := None; AfterCommitMsg := false;
     AfterCommitMsgSuccess := false;
     Failed := false; FailedReason := "" |}.

(** SDR and the trees are done; the precommit message is not claimed yet. *)
Definition treesDoneTask (sp sn : Z) : pollTask :=
  {| SpID := sp; SectorNumber := sn;
     TaskSDR := Some 11; AfterSDR := true;
     TaskTreeD := Some 12; AfterTreeD := true;
     TaskTreeC := Some 12; AfterTreeC := true;
     TaskTreeR := Some 12; AfterTreeR := true;
     TaskPrecommitMsg := None; AfterPrecommitMsg := false;
     AfterPrecommitMsgSuccess := false; SeedEpoch := None;
     TaskPoRep := None; PoRepProof := []; AfterPoRep := false;
     TaskCommitMsg := None; AfterCommitMsg := false;
     AfterCommitMsgSuccess := false;
     Failed := false; FailedReason := "" |}.

(** The precommit message was sent; its landing is not recorded yet. *)
Definition precommitSentTask (sp sn : Z) : pollTask :=
  {| SpID := sp; SectorNumber := sn;
     TaskSDR := Some 11; AfterSDR := true;
     TaskTreeD := Some 12; AfterTreeD := true;
     TaskTreeC := Some 12; AfterTreeC := true;
     TaskTreeR := Some 12; AfterTreeR := true;
     TaskPrecommitMsg := Some 13; AfterPrecommitMsg := true;
     AfterPrecommitMsgSuccess := false; SeedEpoch := None;
     TaskPoRep := None; PoRepProof := []; AfterPoRep := false;
     TaskCommitMsg := None; AfterCommitMsg := false;
     AfterCommitMsgSuccess := false;
     Failed := false; FailedReason := "" |}.

(** The precommit message has landed with the given seed epoch. *)
Definition seededTask (sp sn seed : Z) : pollTask :=
  {| SpID := sp; SectorNumber := sn;
     TaskSDR := Some 11; AfterSDR := true;
     TaskTreeD := Some 12; AfterTreeD := true;
     TaskTreeC := Some 12; AfterTreeC := true;
     TaskTreeR := Some 12; AfterTreeR := true;
     TaskPrecommitMsg := Some 13; AfterPrecommitMsg := true;
     AfterPrecommitMsgSuccess := true; SeedEpoch := Some seed;
     TaskPoRep := None; PoRepProof := []; AfterPoRep := false;
     TaskCommitMsg := None; AfterCommitMsg := false;
     AfterCommitMsgSuccess := false;
     Failed := false; FailedReason := "" |}.

(** The commit message task is claimed; [done] tells whether it has run. *)
Definition commitClaimedTask (sp sn : Z) (done : bool) : pollTask :=
  {| SpID := sp; SectorNumber := sn;
     TaskSDR := Some 11; AfterSDR := true;
     TaskTreeD := Some 12; AfterTreeD := true;
     TaskTreeC := Some 12; AfterTreeC := true;
     TaskTreeR := Some 12; AfterTreeR := true;
     TaskPrecommitMsg := Some 13; AfterPrecommitMsg := true;
     AfterPrecommitMsgSuccess := true; SeedEpoch := Some 240;
     TaskPoRep := Some 14; PoRepProof := [1; 2; 3]; AfterPoRep := true;
     TaskCommitMsg := Some 15; AfterCommitMsg := done;
     AfterCommitMsgSuccess := false;
     Failed := false; FailedReason := "" |}.

Definition executedAt (cid : string) (epoch : Z) : message_wait :=
  mkWait cid (Some (mkExecResult "bafy-tipset" epoch cid 0 1000)).

(** A chain whose head stays at [height], with every sector precommitted at
    epoch 90 and present on chain. *)
Definition steadyChain (height : Z) : SealPollerAPI :=
  mkAPI (fun _ _ => inl (Some (mkPreCommitInfo 90)))
        (fun _ _ => inl (Some mkSectorInfo))
        (fun _ => inl height).

(** A chain whose head is at 5 when first asked and at 20 afterwards. *)
Definition movingChain : SealPollerAPI :=
  mkAPI (fun _ _ => inl (Some (mkPreCommitInfo 90)))
        (fun _ _ => inl (Some mkSectorInfo))
        (fun n => match n with O => inl 5 | S _ => inl 20 end).

(** A steady chain on which no sector is found. *)
Definition noSectorChain (height : Z) : SealPollerAPI :=
  mkAPI (fun _ _ => inl (Some (mkPreCommitInfo 90)))
        (fun _ _ => inl None)
        (fun _ => inl height).

Definition allSet (api : SealPollerAPI) : SealPoller := mkSealPoller api (fun _ => true).
Definition noneSet (api : SealPollerAPI) : SealPoller := mkSealPoller api (fun _ => false).

Definition world (rows : list row) (waits : list message_wait) : World :=
  mkWorld (mkDB rows waits true) 100 0 [].

(** One sector whose precommit message was executed at epoch 100, long before
    the head at 1000. *)
Definition landingWorld : World :=
  world [mkRow (precommitSentTask 1000 7) (Some "bafy-precommit-7") None None None]
        [executedAt "bafy-precommit-7" 100].

(** [landingWorld] after one tick on a chain at height 1000: the landing is
    recorded with the seed epoch 90 + 150. *)
Definition landedTask : pollTask :=
  {| SpID := 1000; SectorNumber := 7;
     TaskSDR := Some 11; AfterSDR := true;
     TaskTreeD := Some 12; AfterTreeD := true;
     TaskTreeC := Some 12; AfterTreeC := true;
     TaskTreeR := Some 12; AfterTreeR := true;
     TaskPrecommitMsg := Some 13; AfterPrecommitMsg := true;
     AfterPrecommitMsgSuccess := true; SeedEpoch := Some 240;
     TaskPoRep := None; PoRepProof := []; AfterPoRep := false;
     TaskCommitMsg := None; AfterCommitMsg := false;
     AfterCommitMsgSuccess := false;
     Failed := false; FailedReason := "" |}.

Definition landedWorld : World :=
  mkWorld
    (mkDB [mkRow landedTask (Some "bafy-precommit-7") (Some "bafy-tipset") None None]
       [executedAt "bafy-precommit-7" 100] true)
    100 1 [EvChainHead 0].

(** Two sectors that wait for the same seed epoch 10. *)
Definition twoSeededWorld : World :=
  world [mkRow (seededTask 1000 1 10) (Some "bafy-precommit-1") (Some "bafy-tipset") None None;
         mkRow (seededTask 1000 2 10) (Some "bafy-precommit-2") (Some "bafy-tipset") None None]
        [].

(** One sector whose seed epoch is within three epochs of the largest
    [int64]. *)
Definition lateSeed : Z := Int64.MaxInt64 - 2.

Definition lateSeedWorld : World :=
  world [mkRow (seededTask 1000 7 lateSeed) (Some "bafy-precommit-7") (Some "bafy-tipset")
           None None]
        [].

(** One sector that is ready for its precommit message. *)
Definition treesDoneWorld : World :=
  world [mkRow (treesDoneTask 1000 7) None None None None] [].


(** One sector whose commit message task has run and whose message was
    executed. *)
Definition commitSentWorld : World :=
  world [mkRow (commitClaimedTask 1000 7 true) (Some "bafy-precommit-7") (Some "bafy-tipset")
           (Some "bafy-commit-7") None]
        [executedAt "bafy-commit-7" 300].

End Scenarios.

(** ** Concrete fleets *)

Module Fleets.
Import sectorstorage.

Local Open Scope string_scope.

(** A memory model of the resources: a worker has so much physical memory, a
    task needs 8 units whatever its kind, a window records the memory in use,
    and a window admits a request that fits into what the worker has left. *)
Definition memorySpec (r : Z) (proofType : Z) (taskType : string) : Z := 8.

Definition memoryAdmits (used need : Z) (wid : WorkerID) (caller : string)
    (info : WorkerInfo Z) : bool :=
  IgnoreResources info || (used + need <=? WResources info)%Z.

(** A slot model: a window records its free slots, a task needs one, and the
    admission test does not look at the worker. *)
Definition slotSpec (r : unit) (proofType : Z) (taskType : string) : Z := 1.

Definition slotAdmits (free need : Z) (wid : WorkerID) (caller : string)
    (info : WorkerInfo unit) : bool :=
  (need <=? free)%Z.

(** A model in which the resources of a worker say how much memory it has
    and how much a task needs on it; the zero value has no memory and asks
    for none.  A window admits a request that fits into the memory of the
    worker information it is given. *)
Definition ownSpec (r : Z * Z) (proofType : Z) (taskType : string) : Z := r.2.

Definition ownAdmits (used need : Z) (wid : WorkerID) (caller : string)
    (info : WorkerInfo (Z * Z)) : bool :=
  (used + need <=? (WResources info).1)%Z.

Definition worker {R} (host : string) (r : R) : WorkerHandle R :=
  mkWorkerHandle (mkWorkerInfo host false r).

Definition precommit1 (sector idx : Z) : WorkerRequest :=
  mkRequest sector 8 "seal/v0/precommit/1" idx.

(** One worker with 64 units of memory, one empty window on it, one task that
    may go to that window. *)
Definition oneWorker : Scheduler Z :=
  mkScheduler [precommit1 1 0] [mkWindowRequest 1%N]
    (<[1%N := worker "alpha" 64]> ∅).

Definition oneEmptyWindow : list (SchedWindow Z) :=
  [mkSchedWindow 0 []].

(** Worker beta has 4 units of memory and worker alpha has 64; a task needs
    8 on either.  Window 0 is on beta and window 1 on alpha, both are empty,
    and one task waits that may go to either. *)
Definition twoWorkers : Scheduler (Z * Z) :=
  mkScheduler [precommit1 1 0] [mkWindowRequest 2%N; mkWindowRequest 1%N]
    (<[1%N := worker "alpha" (64, 8)]> (<[2%N := worker "beta" (4, 8)]> ∅)).

Definition twoEmptyWindows : list (SchedWindow Z) :=
  [mkSchedWindow 0 []; mkSchedWindow 0 []].

(** Workers 1, 1 and 2 own the windows 0, 1 and 2; three tasks wait, the
    first two may go anywhere, the third only to a window that does not
    exist for it. *)
Definition threeWindows : Scheduler unit :=
  mkScheduler [precommit1 1 0; precommit1 2 1; precommit1 3 2]
    [mkWindowRequest 1%N; mkWindowRequest 1%N; mkWindowRequest 2%N]
    (<[1%N := worker "alpha" tt]> (<[2%N := worker "beta" tt]> ∅)).

Definition threeFreeWindows : list (SchedWindow Z) :=
  [mkSchedWindow 1 []; mkSchedWindow 1 []; mkSchedWindow 1 []].

Definition anyOfThree : list (list Z) := [[0; 1; 2]; [0; 1; 2]; []].

(** The pass over [threeWindows] when it has handled the first task, and when
    it has scanned the whole queue. *)
Definition afterFirstTask : pass Z :=
  mkPass 1 [0] (<[1%N := 1]> ∅)
    [mkSchedWindow 1 [precommit1 1 0]; mkSchedWindow 1 []; mkSchedWindow 1 []].

Definition afterScan : pass Z :=
  mkPass 2 [0; 1] (<[2%N := 1]> (<[1%N := 1]> ∅))
    [mkSchedWindow 1 [precommit1 1 0]; mkSchedWindow 1 [];
     mkSchedWindow 1 [precommit1 2 1]].

(** The second task is placed on window 2, the first window of a worker that
    has nothing yet. *)
Definition secondSelection : selection unit :=
  mkSelection 2 (mkWorkerInfo "beta" false tt) 2%N 0.

End Fleets.

(** ** More records and worlds *)

Module RunScenarios.
Import lpseal Scenarios.

Local Open Scope string_scope.

(** A sector whose SDR task has failed for good. *)
Definition failedTask (sp sn : Z) : pollTask :=
  {| SpID := sp; SectorNumber := sn;
     TaskSDR := Some 11; AfterSDR := false;
     TaskTreeD := None; AfterTreeD := false;
     TaskTreeC := None; AfterTreeC := false;
     TaskTreeR := None; AfterTreeR := false;
     TaskPrecommitMsg := None; AfterPrecommitMsg := false;
     AfterPrecommitMsgSuccess := false; SeedEpoch := None;
     TaskPoRep := None; PoRepProof := []; AfterPoRep := false;
     TaskCommitMsg := None; AfterCommitMsg := false;
     AfterCommitMsgSuccess := false;
     Failed := true; FailedReason := "sdr: out of space" |}.

(** A sector whose commit message has landed. *)
Definition finishedTask (sp sn : Z) : pollTask :=
  {| SpID := sp; SectorNumber := sn;
     TaskSDR := Some 11; AfterSDR := true;
     TaskTreeD := Some 12; AfterTreeD := true;
     TaskTreeC := Some 12; AfterTreeC := true;
     TaskTreeR := Some 12; AfterTreeR := true;
     TaskPrecommitMsg := Some 13; AfterPrecommitMsg := true;
     AfterPrecommitMsgSuccess := true; SeedEpoch := Some 240;
     TaskPoRep := Some 14; PoRepProof := [1; 2; 3]; AfterPoRep := true;
     TaskCommitMsg := Some 15; AfterCommitMsg := true;
     AfterCommitMsgSuccess := true;
     Failed := false; FailedReason := "" |}.

(** A failed sector, a finished sector and a sector that has just entered
    the pipeline. *)
Definition mixedWorld : World :=
  world [mkRow (failedTask 1000 1) None None None None;
         mkRow (finishedTask 1000 2) (Some "bafy-precommit-2") (Some "bafy-tipset")
           (Some "bafy-commit-2") (Some "bafy-tipset");
         mkRow (freshTask 1000 3) None None None None]
        [].

End RunScenarios.

(** ** More fleets *)

Module MoreFleets.
Import sectorstorage Fleets.

Local Open Scope string_scope.

(** One worker with one window that has a single free slot, and two tasks
    that may go to that window. *)
Definition oneSlot : Scheduler unit :=
  mkScheduler [precommit1 1 0; precommit1 2 0] [mkWindowRequest 1%N]
    (<[1%N := worker "alpha" tt]> ∅).

Definition oneFreeSlot : list (SchedWindow Z) := [mkSchedWindow 1 []].

(** An admission test that accepts whatever it is asked. *)
Definition admitsAll (free need : Z) (wid : WorkerID) (caller : string)
    (info : WorkerInfo unit) : bool := true.

(** Workers 1, 2 and 3 own one window each; five tasks wait, and each of
    them may go to any of the three windows. *)
Definition threeWorkers : Scheduler unit :=
  mkScheduler
    [precommit1 1 0; precommit1 2 0; precommit1 3 0; precommit1 4 0; precommit1 5 0]
    [mkWindowRequest 1%N; mkWindowRequest 2%N; mkWindowRequest 3%N]
    (<[1%N := worker "alpha" tt]>
       (<[2%N := worker "beta" tt]> (<[3%N := worker "gamma" tt]> ∅))).

Definition threeEmptyWindows : list (SchedWindow Z) :=
  [mkSchedWindow 0 []; mkSchedWindow 0 []; mkSchedWindow 0 []].

Definition anyWindow : list (list Z) := [[0; 1; 2]].

Definition isOneOfThree (wid : WorkerID) : Prop :=
  wid = 1%N \/ wid = 2%N \/ wid = 3%N.

(** The pass over [threeWorkers] when it has scanned the five tasks. *)
Definition afterFive : pass Z :=
  mkPass 5 [0; 1; 2; 3; 4] (<[1%N := 2]> (<[2%N := 2]> (<[3%N := 1]> ∅)))
    [mkSchedWindow 0 [precommit1 1 0; precommit1 4 0];
     mkSchedWindow 0 [precommit1 2 0; precommit1 5 0];
     mkSchedWindow 0 [precommit1 3 0]].

(** The pass over [oneSlot] when it has placed the first task. *)
Definition afterFirstSlot : pass Z :=
  mkPass 1 [0] (<[1%N := 1]> ∅) [mkSchedWindow 1 [precommit1 1 0]].

End MoreFleets.

(** ** A node with three actors and a chain of three tipsets *)

Module Nodes.
Import stateroot StaterootNotions.

Local Open Scope string_scope.

Definition genesis : TipSet string (list string) :=
  mkTipSet 0 ["genesis"] [mkBlockHeader "state-0" []] "state-0".

Definition tipset1 : TipSet string (list string) :=
  mkTipSet 1 ["block-1"] [mkBlockHeader "state-1" ["genesis"]] "state-1".

Definition tipset2 : TipSet string (list string) :=
  mkTipSet 2 ["block-2"] [mkBlockHeader "state-2" ["block-1"]] "state-2".

(** The actors f01, f02 and f03, whose states have the sizes 300, 900 and
    500; the whole state tree has the size 2000. *)
Definition sizes : list (string * ObjStat) :=
  [("head-f01", mkObjStat 300 3); ("head-f02", mkObjStat 900 9);
   ("head-f03", mkObjStat 500 5);
   ("state-2", mkObjStat 2000 20); ("state-1", mkObjStat 1500 15)].

Definition lookupBy {A} (k : string) (l : list (string * A)) : result A :=
  match List.find (fun kv => String.eqb k kv.1) l with
  | Some kv => inl kv.2
  | None => inr "not found"
  end.

Definition node : FullNode string string (list string) :=
  mkFullNode
    (fun _ => inl ["f01"; "f02"; "f03"])
    (fun a _ => inl (mkActor "code-account" ("head-" ++ a)))
    (fun obj _ => lookupBy obj sizes)
    (fun tsk =>
       match tsk with
       | [c] => lookupBy c [("genesis", genesis); ("block-1", tipset1)]
       | _ => inr "not found"
       end).

(** The node is reached, and the tipset of the command line is [tipset2]. *)
Definition connect : result (FullNode string string (list string)) := inl node.

Definition load (api : FullNode string string (list string))
  : result (TipSet string (list string)) := inl tipset2.

Definition parse (s : string) : result string :=
  if String.eqb s "" then inr "invalid address" else inl s.

Definition digest (c : string) : result string := inl c.

#[local] Instance largerFirst_dec : RelDecision (@largerFirst string string) :=
  fun a b => decide (Size (Stat b) <= Size (Stat a)).

(** One of the orders that [sort.Slice] may produce. *)
Definition sortBySize : list (statItem string string) -> list (statItem string string) :=
  merge_sort largerFirst.

(** What [stateroot stat] prints on that node, without arguments and with
    the argument f03. *)
Definition statOutput : list (line string string) :=
  [TotalStateTreeSize 2000; SumOfActorStateSize 1700; StateTreeStructureSize 300;
   StatHeader;
   StatRow "f02" "code-account" 900; StatRow "f03" "code-account" 500;
   StatRow "f01" "code-account" 300].

Definition statOutputOfOne : list (line string string) :=
  [TotalStateTreeSize 2000; SumOfActorStateSize 500; StateTreeStructureSize 1500;
   StatHeader; StatRow "f03" "code-account" 500].

(** What [stateroot diffs] prints on that node from [tipset2]. *)
Definition diffsOutput : list (line string string) :=
  [DiffsHeader; DiffsRow 1 2000 20 "state-2" None; DiffsRow 0 1500 15 "state-1" None].

End Nodes.

(** * Properties *)

(** ** Fixed-width arithmetic *)

Module Int64Facts.
Import Int64.

Lemma wrap_in_range z : in_range z -> wrap z = z.
Proof.
  unfold in_range, wrap, MinInt64, MaxInt64. intros H.
  rewrite Z.mod_small; lia.
Qed.

Lemma wrap_range z : in_range (wrap z).
Proof.
  unfold in_range, wrap, MinInt64, MaxInt64.
  pose proof (Z.mod_pos_bound (z + 2 ^ 63) (2 ^ 64) ltac:(lia)). lia.
Qed.

Lemma add_no_overflow a b : in_range (a + b) -> add a b = a + b.
Proof. apply wrap_in_range. Qed.

Lemma add_range a b : in_range (add a b).
Proof. apply wrap_range. Qed.

End Int64Facts.

(** ** The poller *)

Module PollerFacts.
Import lpseal PollerNotions.

(** *** Computations *)

Lemma bind_Ret {A B} (m : M A) (k : A -> M B) w b w2 :
  bind m k w = Ret (b, w2) ->
  exists a w1, m w = Ret (a, w1) /\ k a w1 = Ret (b, w2).
Proof.
  unfold bind. destruct (m w) as [[a w1]|]; [eauto | discriminate].
Qed.

Lemma bind_Blocked_l {A B} (m : M A) (k : A -> M B) w w1 :
  m w = Blocked w1 -> bind m k w = Blocked w1.
Proof. unfold bind. intros ->. reflexivity. Qed.

Lemma bind_Ret_l {A B} (m : M A) (k : A -> M B) w a w1 :
  m w = Ret (a, w1) -> bind m k w = k a w1.
Proof. unfold bind. intros ->. reflexivity. Qed.

(** *** Keys and null tests *)

Lemma is_key_true sp sn r :
  is_key sp sn r = true <-> key r = (sp, sn).
Proof.
  unfold is_key, key. rewrite andb_true_iff, !Z.eqb_eq.
  split; [intros [-> ->]; reflexivity | intros [= -> ->]; auto].
Qed.

Lemma is_key_task r : is_key (SpID (cols r)) (SectorNumber (cols r)) r = true.
Proof. apply is_key_true. reflexivity. Qed.

Lemma is_null_true {A} (o : option A) : is_null o = true <-> o = None.
Proof. destruct o; simpl; split; congruence. Qed.

Lemma is_null_false {A} (o : option A) : is_null o = false <-> o <> None.
Proof. destruct o; simpl; split; congruence. Qed.

(** *** Statements *)

Lemma Exec_available cond set d :
  available d = true ->
  Exec cond set d =
    (inl (matching cond (sectors_sdr_pipeline d)),
     mkDB (updated cond set (sectors_sdr_pipeline d)) (message_waits d) true).
Proof. unfold Exec, sql_update. intros ->. reflexivity. Qed.

Lemma Exec_unavailable cond set d :
  available d = false -> Exec cond set d = (inr ErrDB, d).
Proof. unfold Exec. intros ->. reflexivity. Qed.

Lemma claim_available cond set id tx :
  available tx = true ->
  claim cond set id tx =
    (if matching cond (sectors_sdr_pipeline tx) =? 1
     then (true, None)
     else (false, Some (ErrRows (matching cond (sectors_sdr_pipeline tx)))),
     mkDB (updated cond (set id) (sectors_sdr_pipeline tx)) (message_waits tx) true).
Proof.
  intros Ha. unfold claim. rewrite Exec_available by assumption.
  destruct (_ =? 1); reflexivity.
Qed.

Lemma claim_unavailable cond set id tx :
  available tx = false ->
  claim cond set id tx =
    ((false, Some (ErrWrap "update sectors_sdr_pipeline" ErrDB)), tx).
Proof.
  intros Ha. unfold claim. rewrite Exec_unavailable by assumption. reflexivity.
Qed.

Lemma stageClaim_unfold p task :
  stageClaim p task = claim (stageWhere p task) (stageSet p).
Proof. destruct p; reflexivity. Qed.

Lemma stageWhere_key p task r :
  stageWhere p task r = true -> key r = task_key task.
Proof.
  intros H. apply is_key_true.
  destruct p; simpl in H;
    unfold where_sdr, where_trees, where_precommit_msg, where_porep, where_commit_msg in H;
    rewrite !andb_true_iff in H; tauto.
Qed.

Lemma stageWhere_null p task r :
  stageWhere p task r = true -> Forall (fun c => c = None) (taskIdColumns p r).
Proof.
  intros H.
  destruct p; simpl in H |- *;
    unfold where_sdr, where_trees, where_precommit_msg, where_porep, where_commit_msg in H;
    rewrite !andb_true_iff in H;
    repeat constructor; apply is_null_true; tauto.
Qed.

Lemma stageSet_columns p id r :
  Forall (fun c => c = Some id) (taskIdColumns p (stageSet p id r)).
Proof. destruct p; simpl; repeat constructor. Qed.

Lemma stageSet_key p id r : key (stageSet p id r) = key r.
Proof. destruct p; reflexivity. Qed.

(** The registration of a claim: what [AddTask] leaves behind. *)
Lemma AddTask_claim_available cond set w :
  available (db w) = true ->
  AddTask (claim cond set) w =
    if matching cond (sectors_sdr_pipeline (db w)) =? 1
    then Ret (tt, mkWorld
                    (mkDB (updated cond (set (next_task w)) (sectors_sdr_pipeline (db w)))
                       (message_waits (db w)) true)
                    (next_task w + 1) (heads_read w)
                    (trace w ++ [EvRegistered (next_task w)]))
    else Ret (tt, mkWorld (db w) (next_task w + 1) (heads_read w)
                    (trace w ++ [EvRolledBack (next_task w)
                       (Some (ErrRows (matching cond (sectors_sdr_pipeline (db w)))))])).
Proof.
  intros Ha. unfold AddTask. rewrite claim_available by assumption.
  destruct (_ =? 1); reflexivity.
Qed.

Lemma AddTask_claim_unavailable cond set w :
  available (db w) = false ->
  AddTask (claim cond set) w =
    Ret (tt, mkWorld (db w) (next_task w + 1) (heads_read w)
               (trace w ++ [EvRolledBack (next_task w)
                  (Some (ErrWrap "update sectors_sdr_pipeline" ErrDB))])).
Proof.
  intros Ha. unfold AddTask. rewrite claim_unavailable by assumption. reflexivity.
Qed.

(** The five [pollStart] functions: each tests its readiness and registers
    the claim of its stage. *)
Lemma pollStart_unfold s task ts :
  pollStartSDR s task
    = (if readySDR s task
       then register s pollerSDR task (stageClaim pollerSDR task) else ret tt)
  /\ pollStartSDRTrees s task
    = (if readySDRTrees s task
       then register s pollerTrees task (stageClaim pollerTrees task) else ret tt)
  /\ pollStartPrecommitMsg s task
    = (if readyPrecommitMsg task
       then register s pollerPrecommitMsg task (stageClaim pollerPrecommitMsg task)
       else ret tt)
  /\ pollStartPoRep s task ts
    = (if readyPoRep s task ts
       then register s pollerPoRep task (stageClaim pollerPoRep task) else ret tt)
  /\ pollStartCommitMsg s task
    = (if readyCommitMsg s task
       then register s pollerCommitMsg task (stageClaim pollerCommitMsg task) else ret tt).
Proof. repeat split; reflexivity. Qed.

(** C1. Each of the five claims (SDR, tree group, precommit message, PoRep,
    commit message) is one conditional UPDATE: the rows it rewrites are rows
    of the polled record whose task-id column of the stage is null, and in
    them that column becomes the new id.  When the number of rows updated is
    not exactly one, the closure answers [shouldCommit = false] with an error,
    and the registration run by the handle keeps nothing of the update. *)
Theorem claim_is_conditional_update (p : poller) (task : pollTask) (id : Z) (tx : DB) :
  (forall r, stageWhere p task r = true ->
             key r = task_key task /\ Forall (fun c => c = None) (taskIdColumns p r))
  /\ (forall r, Forall (fun c => c = Some id) (taskIdColumns p (stageSet p id r)))
  /\ (available tx = true ->
      sectors_sdr_pipeline (stageClaim p task id tx).2 =
        List.map (fun r => if stageWhere p task r then stageSet p id r else r)
          (sectors_sdr_pipeline tx))
  /\ (available tx = true -> rowsAffected p task tx = 1 ->
      (stageClaim p task id tx).1 = (true, None))
  /\ (available tx = true -> rowsAffected p task tx <> 1 ->
      (stageClaim p task id tx).1 = (false, Some (ErrRows (rowsAffected p task tx))))
  /\ (rowsAffected p task tx <> 1 ->
      forall w, db w = tx -> next_task w = id ->
        exists w' e, AddTask (stageClaim p task) w = Ret (tt, w')
                     /\ db w' = db w
                     /\ newEvents w w' = [EvRolledBack id (Some e)]).
Proof.
  rewrite stageClaim_unfold. unfold rowsAffected.
  split; [| split; [| split; [| split; [| split]]]].
  - intros r H. split; [eapply stageWhere_key | eapply stageWhere_null]; exact H.
  - intros r. apply stageSet_columns.
  - intros Ha. rewrite claim_available by assumption. reflexivity.
  - intros Ha Hn. rewrite claim_available by assumption.
    unfold matching. rewrite Hn. reflexivity.
  - intros Ha Hn. rewrite claim_available by assumption.
    unfold matching. apply Z.eqb_neq in Hn. rewrite Hn. reflexivity.
  - intros Hn w <- <-. unfold newEvents.
    destruct (available (db w)) eqn:Ha.
    + rewrite AddTask_claim_available by assumption.
      unfold matching. apply Z.eqb_neq in Hn. rewrite Hn.
      eexists _, _. split; [reflexivity |]. split; [reflexivity |].
      simpl. rewrite drop_app_length. reflexivity.
    + rewrite AddTask_claim_unavailable by assumption.
      eexists _, _. split; [reflexivity |]. split; [reflexivity |].
      simpl. rewrite drop_app_length. reflexivity.
Qed.

(** *** Stage 4 *)

Lemma readyPoRep_true s task ts :
  readyPoRep s task ts = true <->
  IsSet s pollerPoRep = true /\ AfterPrecommitMsgSuccess task = true
  /\ TaskPoRep task = None
  /\ exists seed, SeedEpoch task = Some seed
                  /\ Int64.add seed seedEpochConfidence <= ts.
Proof.
  unfold readyPoRep, seed_reached.
  rewrite !andb_true_iff, is_null_true.
  destruct (SeedEpoch task) as [seed|]; simpl.
  - rewrite Z.leb_le. split.
    + intros [[[[? ?] _] ?] ?]. eauto 10.
    + intros (? & ? & ? & seed' & [= <-] & ?). auto.
  - split.
    + intros [[[[? ?] ?] ?] ?]. discriminate.
    + intros (? & ? & ? & seed' & [=] & ?).
Qed.

(** C3, as the code has it.  The margin is three epochs, and the code adds it
    to the seed epoch on [int64].  For a record whose seed epoch, if it has
    one, leaves room for the margin, stage 4 is ready exactly when its handle
    is set, message A has landed, a seed epoch is recorded, no PoRep task is
    claimed and the observed height has reached the seed epoch plus the
    margin; at every height below that bound stage 4 is not ready and
    [pollStartPoRep] makes no claim, it leaves the world as it is. *)
Theorem PoRep_waits_for_seed_epoch (s : SealPoller) (task : pollTask) (ts : Z) :
  seed_fits task ->
  seedEpochConfidence = 3
  /\ (readyPoRep s task ts = true <->
      IsSet s pollerPoRep = true /\ AfterPrecommitMsgSuccess task = true
      /\ TaskPoRep task = None
      /\ exists seed, SeedEpoch task = Some seed /\ seed + seedEpochConfidence <= ts)
  /\ (forall seed, SeedEpoch task = Some seed ->
        ts < seed + seedEpochConfidence ->
        readyPoRep s task ts = false
        /\ forall w, pollStartPoRep s task ts w = Ret (tt, w)).
Proof.
  intros Hfits.
  assert (Hsum : forall seed, SeedEpoch task = Some seed ->
            Int64.add seed seedEpochConfidence = seed + seedEpochConfidence).
  { intros seed Hseed. apply Int64Facts.add_no_overflow, Hfits, Hseed. }
  split; [reflexivity |]. split.
  - rewrite readyPoRep_true. split.
    + intros (Hset & Hland & Hnull & seed & Hseed & Hle).
      rewrite (Hsum seed Hseed) in Hle. eauto 10.
    + intros (Hset & Hland & Hnull & seed & Hseed & Hle).
      rewrite <- (Hsum seed Hseed) in Hle. eauto 10.
  - intros seed Hseed Hlt.
    assert (Hr : readyPoRep s task ts = false).
    { destruct (readyPoRep s task ts) eqn:E; [| reflexivity].
      apply readyPoRep_true in E.
      destruct E as (_ & _ & _ & seed' & Hs & Hle).
      rewrite Hseed in Hs. injection Hs as <-.
      rewrite (Hsum seed Hseed) in Hle. lia. }
    split; [exact Hr |]. intros w. unfold pollStartPoRep. rewrite Hr. reflexivity.
Qed.

Lemma PoRep_waits_for_seed_epoch_witness :
  seed_fits (Scenarios.seededTask 1000 7 240)
  /\ (readyPoRep (Scenarios.allSet (Scenarios.steadyChain 242))
        (Scenarios.seededTask 1000 7 240) 242 = true <->
      IsSet (Scenarios.allSet (Scenarios.steadyChain 242)) pollerPoRep = true
      /\ AfterPrecommitMsgSuccess (Scenarios.seededTask 1000 7 240) = true
      /\ TaskPoRep (Scenarios.seededTask 1000 7 240) = None
      /\ exists seed, SeedEpoch (Scenarios.seededTask 1000 7 240) = Some seed
                      /\ seed + seedEpochConfidence <= 242)
  /\ readyPoRep (Scenarios.allSet (Scenarios.steadyChain 242))
       (Scenarios.seededTask 1000 7 240) 242 = false.
Proof.
  assert (H : seed_fits (Scenarios.seededTask 1000 7 240)).
  { intros seed Hseed. simpl in Hseed. injection Hseed as <-.
    unfold Int64.in_range. vm_compute. split; discriminate. }
  pose proof (PoRep_waits_for_seed_epoch (Scenarios.allSet (Scenarios.steadyChain 242))
                (Scenarios.seededTask 1000 7 240) 242 H) as (_ & Hiff & Hlow).
  split; [exact H |]. split; [exact Hiff |].
  apply (Hlow 240 eq_refl). vm_compute. reflexivity.
Defined.

(** C3 fails for a seed epoch within three epochs of the largest [int64]: the
    sum on [int64] wraps around to the least [int64], so stage 4 is ready at
    height 0, far below the seed epoch plus the margin, and the tick claims
    PoRep for the sector. *)
Lemma PoRep_ready_before_late_seed_counterexample :
  ~ waits_for_margin (Scenarios.allSet (Scenarios.steadyChain 0))
      (Scenarios.seededTask 1000 7 Scenarios.lateSeed)
  /\ 0 < Scenarios.lateSeed + seedEpochConfidence
  /\ Int64.add Scenarios.lateSeed seedEpochConfidence = Int64.MinInt64
  /\ newEvents Scenarios.lateSeedWorld
       (final (poll Scenarios.challengeDelay (Scenarios.allSet (Scenarios.steadyChain 0))
                 Scenarios.lateSeedWorld))
     = [EvChainHead 0; EvClaim pollerPoRep 1000 7; EvRegistered 100].
Proof.
  split; [| split; [vm_compute; reflexivity | split; vm_compute; reflexivity]].
  intros H.
  specialize (H Scenarios.lateSeed 0 eq_refl ltac:(vm_compute; reflexivity)).
  vm_compute in H. discriminate H.
Qed.

(** *** What every tick preserves *)

Section Preorder.

Variable R : World -> World -> Prop.
Hypothesis R_refl : forall w, R w w.
Hypothesis R_trans : forall a b c, R a b -> R b c -> R a c.

Lemma preserves_ret {A} (a : A) : preserves R (ret a).
Proof using R_refl. intros w. apply R_refl. Qed.

Lemma preserves_bind {A B} (m : M A) (k : A -> M B) :
  preserves R m -> (forall a, preserves R (k a)) -> preserves R (bind m k).
Proof using R_trans.
  intros Hm Hk w. unfold bind. specialize (Hm w).
  destruct (m w) as [[a w1]|w1]; simpl in *; [| exact Hm].
  eapply R_trans; [exact Hm | apply Hk].
Qed.

Lemma preserves_db_Select {A} (q : DB -> result A) : preserves R (db_Select q).
Proof using R_refl. intros w. apply R_refl. Qed.

End Preorder.

(** The stages of one record: it is enough to look at the claims of the
    stages that are ready and at the landing updates of the checks that run. *)
Section Stages.

Variable delay : Z.
Variable R : World -> World -> Prop.
Variable s : SealPoller.
Variable task : pollTask.
Variable ts : Z.

Hypothesis R_refl : forall w, R w w.
Hypothesis R_trans : forall a b c, R a b -> R b c -> R a c.
Hypothesis R_log : forall msg e, preserves R (log_Errorw msg e).
Hypothesis R_register : forall p,
  stageReady s ts p task = true ->
  preserves R (register s p task (stageClaim p task)).
Hypothesis R_precommit_landed : forall h tsk,
  checksPrecommitMsgLanded task = true ->
  preserves R (db_Exec (where_precommit_landed task) (set_precommit_landed h tsk)).
Hypothesis R_commit_landed : forall tsk,
  checksCommitMsgLanded s task = true ->
  preserves R (db_Exec (where_commit_landed task) (set_commit_landed tsk)).

Lemma preserves_stage p (m : M unit) :
  m = (if stageReady s ts p task then register s p task (stageClaim p task) else ret tt) ->
  preserves R m.
Proof using R_refl R_register.
  intros ->. destruct (stageReady s ts p task) eqn:E;
    [apply R_register, E | apply preserves_ret, R_refl].
Qed.

Lemma preserves_select_landed cid : preserves R (select_landed cid task).
Proof using R_refl R_trans R_log.
  unfold select_landed.
  apply preserves_bind; [exact R_trans | apply preserves_db_Select, R_refl |].
  intros [execResult | err]; [apply preserves_ret, R_refl |].
  apply preserves_bind; [exact R_trans | apply R_log |].
  intros _. apply preserves_ret, R_refl.
Qed.

Lemma preserves_pollPrecommitMsgLanded :
  preserves R (pollPrecommitMsgLanded delay s task).
Proof using R_refl R_trans R_log R_precommit_landed.
  unfold pollPrecommitMsgLanded.
  destruct (checksPrecommitMsgLanded task) eqn:Hc; [| apply preserves_ret, R_refl].
  apply preserves_bind; [exact R_trans | apply preserves_select_landed |].
  intros [| e0 rest]; [apply preserves_ret, R_refl |].
  destruct (NewIDAddress _) as [maddr | err]; [| apply preserves_ret, R_refl].
  destruct (StateSectorPreCommitInfo _ _ _) as [[pci |] | err];
    try (apply preserves_ret, R_refl).
  apply preserves_bind; [exact R_trans | apply R_precommit_landed; reflexivity |].
  intros [n | err]; apply preserves_ret, R_refl.
Qed.

Lemma preserves_pollCommitMsgLanded :
  preserves R (pollCommitMsgLanded s task).
Proof using R_refl R_trans R_log R_commit_landed.
  unfold pollCommitMsgLanded.
  destruct (checksCommitMsgLanded s task) eqn:Hc; [| apply preserves_ret, R_refl].
  apply preserves_bind; [exact R_trans | apply preserves_select_landed |].
  intros [| e0 rest]; [apply preserves_ret, R_refl |].
  destruct (NewIDAddress _) as [maddr | err]; [| apply preserves_ret, R_refl].
  destruct (StateSectorGetInfo _ _ _) as [[si |] | err];
    try (apply preserves_ret, R_refl).
  - apply preserves_bind; [exact R_trans | apply R_commit_landed; reflexivity |].
    intros [n | err]; apply preserves_ret, R_refl.
  - apply preserves_bind; [exact R_trans | apply R_log |].
    intros _. apply preserves_ret, R_refl.
Qed.

Lemma preserves_landing (m : M (option error)) :
  preserves R m -> preserves R (e <- m ;; mustPoll e).
Proof using R_refl R_trans R_log.
  intros Hm. apply preserves_bind; [exact R_trans | exact Hm |].
  intros [e |]; simpl; [apply R_log | apply preserves_ret, R_refl].
Qed.

Lemma preserves_pollTaskStages :
  preserves R (pollTaskStages delay s task ts).
Proof using All.
  unfold pollTaskStages.
  apply preserves_bind;
    [exact R_trans | apply (preserves_stage pollerSDR); reflexivity | intros _].
  apply preserves_bind;
    [exact R_trans | apply (preserves_stage pollerTrees); reflexivity | intros _].
  apply preserves_bind;
    [exact R_trans | apply (preserves_stage pollerPrecommitMsg); reflexivity | intros _].
  apply preserves_bind;
    [exact R_trans | apply preserves_landing, preserves_pollPrecommitMsgLanded | intros _].
  apply preserves_bind;
    [exact R_trans | apply (preserves_stage pollerPoRep); reflexivity | intros _].
  apply preserves_bind;
    [exact R_trans | apply (preserves_stage pollerCommitMsg); reflexivity | intros _].
  apply preserves_landing, preserves_pollCommitMsgLanded.
Qed.

End Stages.

(** The whole tick, for relations that every statement of the poller
    respects whatever the record. *)
Section Preservation.

Variable delay : Z.
Variable R : World -> World -> Prop.

Hypothesis R_refl : forall w, R w w.
Hypothesis R_trans : forall a b c, R a b -> R b c -> R a c.
Hypothesis R_emit : forall e, preserves R (emit e).
Hypothesis R_claim : forall p task, preserves R (AddTask (stageClaim p task)).
Hypothesis R_precommit_landed : forall task h tsk,
  preserves R (db_Exec (where_precommit_landed task) (set_precommit_landed h tsk)).
Hypothesis R_commit_landed : forall task tsk,
  preserves R (db_Exec (where_commit_landed task) (set_commit_landed tsk)).

Lemma preserves_register s p task :
  preserves R (register s p task (stageClaim p task)).
Proof using R_refl R_trans R_emit R_claim.
  unfold register. apply preserves_bind; [exact R_trans | apply R_emit |]. intros _.
  intros w. unfold bind, Val. destruct (pollers s p); [apply R_claim | apply R_refl].
Qed.

Lemma preserves_stages s task ts :
  preserves R (pollTaskStages delay s task ts).
Proof using All.
  apply preserves_pollTaskStages; auto.
  - intros msg e. apply R_emit.
  - intros p _. apply preserves_register.
Qed.

Hypothesis R_head : forall api, preserves R (api_ChainHead api).

Lemma preserves_pollTasks s tasks : preserves R (pollTasks delay s tasks).
Proof using All.
  induction tasks as [| task rest IH]; simpl; [apply preserves_ret, R_refl |].
  destruct (Failed task); [exact IH |].
  apply preserves_bind; [exact R_trans | apply R_head |].
  intros [ts | err]; [| apply preserves_ret, R_refl].
  apply preserves_bind; [exact R_trans | apply preserves_stages | intros _; exact IH].
Qed.

Lemma preserves_poll s : preserves R (poll delay s).
Proof using All.
  unfold poll. apply preserves_bind; [exact R_trans | apply preserves_db_Select, R_refl |].
  intros [tasks | err]; [apply preserves_pollTasks | apply preserves_ret, R_refl].
Qed.

End Preservation.

(** *** Rows under the statements of the poller *)

Lemma final_db_Exec cond set w :
  final (db_Exec cond set w) =
    mkWorld (Exec cond set (db w)).2 (next_task w) (heads_read w) (trace w).
Proof. unfold db_Exec. destruct (Exec cond set (db w)). reflexivity. Qed.

Lemma Exec_rows cond set d :
  sectors_sdr_pipeline (Exec cond set d).2 = sectors_sdr_pipeline d
  \/ sectors_sdr_pipeline (Exec cond set d).2 = updated cond set (sectors_sdr_pipeline d).
Proof.
  destruct (available d) eqn:Ha.
  - rewrite Exec_available by assumption. right. reflexivity.
  - rewrite Exec_unavailable by assumption. left. reflexivity.
Qed.

Lemma AddTask_claim_rows cond set w :
  sectors_sdr_pipeline (db (final (AddTask (claim cond set) w)))
    = sectors_sdr_pipeline (db w)
  \/ sectors_sdr_pipeline (db (final (AddTask (claim cond set) w)))
    = updated cond (set (next_task w)) (sectors_sdr_pipeline (db w)).
Proof.
  destruct (available (db w)) eqn:Ha.
  - rewrite AddTask_claim_available by assumption.
    destruct (_ =? 1); [right | left]; reflexivity.
  - rewrite AddTask_claim_unavailable by assumption. left. reflexivity.
Qed.

Section RowRelation.

Variable delay : Z.
Variable Q : row -> row -> Prop.
Hypothesis Q_refl : forall r, Q r r.
Hypothesis Q_trans : forall a b c, Q a b -> Q b c -> Q a c.

Local Abbreviation rows_related_ := (rows_related Q).

Lemma Forall2_same (rows : list row) : Forall2 Q rows rows.
Proof using Q_refl. induction rows; constructor; auto. Qed.

Lemma Forall2_updated cond set (rows : list row) :
  (forall r, cond r = true -> Q r (set r)) -> Forall2 Q rows (updated cond set rows).
Proof using Q_refl.
  intros H. induction rows as [| r rows IH]; simpl; constructor; [| exact IH].
  destruct (cond r) eqn:E; auto.
Qed.

Lemma rows_related_refl w : rows_related_ w w.
Proof using Q_refl. apply Forall2_same. Qed.

Lemma rows_related_trans a b c :
  rows_related_ a b -> rows_related_ b c -> rows_related_ a c.
Proof using Q_trans.
  unfold rows_related. intros H1 H2.
  eapply Forall2_trans; [| exact H1 | exact H2]. intros x y z. apply Q_trans.
Qed.

Hypothesis Q_claim : forall p id r, Q r (stageSet p id r).
Hypothesis Q_precommit_landed : forall task h tsk r,
  where_precommit_landed task r = true -> Q r (set_precommit_landed h tsk r).
Hypothesis Q_commit_landed : forall tsk r, Q r (set_commit_landed tsk r).

Lemma rows_related_poll s : preserves rows_related_ (poll delay s).
Proof using All.
  apply preserves_poll.
  - apply rows_related_refl.
  - apply rows_related_trans.
  - intros e w. unfold rows_related. simpl. apply Forall2_same.
  - intros p task w. unfold rows_related. rewrite stageClaim_unfold.
    destruct (AddTask_claim_rows (stageWhere p task) (stageSet p) w) as [-> | ->].
    + apply Forall2_same.
    + apply Forall2_updated. intros r _. apply Q_claim.
  - intros task h tsk w. unfold rows_related. rewrite final_db_Exec. simpl.
    destruct (Exec_rows (where_precommit_landed task) (set_precommit_landed h tsk) (db w))
      as [-> | ->].
    + apply Forall2_same.
    + apply Forall2_updated. intros r. apply Q_precommit_landed.
  - intros task tsk w. unfold rows_related. rewrite final_db_Exec. simpl.
    destruct (Exec_rows (where_commit_landed task) (set_commit_landed tsk) (db w))
      as [-> | ->].
    + apply Forall2_same.
    + apply Forall2_updated. intros r _. apply Q_commit_landed.
  - intros api w. unfold rows_related. simpl. apply Forall2_same.
Qed.

Lemma rows_related_landed s task :
  preserves rows_related_ (pollPrecommitMsgLanded delay s task).
Proof using Q_refl Q_trans Q_precommit_landed.
  apply preserves_pollPrecommitMsgLanded.
  - apply rows_related_refl.
  - apply rows_related_trans.
  - intros msg e w. unfold rows_related. simpl. apply Forall2_same.
  - intros h tsk _ w. unfold rows_related. rewrite final_db_Exec. simpl.
    destruct (Exec_rows (where_precommit_landed task) (set_precommit_landed h tsk) (db w))
      as [-> | ->].
    + apply Forall2_same.
    + apply Forall2_updated. intros r. apply Q_precommit_landed.
Qed.

End RowRelation.

(** *** The seed epoch *)

(** C10. The update that records the seed epoch is conditioned on
    [seed_epoch] being null.  In whatever world a landing check of the
    precommit message ends, and in whatever world a whole tick ends, returning
    or blocked, every row that had a seed epoch still has that same seed
    epoch. *)
Theorem seed_epoch_written_once (delay : Z) (s : SealPoller) (w : World) :
  (forall task r, where_precommit_landed task r = true -> SeedEpoch (cols r) = None)
  /\ (forall task,
        Forall2 seed_kept
          (sectors_sdr_pipeline (db w))
          (sectors_sdr_pipeline (db (final (pollPrecommitMsgLanded delay s task w)))))
  /\ Forall2 seed_kept
       (sectors_sdr_pipeline (db w))
       (sectors_sdr_pipeline (db (final (poll delay s w)))).
Proof.
  assert (Hrefl : forall r, seed_kept r r) by (intros r; split; auto).
  assert (Htrans : forall a b c, seed_kept a b -> seed_kept b c -> seed_kept a c).
  { intros a b c [Hk1 H1] [Hk2 H2]. split; [congruence | auto]. }
  assert (Hlanded : forall task h tsk r,
            where_precommit_landed task r = true ->
            seed_kept r (set_precommit_landed h tsk r)).
  { intros task h tsk r H. split; [reflexivity |].
    unfold where_precommit_landed in H. apply andb_true_iff in H.
    destruct H as [_ H]. apply is_null_true in H. rewrite H. discriminate. }
  split; [| split].
  - intros task r H. unfold where_precommit_landed in H.
    apply andb_true_iff in H. apply is_null_true, H.
  - intros task.
    apply (rows_related_landed delay seed_kept Hrefl Htrans Hlanded s task w).
  - apply (rows_related_poll delay seed_kept Hrefl Htrans); [| exact Hlanded |].
    + intros p id r. split; [apply stageSet_key |]. destruct p; simpl; auto.
    + intros tsk r. split; [reflexivity | simpl; auto].
Qed.

(** *** The chain head *)

Lemma final_AddTask_heads f w : heads_read (final (AddTask f w)) = heads_read w.
Proof.
  unfold AddTask. destruct (f (next_task w) (db w)) as [[c e] tx].
  destruct (c && is_null e); reflexivity.
Qed.

Lemma same_heads_pollTaskStages delay s task ts :
  preserves same_heads (pollTaskStages delay s task ts).
Proof.
  apply preserves_stages; unfold same_heads.
  - reflexivity.
  - intros a b c H1 H2. congruence.
  - intros e w. reflexivity.
  - intros p task' w. apply final_AddTask_heads.
  - intros task' h tsk w. rewrite final_db_Exec. reflexivity.
  - intros task' tsk w. rewrite final_db_Exec. reflexivity.
Qed.

Lemma pollTasks_step delay s task rest w :
  Failed task = false ->
  pollTasks delay s (task :: rest) w =
    match ChainHead (api s) (heads_read w) with
    | inl ts =>
        bind (pollTaskStages delay s task ts) (fun _ => pollTasks delay s rest)
          (afterHead w)
    | inr err => Ret (Some (ErrWrap "getting chain head" err), afterHead w)
    end.
Proof.
  intros Hf. simpl. rewrite Hf. unfold bind at 1, api_ChainHead.
  destruct (ChainHead (api s) (heads_read w)); reflexivity.
Qed.

Lemma pollTasks_failed delay s task rest w :
  Failed task = true ->
  pollTasks delay s (task :: rest) w = pollTasks delay s rest w.
Proof. intros Hf. simpl. rewrite Hf. reflexivity. Qed.

Lemma pollTasks_cons delay s task rest w ts :
  Failed task = false ->
  ChainHead (api s) (heads_read w) = inl ts ->
  pollTasks delay s (task :: rest) w =
    bind (pollTaskStages delay s task ts) (fun _ => pollTasks delay s rest)
      (mkWorld (db w) (next_task w) (S (heads_read w))
         (trace w ++ [EvChainHead (heads_read w)])).
Proof.
  intros Hf Hh. rewrite pollTasks_step by assumption. rewrite Hh. reflexivity.
Qed.

Lemma notFailed_cons task rest :
  notFailed (task :: rest) = if Failed task then notFailed rest else task :: notFailed rest.
Proof. unfold notFailed. simpl. destruct (Failed task); reflexivity. Qed.

Lemma pollTasks_heads_le delay s tasks w :
  (heads_read w <= heads_read (final (pollTasks delay s tasks w))
   <= heads_read w + length (notFailed tasks))%nat.
Proof.
  revert w. induction tasks as [| task rest IH]; intros w; [simpl; lia |].
  rewrite notFailed_cons.
  destruct (Failed task) eqn:Hf.
  - rewrite pollTasks_failed by assumption. apply IH.
  - rewrite pollTasks_step by assumption.
    destruct (ChainHead (api s) (heads_read w)) as [ts | err]; [| simpl; lia].
    pose proof (same_heads_pollTaskStages delay s task ts (afterHead w)) as Hs.
    unfold same_heads in Hs. unfold bind.
    destruct (pollTaskStages delay s task ts (afterHead w)) as [[[] w2]|w2];
      simpl in Hs |- *.
    + specialize (IH w2). lia.
    + lia.
Qed.

Lemma pollTasks_heads delay s tasks w w' :
  pollTasks delay s tasks w = Ret (None, w') ->
  heads_read w' = (heads_read w + length (notFailed tasks))%nat.
Proof.
  revert w. induction tasks as [| task rest IH]; intros w.
  - simpl. intros [= <-]. lia.
  - rewrite notFailed_cons.
    destruct (Failed task) eqn:Hf.
    + rewrite pollTasks_failed by assumption. apply IH.
    + rewrite pollTasks_step by assumption.
      destruct (ChainHead (api s) (heads_read w)) as [ts | err]; [| discriminate].
      pose proof (same_heads_pollTaskStages delay s task ts (afterHead w)) as Hs.
      unfold same_heads in Hs. unfold bind.
      destruct (pollTaskStages delay s task ts (afterHead w)) as [[[] w2]|w2];
        [| discriminate].
      intros H. apply IH in H. simpl in *. lia.
Qed.

(** C5, as the code has it.  The chain head is read inside the loop, once for
    every loaded record that is not failed and just before the stages of that
    record, which are evaluated against the head read for it.  A tick never
    reads the head more often than there are such records, and a tick that
    returns without an error has read it exactly that often. *)
Theorem chain_head_read_per_record (delay : Z) (s : SealPoller) (w : World)
    (tasks : list pollTask) :
  select_tasks (db w) = inl tasks ->
  (heads_read (final (poll delay s w)) <= heads_read w + length (notFailed tasks))%nat
  /\ (forall w', poll delay s w = Ret (None, w') ->
        heads_read w' = (heads_read w + length (notFailed tasks))%nat)
  /\ (forall task rest w0 ts,
        Failed task = false -> ChainHead (api s) (heads_read w0) = inl ts ->
        pollTasks delay s (task :: rest) w0 =
          bind (pollTaskStages delay s task ts) (fun _ => pollTasks delay s rest)
            (mkWorld (db w0) (next_task w0) (S (heads_read w0))
               (trace w0 ++ [EvChainHead (heads_read w0)]))).
Proof.
  intros Hsel.
  assert (Hp : poll delay s w = pollTasks delay s tasks w).
  { unfold poll, bind, db_Select. rewrite Hsel. reflexivity. }
  rewrite Hp.
  split; [apply pollTasks_heads_le |]. split; [apply pollTasks_heads |].
  intros task rest w0 ts. apply pollTasks_cons.
Qed.

Lemma chain_head_read_per_record_witness :
  select_tasks (db Scenarios.twoSeededWorld)
    = inl [Scenarios.seededTask 1000 1 10; Scenarios.seededTask 1000 2 10]
  /\ (heads_read
        (final (poll Scenarios.challengeDelay (Scenarios.allSet Scenarios.movingChain)
                  Scenarios.twoSeededWorld)) <= 2)%nat.
Proof.
  split; [reflexivity |].
  exact (proj1 (chain_head_read_per_record Scenarios.challengeDelay
                  (Scenarios.allSet Scenarios.movingChain) Scenarios.twoSeededWorld
                  [Scenarios.seededTask 1000 1 10; Scenarios.seededTask 1000 2 10]
                  eq_refl)).
Defined.

(** C5 fails on two sectors that wait for seed epoch 10 while the head moves
    from 5 to 20 during the tick: the head is read twice, the first sector is
    judged at height 5 and not claimed, the second at height 20 and claimed. *)
Lemma head_read_once_counterexample :
  ~ head_read_once Scenarios.challengeDelay (Scenarios.allSet Scenarios.movingChain)
      Scenarios.twoSeededWorld
  /\ newEvents Scenarios.twoSeededWorld
       (final (poll Scenarios.challengeDelay (Scenarios.allSet Scenarios.movingChain)
                 Scenarios.twoSeededWorld))
     = [EvChainHead 0; EvChainHead 1; EvClaim pollerPoRep 1000 2; EvRegistered 100].
Proof.
  split; [| vm_compute; reflexivity].
  intros H.
  specialize (H None
    (final (poll Scenarios.challengeDelay (Scenarios.allSet Scenarios.movingChain)
              Scenarios.twoSeededWorld)) eq_refl).
  vm_compute in H. discriminate H.
Qed.

(** *** Handles that are not set *)

Lemma register_unset s p task f w :
  IsSet s p = false ->
  register s p task f w =
    Blocked (mkWorld (db w) (next_task w) (heads_read w)
               (trace w ++ [EvClaim p (SpID task) (SectorNumber task)])).
Proof.
  unfold IsSet, register, bind, emit, Val. simpl. intros ->. reflexivity.
Qed.

(** C4, where the code departs from it.  The stages SDR, tree group, PoRep and
    commit message test their handle and skip the claim when it is not set.
    The precommit message stage does not test its handle: for a record that
    is ready for the precommit message it asks the unset promise for its
    value, and the tick blocks there. *)
Theorem precommit_msg_stage_blocks_on_unset_handle
    (s : SealPoller) (task : pollTask) (ts : Z) (w : World) :
  IsSet s pollerPrecommitMsg = false ->
  readyPrecommitMsg task = true ->
  (exists w', pollStartPrecommitMsg s task w = Blocked w')
  /\ (IsSet s pollerSDR = false -> pollStartSDR s task w = Ret (tt, w))
  /\ (IsSet s pollerTrees = false -> pollStartSDRTrees s task w = Ret (tt, w))
  /\ (IsSet s pollerPoRep = false -> pollStartPoRep s task ts w = Ret (tt, w))
  /\ (IsSet s pollerCommitMsg = false -> pollStartCommitMsg s task w = Ret (tt, w)).
Proof.
  intros Hunset Hready. split; [| split; [| split; [| split]]].
  - unfold pollStartPrecommitMsg. rewrite Hready.
    rewrite register_unset by assumption. eauto.
  - intros H. unfold pollStartSDR, readySDR. rewrite H, andb_false_r. reflexivity.
  - intros H. unfold pollStartSDRTrees, readySDRTrees.
    rewrite H, andb_false_r. reflexivity.
  - intros H. unfold pollStartPoRep, readyPoRep. rewrite H. reflexivity.
  - intros H. unfold pollStartCommitMsg, readyCommitMsg.
    rewrite H, andb_false_r. reflexivity.
Qed.

Lemma precommit_msg_stage_blocks_witness :
  IsSet (Scenarios.noneSet (Scenarios.steadyChain 1000)) pollerPrecommitMsg = false
  /\ readyPrecommitMsg (Scenarios.treesDoneTask 1000 7) = true
  /\ (exists w', pollStartPrecommitMsg (Scenarios.noneSet (Scenarios.steadyChain 1000))
                   (Scenarios.treesDoneTask 1000 7) Scenarios.treesDoneWorld = Blocked w').
Proof.
  split; [reflexivity |]. split; [reflexivity |].
  exact (proj1 (precommit_msg_stage_blocks_on_unset_handle
                  (Scenarios.noneSet (Scenarios.steadyChain 1000))
                  (Scenarios.treesDoneTask 1000 7) 1000 Scenarios.treesDoneWorld
                  eq_refl eq_refl)).
Defined.

(** The whole tick on that input: no handle is set yet, one sector is ready
    for its precommit message, and [poll] blocks after it has noted the claim. *)
Example poll_blocks_on_unset_precommit_handle :
  poll Scenarios.challengeDelay (Scenarios.noneSet (Scenarios.steadyChain 1000))
    Scenarios.treesDoneWorld
  = Blocked (mkWorld (db Scenarios.treesDoneWorld) 100 1
               [EvChainHead 0; EvClaim pollerPrecommitMsg 1000 7]).
Proof. vm_compute. reflexivity. Qed.

(** *** The landing of the commit message *)






(** *** What a tick does to a row *)

Lemma upd_key b cond set r :
  (forall r', key (set r') = key r') -> key (upd b cond set r) = key r.
Proof. intros H. unfold upd. destruct (b && cond r); auto. Qed.

Lemma rowClaim_key s ts t x p r : key (rowClaim s ts t x p r) = key r.
Proof. apply upd_key. intros r'. apply stageSet_key. Qed.

Lemma rowPrecommitLanded_key t x r : key (rowPrecommitLanded t x r) = key r.
Proof.
  unfold rowPrecommitLanded, updLanded. destruct (landedPrecommit x); [| reflexivity].
  apply upd_key. reflexivity.
Qed.

Lemma rowCommitLanded_key s t x r : key (rowCommitLanded s t x r) = key r.
Proof.
  unfold rowCommitLanded, updLanded. destruct (landedCommit x); [| reflexivity].
  apply upd_key. reflexivity.
Qed.

Lemma rowAfter_key s ts t x r : key (rowAfter s ts t x r) = key r.
Proof.
  unfold rowAfter.
  rewrite rowCommitLanded_key, !rowClaim_key, rowPrecommitLanded_key, !rowClaim_key.
  reflexivity.
Qed.

Lemma upd_other_key b cond set r k :
  (forall r', cond r' = true -> key r' = k) -> key r <> k -> upd b cond set r = r.
Proof.
  intros Hc Hk. unfold upd. destruct (cond r) eqn:E.
  - exfalso. apply Hk, Hc, E.
  - rewrite andb_false_r. reflexivity.
Qed.

Lemma where_precommit_landed_key t r :
  where_precommit_landed t r = true -> key r = task_key t.
Proof.
  unfold where_precommit_landed. rewrite andb_true_iff, is_key_true. tauto.
Qed.

Lemma where_commit_landed_key t r :
  where_commit_landed t r = true -> key r = task_key t.
Proof.
  unfold where_commit_landed. rewrite andb_true_iff, is_key_true. tauto.
Qed.

Lemma rowClaim_other_key s ts t x p r :
  key r <> task_key t -> rowClaim s ts t x p r = r.
Proof. apply upd_other_key. intros r'. apply stageWhere_key. Qed.

Lemma rowPrecommitLanded_other_key t x r :
  key r <> task_key t -> rowPrecommitLanded t x r = r.
Proof.
  intros Hk. unfold rowPrecommitLanded, updLanded.
  destruct (landedPrecommit x); [| reflexivity].
  apply (upd_other_key _ _ _ _ (task_key t)); [apply where_precommit_landed_key | exact Hk].
Qed.

Lemma rowCommitLanded_other_key s t x r :
  key r <> task_key t -> rowCommitLanded s t x r = r.
Proof.
  intros Hk. unfold rowCommitLanded, updLanded.
  destruct (landedCommit x); [| reflexivity].
  apply (upd_other_key _ _ _ _ (task_key t)); [apply where_commit_landed_key | exact Hk].
Qed.

(** The stages of a record leave the rows of the other records alone. *)
Lemma rowAfter_other_key s ts t x r :
  key r <> task_key t -> rowAfter s ts t x r = r.
Proof.
  intros Hk. unfold rowAfter.
  rewrite !(rowClaim_other_key s ts t x _ r Hk), (rowPrecommitLanded_other_key t x r Hk),
    !(rowClaim_other_key s ts t x _ r Hk).
  apply rowCommitLanded_other_key, Hk.
Qed.

Lemma same_for_refl s ts p r : same_for s ts p r r.
Proof. split; reflexivity. Qed.

Lemma same_for_trans s ts p a b c :
  same_for s ts p a b -> same_for s ts p b c -> same_for s ts p a c.
Proof.
  intros [H1 H2] [H3 H4]. split; [congruence |]. intros t. rewrite H4. apply H2.
Qed.

Lemma same_for_upd s ts p b cond set r :
  (forall r', same_for s ts p r' (set r')) -> same_for s ts p r (upd b cond set r).
Proof. intros H. unfold upd. destruct (b && cond r); [apply H | apply same_for_refl]. Qed.

Lemma same_for_stageSet s ts p q id r :
  p <> q -> same_for s ts p r (stageSet q id r).
Proof.
  intros Hpq. destruct p, q; try congruence; (split; [reflexivity | intros t; reflexivity]).
Qed.

Lemma same_for_rowClaim s ts ts' t x p q r :
  p <> q -> same_for s ts p r (rowClaim s ts' t x q r).
Proof. intros Hpq. apply same_for_upd. intros r'. apply same_for_stageSet, Hpq. Qed.

Lemma same_for_rowPrecommitLanded s ts t x p r :
  p <> pollerPoRep -> same_for s ts p r (rowPrecommitLanded t x r).
Proof.
  intros Hp. unfold rowPrecommitLanded, updLanded.
  destruct (landedPrecommit x) as [a |]; [| apply same_for_refl].
  apply same_for_upd. intros r'.
  destruct p; try congruence; (split; [reflexivity | intros t'; reflexivity]).
Qed.

Lemma same_for_rowCommitLanded s ts t x p r :
  same_for s ts p r (rowCommitLanded s t x r).
Proof.
  unfold rowCommitLanded, updLanded.
  destruct (landedCommit x) as [a |]; [| apply same_for_refl].
  apply same_for_upd. intros r'.
  destruct p; (split; [reflexivity | intros t'; reflexivity]).
Qed.

(** A record on which a stage is ready satisfies the WHERE clause of the
    claim of that stage. *)
Lemma stageReady_stageWhere s ts p r :
  stageReady s ts p (cols r) = true -> stageWhere p (cols r) r = true.
Proof.
  destruct p; simpl;
    unfold readySDR, readySDRTrees, readyPrecommitMsg, readyPoRep, readyCommitMsg,
      where_sdr, where_trees, where_precommit_msg, where_porep, where_commit_msg;
    rewrite !andb_true_iff; intros H; rewrite is_key_task; tauto.
Qed.

(** Once its task id is written, a stage is not ready. *)
Lemma stageSet_not_ready s ts p id r :
  stageReady s ts p (cols (stageSet p id r)) = false.
Proof.
  destruct p; simpl;
    unfold readySDR, readySDRTrees, readyPrecommitMsg, readyPoRep, readyCommitMsg; simpl;
    rewrite ?andb_false_r; reflexivity.
Qed.

(** After its claim and whatever does not concern it, stage [p] is not ready. *)
Lemma claimed_then_not_ready s ts p x r0 (pre post : row -> row) :
  (forall r, same_for s ts p r (pre r)) ->
  (forall r, same_for s ts p r (post r)) ->
  stageReady s ts p (cols (post (rowClaim s ts (cols r0) x p (pre r0)))) = false.
Proof.
  intros Hpre Hpost.
  rewrite (proj1 (Hpost _)). unfold rowClaim, upd.
  destruct (stageReady s ts p (cols r0)) eqn:Hready; simpl.
  - rewrite (proj2 (Hpre r0)), (stageReady_stageWhere _ _ _ _ Hready).
    apply stageSet_not_ready.
  - rewrite (proj1 (Hpre r0)). exact Hready.
Qed.

Ltac same_chain :=
  intros;
  repeat (eapply same_for_trans;
          [| first [ apply same_for_rowCommitLanded
                   | apply same_for_rowClaim; discriminate
                   | apply same_for_rowPrecommitLanded; discriminate ]]);
  apply same_for_refl.

(** A record that was polled is quiescent afterwards. *)
Lemma rowAfter_quiescent s ts x r0 :
  quiescent s ts r0 (rowAfter s ts (cols r0) x r0).
Proof.
  split.
  - intros p Hp. unfold rowAfter. destruct p; [| | | congruence |].
    + apply (claimed_then_not_ready s ts pollerSDR x r0 (fun r => r)
               (fun r => rowCommitLanded s (cols r0) x
                  (rowClaim s ts (cols r0) x pollerCommitMsg
                     (rowClaim s ts (cols r0) x pollerPoRep
                        (rowPrecommitLanded (cols r0) x
                           (rowClaim s ts (cols r0) x pollerPrecommitMsg
                              (rowClaim s ts (cols r0) x pollerTrees r))))))); same_chain.
    + apply (claimed_then_not_ready s ts pollerTrees x r0
               (fun r => rowClaim s ts (cols r0) x pollerSDR r)
               (fun r => rowCommitLanded s (cols r0) x
                  (rowClaim s ts (cols r0) x pollerCommitMsg
                     (rowClaim s ts (cols r0) x pollerPoRep
                        (rowPrecommitLanded (cols r0) x
                           (rowClaim s ts (cols r0) x pollerPrecommitMsg r)))))); same_chain.
    + apply (claimed_then_not_ready s ts pollerPrecommitMsg x r0
               (fun r => rowClaim s ts (cols r0) x pollerTrees
                           (rowClaim s ts (cols r0) x pollerSDR r))
               (fun r => rowCommitLanded s (cols r0) x
                  (rowClaim s ts (cols r0) x pollerCommitMsg
                     (rowClaim s ts (cols r0) x pollerPoRep
                        (rowPrecommitLanded (cols r0) x r))))); same_chain.
    + apply (claimed_then_not_ready s ts pollerCommitMsg x r0
               (fun r => rowClaim s ts (cols r0) x pollerPoRep
                           (rowPrecommitLanded (cols r0) x
                              (rowClaim s ts (cols r0) x pollerPrecommitMsg
                                 (rowClaim s ts (cols r0) x pollerTrees
                                    (rowClaim s ts (cols r0) x pollerSDR r)))))
               (fun r => rowCommitLanded s (cols r0) x r)); same_chain.
  - intros Hready.
    destruct (AfterPrecommitMsgSuccess (cols r0)) eqn:Hsucc; [| reflexivity].
    exfalso. revert Hready. unfold rowAfter.
    assert (Hla : forall r, rowPrecommitLanded (cols r0) x r = r).
    { intros r. unfold rowPrecommitLanded, updLanded, upd, checksPrecommitMsgLanded.
      rewrite Hsucc, andb_false_r. destruct (landedPrecommit x); reflexivity. }
    rewrite Hla.
    rewrite (claimed_then_not_ready s ts pollerPoRep x r0
               (fun r => rowClaim s ts (cols r0) x pollerPrecommitMsg
                           (rowClaim s ts (cols r0) x pollerTrees
                              (rowClaim s ts (cols r0) x pollerSDR r)))
               (fun r => rowCommitLanded s (cols r0) x
                           (rowClaim s ts (cols r0) x pollerCommitMsg r)));
      [discriminate | same_chain | same_chain].
Qed.

(** *** What a tick does to a table with unique keys *)

Lemma map_fixed (f : row -> row) (rows : list row) :
  (forall r, f r = r) -> List.map f rows = rows.
Proof.
  intros H. induction rows as [| r rows IH]; simpl; [reflexivity |].
  rewrite H, IH. reflexivity.
Qed.

Lemma maps_rows_same f w w' :
  (forall r, f r = r) -> db w' = db w -> maps_rows f w w'.
Proof. intros H Hdb. unfold maps_rows. rewrite Hdb, map_fixed by exact H. auto. Qed.

Lemma maps_rows_trans f g w w1 w2 :
  maps_rows f w w1 -> maps_rows g w1 w2 -> maps_rows (fun r => g (f r)) w w2.
Proof.
  intros (H1 & H2 & H3) (H4 & H5 & H6). unfold maps_rows.
  rewrite H4, H1, List.map_map. split; [reflexivity |]. split; congruence.
Qed.

Lemma maps_rows_ext f g w w' :
  (forall r, f r = g r) -> maps_rows f w w' -> maps_rows g w w'.
Proof.
  intros H (H1 & H2 & H3). unfold maps_rows. rewrite H1.
  split; [apply List.map_ext, H | auto].
Qed.

Lemma maps_rows_good f w w' :
  (forall r, key (f r) = key r) -> maps_rows f w w' -> good w -> good w'.
Proof.
  intros Hk (H1 & _ & H3) [Hnd Ha]. split; [| congruence].
  rewrite H1, List.map_map.
  rewrite (List.map_ext (fun r => key (f r)) key) by exact Hk. exact Hnd.
Qed.

Lemma NoDup_matching cond rows k :
  NoDup (List.map key rows) ->
  (forall r, cond r = true -> key r = k) ->
  matching cond rows = 0 \/ matching cond rows = 1.
Proof.
  intros Hnd Hk. unfold matching.
  induction rows as [| r rows IH]; simpl; [left; reflexivity |].
  simpl in Hnd. apply NoDup_cons in Hnd. destruct Hnd as [Hnotin Hnd].
  destruct (cond r) eqn:E; [| apply IH, Hnd].
  right. simpl.
  assert (Hnone : List.filter cond rows = []).
  { clear IH Hnd. induction rows as [| r' rows IH']; simpl; [reflexivity |].
    destruct (cond r') eqn:E'.
    - exfalso. apply Hnotin. simpl. rewrite (Hk r E), (Hk r' E'). left.
    - apply IH'. intros Hin. apply Hnotin. simpl. right. exact Hin. }
  rewrite Hnone. reflexivity.
Qed.

Lemma updated_no_match cond set rows :
  matching cond rows = 0 -> updated cond set rows = rows.
Proof.
  unfold matching, updated. intros H.
  induction rows as [| r rows IH]; simpl in *; [reflexivity |].
  destruct (cond r); simpl in H; [lia |]. rewrite IH by exact H. reflexivity.
Qed.

(** On a table with unique keys the registration of a claim acts row by row,
    whether it is kept or rolled back. *)
Lemma AddTask_claim_maps cond set k w :
  good w ->
  (forall r, cond r = true -> key r = k) ->
  maps_rows (upd true cond (set (next_task w))) w (final (AddTask (claim cond set) w)).
Proof.
  intros [Hnd Ha] Hk. rewrite AddTask_claim_available by exact Ha.
  destruct (NoDup_matching cond _ k Hnd Hk) as [H0 | H1].
  - rewrite H0. simpl. unfold maps_rows. simpl.
    split; [| auto].
    change (List.map (upd true cond (set (next_task w))) (sectors_sdr_pipeline (db w)))
      with (updated cond (set (next_task w)) (sectors_sdr_pipeline (db w))).
    rewrite updated_no_match by exact H0. reflexivity.
  - rewrite H1. simpl. unfold maps_rows. simpl. auto.
Qed.

Lemma register_Ret s p task f w w' :
  register s p task f w = Ret (tt, w') ->
  w' = final (AddTask f (mkWorld (db w) (next_task w) (heads_read w)
                           (trace w ++ [EvClaim p (SpID task) (SectorNumber task)]))).
Proof.
  unfold register, bind, emit, Val. simpl.
  destruct (pollers s p); [| discriminate].
  intros H. rewrite H. reflexivity.
Qed.

Lemma stage_maps s ts p task (m : M unit) w w' :
  m = (if stageReady s ts p task then register s p task (stageClaim p task) else ret tt) ->
  good w -> m w = Ret (tt, w') ->
  exists id,
    maps_rows (upd (stageReady s ts p task) (stageWhere p task) (stageSet p id)) w w'.
Proof.
  intros -> Hgood H. destruct (stageReady s ts p task).
  - apply register_Ret in H. subst w'. rewrite stageClaim_unfold.
    exists (next_task w).
    apply (AddTask_claim_maps (stageWhere p task) (stageSet p) (task_key task)
             (mkWorld (db w) (next_task w) (heads_read w) _)).
    + exact Hgood.
    + intros r. apply stageWhere_key.
  - injection H as <-. exists 0. apply maps_rows_same; reflexivity.
Qed.

Lemma select_landed_db cid task w res w' :
  select_landed cid task w = Ret (res, w') -> db w' = db w.
Proof.
  unfold select_landed, bind, db_Select.
  destruct (select_executed _ _ _ _); simpl; intros [= _ <-]; reflexivity.
Qed.

Lemma db_Exec_maps cond set w r w' :
  available (db w) = true ->
  db_Exec cond set w = Ret (r, w') -> maps_rows (upd true cond set) w w'.
Proof.
  intros Ha. unfold db_Exec. rewrite Exec_available by exact Ha.
  intros [= _ <-]. unfold maps_rows. simpl. auto.
Qed.

Lemma mustPoll_db e w w' : mustPoll e w = Ret (tt, w') -> db w' = db w.
Proof. destruct e; simpl; unfold log_Errorw, emit, ret; intros [= <-]; reflexivity. Qed.

Lemma pollPrecommitMsgLanded_maps delay s task w e w' :
  available (db w) = true ->
  pollPrecommitMsgLanded delay s task w = Ret (e, w') ->
  exists la,
    maps_rows (updLanded la (checksPrecommitMsgLanded task) (where_precommit_landed task)
                 (fun a => set_precommit_landed a.1 a.2)) w w'.
Proof.
  intros Ha H. unfold pollPrecommitMsgLanded in H.
  destruct (checksPrecommitMsgLanded task) eqn:Hc.
  2: { injection H as _ <-. exists None. apply maps_rows_same; reflexivity. }
  apply bind_Ret in H. destruct H as (res & w1 & Hsel & H).
  apply select_landed_db in Hsel.
  assert (Hsame : forall w2, db w2 = db w1 ->
            exists la : option (Z * string),
              maps_rows (updLanded la true (where_precommit_landed task)
                           (fun a => set_precommit_landed a.1 a.2)) w w2).
  { intros w2 Hw2. exists None. apply maps_rows_same; [reflexivity | congruence]. }
  destruct res as [| e0 rest]; [injection H as _ <-; auto |].
  destruct (NewIDAddress _) as [maddr | err]; [| injection H as _ <-; auto].
  destruct (StateSectorPreCommitInfo _ _ _) as [[pci |] | err];
    try (injection H as _ <-; auto).
  apply bind_Ret in H. destruct H as (r & w2 & Hexec & H).
  assert (Hw' : db w' = db w2) by (destruct r; injection H as _ <-; reflexivity).
  apply db_Exec_maps in Hexec; [| congruence].
  exists (Some (Int64.add (PreCommitEpoch pci) delay, ExecutedTskCID e0)).
  destruct Hexec as (H1 & H2 & H3). unfold maps_rows. rewrite Hw', H1, H2, H3, Hsel.
  auto.
Qed.

Lemma pollCommitMsgLanded_maps s task w e w' :
  available (db w) = true ->
  pollCommitMsgLanded s task w = Ret (e, w') ->
  exists lb,
    maps_rows (updLanded lb (checksCommitMsgLanded s task) (where_commit_landed task)
                 set_commit_landed) w w'.
Proof.
  intros Ha H. unfold pollCommitMsgLanded in H.
  destruct (checksCommitMsgLanded s task) eqn:Hc.
  2: { injection H as _ <-. exists None. apply maps_rows_same; reflexivity. }
  apply bind_Ret in H. destruct H as (res & w1 & Hsel & H).
  apply select_landed_db in Hsel.
  assert (Hsame : forall w2, db w2 = db w1 ->
            exists lb : option string,
              maps_rows (updLanded lb true (where_commit_landed task)
                           set_commit_landed) w w2).
  { intros w2 Hw2. exists None. apply maps_rows_same; [reflexivity | congruence]. }
  destruct res as [| e0 rest]; [injection H as _ <-; auto |].
  destruct (NewIDAddress _) as [maddr | err]; [| injection H as _ <-; auto].
  destruct (StateSectorGetInfo _ _ _) as [[si |] | err];
    try (injection H as _ <-; auto).
  apply bind_Ret in H. destruct H as (r & w2 & Hexec & H).
  assert (Hw' : db w' = db w2) by (destruct r; injection H as _ <-; reflexivity).
  apply db_Exec_maps in Hexec; [| congruence].
  exists (Some (ExecutedTskCID e0)).
  destruct Hexec as (H1 & H2 & H3). unfold maps_rows. rewrite Hw', H1, H2, H3, Hsel.
  auto.
Qed.

Lemma landing_maps (m : M (option error)) f w w' :
  (forall e w1, m w = Ret (e, w1) -> maps_rows f w w1) ->
  bind m mustPoll w = Ret (tt, w') -> maps_rows f w w'.
Proof.
  intros Hm H. apply bind_Ret in H. destruct H as (e & w1 & Hm1 & Hp).
  apply mustPoll_db in Hp. destruct (Hm e w1 Hm1) as (H1 & H2 & H3).
  unfold maps_rows. rewrite Hp. auto.
Qed.

Lemma upd_stageSet_key b cond p id r : key (upd b cond (stageSet p id) r) = key r.
Proof. apply upd_key. intros r'. apply stageSet_key. Qed.

(** The stages of one record act on the table row by row. *)
Lemma pollTaskStages_maps delay s task ts w w' :
  good w ->
  pollTaskStages delay s task ts w = Ret (tt, w') ->
  exists x, maps_rows (rowAfter s ts task x) w w'.
Proof.
  intros Hg0 H. unfold pollTaskStages in H.
  apply bind_Ret in H. destruct H as ([] & w1 & H1 & H).
  apply (stage_maps s ts pollerSDR task _ _ _ eq_refl Hg0) in H1. destruct H1 as [id1 H1].
  pose proof (maps_rows_good _ _ _ (upd_stageSet_key _ _ _ _) H1 Hg0) as Hg1.
  apply bind_Ret in H. destruct H as ([] & w2 & H2 & H).
  apply (stage_maps s ts pollerTrees task _ _ _ eq_refl Hg1) in H2. destruct H2 as [id2 H2].
  pose proof (maps_rows_good _ _ _ (upd_stageSet_key _ _ _ _) H2 Hg1) as Hg2.
  apply bind_Ret in H. destruct H as ([] & w3 & H3 & H).
  apply (stage_maps s ts pollerPrecommitMsg task _ _ _ eq_refl Hg2) in H3.
  destruct H3 as [id3 H3].
  pose proof (maps_rows_good _ _ _ (upd_stageSet_key _ _ _ _) H3 Hg2) as Hg3.
  apply bind_Ret in H. destruct H as ([] & w4 & H4 & H).
  assert (H4' : exists la,
            maps_rows (updLanded la (checksPrecommitMsgLanded task)
                         (where_precommit_landed task)
                         (fun a => set_precommit_landed a.1 a.2)) w3 w4).
  { apply bind_Ret in H4. destruct H4 as (e & w3' & Hl & Hp).
    apply pollPrecommitMsgLanded_maps in Hl; [| apply Hg3].
    destruct Hl as [la (Ha & Hb & Hc)]. exists la.
    apply mustPoll_db in Hp. unfold maps_rows. rewrite Hp. auto. }
  clear H4. destruct H4' as [la H4].
  assert (Hg4 : good w4).
  { eapply maps_rows_good; [| exact H4 | exact Hg3].
    intros r. unfold updLanded. destruct la; [apply upd_key |]; reflexivity. }
  apply bind_Ret in H. destruct H as ([] & w5 & H5 & H).
  apply (stage_maps s ts pollerPoRep task _ _ _ eq_refl Hg4) in H5. destruct H5 as [id5 H5].
  pose proof (maps_rows_good _ _ _ (upd_stageSet_key _ _ _ _) H5 Hg4) as Hg5.
  apply bind_Ret in H. destruct H as ([] & w6 & H6 & H).
  apply (stage_maps s ts pollerCommitMsg task _ _ _ eq_refl Hg5) in H6.
  destruct H6 as [id6 H6].
  pose proof (maps_rows_good _ _ _ (upd_stageSet_key _ _ _ _) H6 Hg5) as Hg6.
  assert (H7 : exists lb,
            maps_rows (updLanded lb (checksCommitMsgLanded s task)
                         (where_commit_landed task) set_commit_landed) w6 w').
  { apply bind_Ret in H. destruct H as (e & w6' & Hl & Hp).
    apply pollCommitMsgLanded_maps in Hl; [| apply Hg6].
    destruct Hl as [lb (Ha & Hb & Hc)]. exists lb.
    apply mustPoll_db in Hp. unfold maps_rows. rewrite Hp. auto. }
  destruct H7 as [lb H7].
  exists (mkAnswers
            (fun p => match p with
                      | pollerSDR => id1
                      | pollerTrees => id2
                      | pollerPrecommitMsg => id3
                      | pollerPoRep => id5
                      | pollerCommitMsg => id6
                      end) la lb).
  pose proof (maps_rows_trans _ _ _ _ _
                (maps_rows_trans _ _ _ _ _
                   (maps_rows_trans _ _ _ _ _
                      (maps_rows_trans _ _ _ _ _
                         (maps_rows_trans _ _ _ _ _
                            (maps_rows_trans _ _ _ _ _ H1 H2) H3) H4) H5) H6) H7) as Hall.
  exact Hall.
Qed.

Lemma In_notFailed t tasks : In t (notFailed tasks) <-> In t tasks /\ Failed t = false.
Proof.
  unfold notFailed. rewrite List.filter_In, negb_true_iff. reflexivity.
Qed.

Lemma Forall2_map_l {A B C} (P : B -> C -> Prop) (f : A -> B) l k :
  Forall2 P (List.map f l) k -> Forall2 (fun a c => P (f a) c) l k.
Proof.
  revert k. induction l as [| a l IH]; intros k H; simpl in H.
  - inversion H. constructor.
  - inversion H; subst. constructor; auto.
Qed.

Lemma good_afterHead w : good w -> good (afterHead w).
Proof. intros H. exact H. Qed.

Lemma pollTasks_rows delay s h tasks w w' :
  (forall n, ChainHead (api s) n = inl h) ->
  NoDup (List.map task_key tasks) ->
  good w ->
  pollTasks delay s tasks w = Ret (None, w') ->
  Forall2 (touched s h tasks) (sectors_sdr_pipeline (db w)) (sectors_sdr_pipeline (db w'))
  /\ good w'.
Proof.
  intros Hhead. revert w. induction tasks as [| task rest IH]; intros w Hnd Hg H.
  - simpl in H. injection H as <-. split; [| exact Hg].
    apply Forall2_same_length_lookup_2; [reflexivity |].
    intros i r r' H1 H2. rewrite H1 in H2. injection H2 as <-.
    left. split; [intros t [] | reflexivity].
  - simpl in Hnd. apply NoDup_cons in Hnd. destruct Hnd as [Hnotin Hnd].
    destruct (Failed task) eqn:Hf.
    + rewrite pollTasks_failed in H by exact Hf.
      destruct (IH w Hnd Hg H) as [HF Hg']. split; [| exact Hg'].
      eapply Forall2_impl; [exact HF |]. intros r r'.
      unfold touched. rewrite notFailed_cons, Hf. auto.
    + rewrite pollTasks_step, Hhead in H by exact Hf.
      apply bind_Ret in H. destruct H as ([] & w1 & Hst & H).
      destruct (pollTaskStages_maps _ _ _ _ _ _ (good_afterHead w Hg) Hst) as [x Hmap].
      assert (Hg1 : good w1).
      { eapply maps_rows_good; [| exact Hmap | apply good_afterHead, Hg].
        intros r. apply rowAfter_key. }
      destruct (IH w1 Hnd Hg1 H) as [HF Hg']. split; [| exact Hg'].
      destruct Hmap as (Hrows & _ & _). simpl in Hrows. rewrite Hrows in HF.
      apply Forall2_map_l in HF.
      eapply Forall2_impl; [exact HF |]. intros r r' Ht. simpl in Ht.
      unfold touched in *. rewrite notFailed_cons, Hf.
      destruct (decide (key r = task_key task)) as [Hk | Hk].
      * right. destruct Ht as [[_ ->] | (t & x' & Hin & Hkt & _)].
        -- exists task, x. split; [left; reflexivity |]. auto.
        -- exfalso. apply Hnotin. rewrite rowAfter_key in Hkt.
           apply list_elem_of_In, List.in_map_iff. exists t.
           split; [congruence |]. apply In_notFailed in Hin. tauto.
      * rewrite (rowAfter_other_key _ _ _ _ _ Hk) in Ht.
        destruct Ht as [[Hno ->] | (t & x' & Hin & Hkt & ->)].
        -- left. split; [| reflexivity].
           intros t [<- | Hin]; [congruence | apply Hno, Hin].
        -- right. exists t, x'. split; [right; exact Hin | auto].
Qed.

(** *** The claims that a tick attempts *)

Lemma claims_within_refl A w : claims_within A w w.
Proof. exists []. rewrite app_nil_r. split; [reflexivity | intros p sp sn []]. Qed.

Lemma claims_within_trans A a b c :
  claims_within A a b -> claims_within A b c -> claims_within A a c.
Proof.
  intros (e1 & H1 & A1) (e2 & H2 & A2). exists (e1 ++ e2).
  rewrite H2, H1, app_assoc. split; [reflexivity |].
  intros p sp sn Hin. apply List.in_app_or in Hin. destruct Hin; eauto.
Qed.

Lemma claims_within_weaken (A B : poller -> Z -> Z -> Prop) w w' :
  (forall p sp sn, A p sp sn -> B p sp sn) -> claims_within A w w' -> claims_within B w w'.
Proof. intros HAB (evs & H & HA). exists evs. split; [exact H | auto]. Qed.

Lemma claims_within_quiet A w w' e :
  trace w' = trace w ++ [e] -> (forall p sp sn, e <> EvClaim p sp sn) ->
  claims_within A w w'.
Proof.
  intros H Hne. exists [e]. split; [exact H |].
  intros p sp sn [-> | []]. exfalso. eapply Hne. reflexivity.
Qed.

Lemma claims_within_silent A w w' : trace w' = trace w -> claims_within A w w'.
Proof.
  intros H. exists []. rewrite app_nil_r. split; [exact H | intros p sp sn []].
Qed.

Lemma claims_within_newEvents A w w' p sp sn :
  claims_within A w w' -> In (EvClaim p sp sn) (newEvents w w') -> A p sp sn.
Proof.
  intros (evs & H & HA). unfold newEvents. rewrite H, drop_app_length. apply HA.
Qed.

Lemma final_AddTask_trace f w :
  exists e, trace (final (AddTask f w)) = trace w ++ [e]
            /\ forall p sp sn, e <> EvClaim p sp sn.
Proof.
  unfold AddTask. destruct (f (next_task w) (db w)) as [[c e] tx].
  destruct (c && is_null e); simpl; eexists; (split; [reflexivity | discriminate]).
Qed.

(** The stages of one record note only claims of that record, each for a
    stage that is ready. *)
Lemma pollTaskStages_claims delay s task ts :
  preserves
    (claims_within (fun p sp sn => task_key task = (sp, sn)
                                   /\ stageReady s ts p task = true))
    (pollTaskStages delay s task ts).
Proof.
  apply preserves_pollTaskStages.
  - apply claims_within_refl.
  - apply claims_within_trans.
  - intros msg e w. eapply claims_within_quiet; [reflexivity | discriminate].
  - intros p Hready w. unfold register, bind, emit, Val. simpl.
    destruct (pollers s p).
    + destruct (final_AddTask_trace (stageClaim p task)
                  (mkWorld (db w) (next_task w) (heads_read w)
                     (trace w ++ [EvClaim p (SpID task) (SectorNumber task)])))
        as (e & He & Hne).
      exists [EvClaim p (SpID task) (SectorNumber task); e].
      split; [rewrite He; simpl; rewrite <- app_assoc; reflexivity |].
      intros p' sp sn [[= <- <- <-] | [-> | []]]; [auto |].
      exfalso. eapply Hne. reflexivity.
    + simpl. exists [EvClaim p (SpID task) (SectorNumber task)].
      split; [reflexivity |]. intros p' sp sn [[= <- <- <-] | []]. auto.
  - intros h tsk _ w. apply claims_within_silent. rewrite final_db_Exec. reflexivity.
  - intros tsk _ w. apply claims_within_silent. rewrite final_db_Exec. reflexivity.
Qed.

Lemma pollTasks_claims delay s h tasks :
  (forall n, ChainHead (api s) n = inl h) ->
  preserves (claims_within (claimable s h tasks)) (pollTasks delay s tasks).
Proof.
  intros Hhead. induction tasks as [| task rest IH]; intros w.
  - simpl. apply claims_within_refl.
  - destruct (Failed task) eqn:Hf.
    + rewrite pollTasks_failed by exact Hf.
      eapply claims_within_weaken; [| apply IH].
      intros p sp sn (t & Hin & Hk). exists t.
      rewrite notFailed_cons, Hf. auto.
    + rewrite pollTasks_step, Hhead by exact Hf.
      eapply claims_within_trans.
      { apply (claims_within_quiet _ w (afterHead w) (EvChainHead (heads_read w)));
          [reflexivity | discriminate]. }
      pose proof (pollTaskStages_claims delay s task h (afterHead w)) as Hst.
      unfold bind.
      destruct (pollTaskStages delay s task h (afterHead w)) as [[[] w1] | w1];
        simpl in Hst |- *.
      * eapply claims_within_trans.
        -- eapply claims_within_weaken; [| exact Hst].
           intros p sp sn [Hk Hr]. exists task.
           rewrite notFailed_cons, Hf. split; [left; reflexivity | auto].
        -- eapply claims_within_weaken; [| apply IH].
           intros p sp sn (t & Hin & Hk). exists t.
           rewrite notFailed_cons, Hf. split; [right; exact Hin | exact Hk].
      * eapply claims_within_weaken; [| exact Hst].
        intros p sp sn [Hk Hr]. exists task.
        rewrite notFailed_cons, Hf. split; [left; reflexivity | auto].
Qed.

(** *** Two ticks in succession *)

Lemma poll_available delay s w :
  available (db w) = true -> poll delay s w = pollTasks delay s (polled (db w)) w.
Proof.
  intros Ha. unfold poll, bind, db_Select, select_tasks. rewrite Ha. reflexivity.
Qed.

Lemma poll_returned_available delay s w w' :
  poll delay s w = Ret (None, w') -> available (db w) = true.
Proof.
  unfold poll, bind, db_Select, select_tasks.
  destruct (available (db w)); [reflexivity | discriminate].
Qed.

Lemma In_polled t d :
  In t (polled d) <->
  exists r, In r (sectors_sdr_pipeline d) /\ AfterCommitMsgSuccess (cols r) = false
            /\ t = cols r.
Proof.
  unfold polled. rewrite List.in_map_iff. split.
  - intros (r & <- & Hin). apply List.filter_In in Hin.
    rewrite negb_true_iff in Hin. exists r. tauto.
  - intros (r & Hin & Hs & ->). exists r. split; [reflexivity |].
    apply List.filter_In. rewrite negb_true_iff. auto.
Qed.

Lemma NoDup_polled d :
  NoDup (List.map key (sectors_sdr_pipeline d)) -> NoDup (List.map task_key (polled d)).
Proof.
  unfold polled. rewrite List.map_map.
  induction (sectors_sdr_pipeline d) as [| r rows IH]; simpl; intros Hnd; [constructor |].
  apply NoDup_cons in Hnd. destruct Hnd as [Hnotin Hnd].
  destruct (negb (AfterCommitMsgSuccess (cols r))); simpl; [| apply IH, Hnd].
  apply NoDup_cons. split; [| apply IH, Hnd].
  intros Hin. apply Hnotin.
  apply list_elem_of_In, List.in_map_iff in Hin. destruct Hin as (r' & Hk & Hin').
  apply List.filter_In in Hin'.
  apply list_elem_of_In, List.in_map_iff. exists r'. tauto.
Qed.

Lemma NoDup_key_inj rows a b :
  NoDup (List.map key rows) -> In a rows -> In b rows -> key a = key b -> a = b.
Proof.
  induction rows as [| r rows IH]; simpl; intros Hnd Ha Hb Hk; [contradiction |].
  apply NoDup_cons in Hnd. destruct Hnd as [Hnotin Hnd].
  assert (Hin : forall c, In c rows -> key c <> key r).
  { intros c Hc Heq. apply Hnotin. apply list_elem_of_In, List.in_map_iff. eauto. }
  destruct Ha as [<- | Ha], Hb as [<- | Hb]; auto.
  - exfalso. apply (Hin b Hb). congruence.
  - exfalso. apply (Hin a Ha). congruence.
Qed.

Lemma Forall2_In_r {A B} (P : A -> B -> Prop) l k b :
  Forall2 P l k -> In b k -> exists a, In a l /\ P a b.
Proof.
  induction 1 as [| a b' l k HP HF IH]; simpl; [contradiction |].
  intros [<- | Hin]; [eauto |].
  destruct (IH Hin) as (a' & ? & ?). eauto.
Qed.

(** After a tick that returned without an error, every record that the next
    tick polls is quiescent. *)
Lemma tick_leaves_quiescent delay s h w0 w1 :
  NoDup (List.map key (sectors_sdr_pipeline (db w0))) ->
  (forall n, ChainHead (api s) n = inl h) ->
  poll delay s w0 = Ret (None, w1) ->
  available (db w1) = true
  /\ forall t1, In t1 (notFailed (polled (db w1))) ->
       exists r0 r1,
         In r0 (sectors_sdr_pipeline (db w0)) /\ In r1 (sectors_sdr_pipeline (db w1))
         /\ t1 = cols r1 /\ key r1 = key r0 /\ quiescent s h r0 r1.
Proof.
  intros Hnd Hhead Hrun1.
  pose proof (poll_returned_available _ _ _ _ Hrun1) as Ha0.
  rewrite poll_available in Hrun1 by exact Ha0.
  destruct (pollTasks_rows delay s h (polled (db w0)) w0 w1 Hhead
              (NoDup_polled _ Hnd) (conj Hnd Ha0) Hrun1) as [HF [Hnd1 Ha1]].
  split; [exact Ha1 |]. intros t1 Hin1.
  apply In_notFailed in Hin1. destruct Hin1 as [Hin1 Hf1].
  apply In_polled in Hin1. destruct Hin1 as (r1 & Hr1 & Hterm1 & ->).
  destruct (Forall2_In_r _ _ _ _ HF Hr1) as (r0 & Hr0 & Htouched).
  exists r0, r1. split; [exact Hr0 |]. split; [exact Hr1 |]. split; [reflexivity |].
  destruct Htouched as [[Hno ->] | (t & x & Hin & Hkt & ->)].
  - exfalso. apply (Hno (cols r0)); [| reflexivity].
    apply In_notFailed. split; [| exact Hf1]. apply In_polled. eauto.
  - apply In_notFailed in Hin. destruct Hin as [Hin _].
    apply In_polled in Hin. destruct Hin as (r0' & Hr0' & _ & ->).
    assert (r0' = r0) by (apply (NoDup_key_inj _ _ _ Hnd Hr0' Hr0); exact Hkt).
    subst r0'.
    split; [apply rowAfter_key | apply rowAfter_quiescent].
Qed.

(** *** Ticks that return *)

Lemma returns_ret {A} (a : A) : returns (ret a).
Proof. intros w. eexists _, _. reflexivity. Qed.

Lemma returns_bind {A B} (m : M A) (k : A -> M B) :
  returns m -> (forall a, returns (k a)) -> returns (bind m k).
Proof.
  intros Hm Hk w. destruct (Hm w) as (a & w1 & H1). unfold bind. rewrite H1. apply Hk.
Qed.

Lemma returns_emit e : returns (emit e).
Proof. intros w. eexists _, _. reflexivity. Qed.

Lemma returns_AddTask f : returns (AddTask f).
Proof.
  intros w. unfold AddTask. destruct (f (next_task w) (db w)) as [[c e] tx].
  destruct (c && is_null e); eexists _, _; reflexivity.
Qed.

Lemma returns_db_Exec cond set : returns (db_Exec cond set).
Proof.
  intros w. unfold db_Exec. destruct (Exec cond set (db w)). eexists _, _. reflexivity.
Qed.

Lemma returns_register s p task f :
  pollers s p = true -> returns (register s p task f).
Proof.
  intros Hset. unfold register.
  apply returns_bind; [apply returns_emit | intros _].
  intros w. unfold bind, Val. rewrite Hset. apply returns_AddTask.
Qed.

Lemma stageReady_IsSet s ts p task :
  p <> pollerPrecommitMsg -> stageReady s ts p task = true -> pollers s p = true.
Proof.
  intros Hp. destruct p; try congruence; simpl;
    unfold readySDR, readySDRTrees, readyPoRep, readyCommitMsg, IsSet;
    rewrite !andb_true_iff; tauto.
Qed.

Lemma returns_stage s ts p task (m : M unit) :
  m = (if stageReady s ts p task then register s p task (stageClaim p task) else ret tt) ->
  (stageReady s ts p task = true -> pollers s p = true) ->
  returns m.
Proof.
  intros -> H. destruct (stageReady s ts p task);
    [apply returns_register; auto | apply returns_ret].
Qed.

Lemma returns_select_landed cid task : returns (select_landed cid task).
Proof.
  unfold select_landed. apply returns_bind.
  - intros w. eexists _, _. reflexivity.
  - intros [res | err]; [apply returns_ret |].
    apply returns_bind; [apply returns_emit | intros _; apply returns_ret].
Qed.

Lemma returns_mustPoll e : returns (mustPoll e).
Proof. destruct e; simpl; [apply returns_emit | apply returns_ret]. Qed.

Lemma returns_pollPrecommitMsgLanded delay s task :
  returns (pollPrecommitMsgLanded delay s task).
Proof.
  unfold pollPrecommitMsgLanded.
  destruct (checksPrecommitMsgLanded task); [| apply returns_ret].
  apply returns_bind; [apply returns_select_landed |].
  intros [| e0 rest]; [apply returns_ret |].
  destruct (NewIDAddress _); [| apply returns_ret].
  destruct (StateSectorPreCommitInfo _ _ _) as [[pci |] | err]; try apply returns_ret.
  apply returns_bind; [apply returns_db_Exec |].
  intros [n | err]; apply returns_ret.
Qed.

Lemma returns_pollCommitMsgLanded s task : returns (pollCommitMsgLanded s task).
Proof.
  unfold pollCommitMsgLanded.
  destruct (checksCommitMsgLanded s task); [| apply returns_ret].
  apply returns_bind; [apply returns_select_landed |].
  intros [| e0 rest]; [apply returns_ret |].
  destruct (NewIDAddress _); [| apply returns_ret].
  destruct (StateSectorGetInfo _ _ _) as [[si |] | err]; try apply returns_ret.
  - apply returns_bind; [apply returns_db_Exec |].
    intros [n | err]; apply returns_ret.
  - apply returns_bind; [apply returns_emit | intros _; apply returns_ret].
Qed.

(** The stages of a record return unless the record is ready for its
    precommit message while the handle of that stage is not set. *)
Lemma returns_pollTaskStages delay s task ts :
  (readyPrecommitMsg task = true -> pollers s pollerPrecommitMsg = true) ->
  returns (pollTaskStages delay s task ts).
Proof.
  intros Hpc. unfold pollTaskStages.
  apply returns_bind;
    [apply (returns_stage s ts pollerSDR task); [reflexivity |];
     apply stageReady_IsSet; discriminate | intros _].
  apply returns_bind;
    [apply (returns_stage s ts pollerTrees task); [reflexivity |];
     apply stageReady_IsSet; discriminate | intros _].
  apply returns_bind;
    [apply (returns_stage s ts pollerPrecommitMsg task); [reflexivity | exact Hpc]
    | intros _].
  apply returns_bind;
    [apply returns_bind; [apply returns_pollPrecommitMsgLanded | apply returns_mustPoll]
    | intros _].
  apply returns_bind;
    [apply (returns_stage s ts pollerPoRep task); [reflexivity |];
     apply stageReady_IsSet; discriminate | intros _].
  apply returns_bind;
    [apply (returns_stage s ts pollerCommitMsg task); [reflexivity |];
     apply stageReady_IsSet; discriminate | intros _].
  apply returns_bind; [apply returns_pollCommitMsgLanded | apply returns_mustPoll].
Qed.

Lemma pollTasks_returns delay s h tasks w :
  (forall n, ChainHead (api s) n = inl h) ->
  (forall t, In t (notFailed tasks) ->
             readyPrecommitMsg t = true -> pollers s pollerPrecommitMsg = true) ->
  exists w', pollTasks delay s tasks w = Ret (None, w').
Proof.
  intros Hhead. revert w. induction tasks as [| task rest IH]; intros w Hpc.
  - simpl. eexists. reflexivity.
  - destruct (Failed task) eqn:Hf.
    + rewrite pollTasks_failed by exact Hf. apply IH.
      intros t Hin. apply Hpc. rewrite notFailed_cons, Hf. exact Hin.
    + rewrite pollTasks_step, Hhead by exact Hf.
      destruct (returns_pollTaskStages delay s task h
                  (Hpc task ltac:(rewrite notFailed_cons, Hf; left; reflexivity))
                  (afterHead w)) as ([] & w1 & Hst).
      unfold bind. rewrite Hst. apply IH.
      intros t Hin. apply Hpc. rewrite notFailed_cons, Hf. right. exact Hin.
Qed.

(** C2, as the code has it.  Let the keys of the table be unique, let the
    chain head stay at one height, and let a first tick return without an
    error.  Then the second tick returns without an error; it attempts no
    claim for the stages SDR, tree group, precommit message and commit
    message; and it attempts a PoRep claim only for a record whose precommit
    landing was not yet recorded before the first tick and is recorded after
    it. *)
Theorem second_tick_claims_only_fresh_landings
    (delay : Z) (s : SealPoller) (h : Z) (w0 w1 : World) :
  NoDup (List.map key (sectors_sdr_pipeline (db w0))) ->
  (forall n, ChainHead (api s) n = inl h) ->
  poll delay s w0 = Ret (None, w1) ->
  (exists w2, poll delay s w1 = Ret (None, w2))
  /\ forall p sp sn,
       In (EvClaim p sp sn) (newEvents w1 (final (poll delay s w1))) ->
       p = pollerPoRep
       /\ exists r0 r1,
            In r0 (sectors_sdr_pipeline (db w0)) /\ In r1 (sectors_sdr_pipeline (db w1))
            /\ key r0 = (sp, sn) /\ key r1 = (sp, sn)
            /\ AfterPrecommitMsgSuccess (cols r0) = false
            /\ AfterPrecommitMsgSuccess (cols r1) = true.
Proof.
  intros Hnd Hhead Hrun1.
  destruct (tick_leaves_quiescent delay s h w0 w1 Hnd Hhead Hrun1) as [Ha1 Hquiet].
  rewrite poll_available by exact Ha1. split.
  - apply (pollTasks_returns delay s h); [exact Hhead |].
    intros t1 Hin Hready.
    destruct (Hquiet t1 Hin) as (r0 & r1 & _ & _ & -> & _ & [Hq _]).
    pose proof (Hq pollerPrecommitMsg ltac:(discriminate)) as Hn. simpl in Hn.
    congruence.
  - intros p sp sn Hclaim.
    apply (claims_within_newEvents _ _ _ _ _ _
             (pollTasks_claims delay s h (polled (db w1)) Hhead w1)) in Hclaim.
    destruct Hclaim as (t1 & Hin1 & Hk1 & Hready).
    destruct (Hquiet t1 Hin1) as (r0 & r1 & Hr0 & Hr1 & -> & Hkey & [Hq Hporep]).
    destruct (decide (p = pollerPoRep)) as [-> | Hp].
    + split; [reflexivity |]. exists r0, r1.
      repeat split; try assumption.
      * unfold task_key, key in *. congruence.
      * apply Hporep, Hready.
      * apply readyPoRep_true in Hready. tauto.
    + rewrite (Hq p Hp) in Hready. discriminate.
Qed.

Lemma second_tick_claims_witness :
  NoDup (List.map key (sectors_sdr_pipeline (db Scenarios.landingWorld)))
  /\ (forall n, ChainHead (api (Scenarios.allSet (Scenarios.steadyChain 1000))) n = inl 1000)
  /\ poll Scenarios.challengeDelay (Scenarios.allSet (Scenarios.steadyChain 1000))
       Scenarios.landingWorld = Ret (None, Scenarios.landedWorld)
  /\ exists w2,
       poll Scenarios.challengeDelay (Scenarios.allSet (Scenarios.steadyChain 1000))
         Scenarios.landedWorld = Ret (None, w2).
Proof.
  assert (H1 : NoDup (List.map key (sectors_sdr_pipeline (db Scenarios.landingWorld))))
    by (simpl; apply NoDup_singleton).
  assert (H2 : forall n,
            ChainHead (api (Scenarios.allSet (Scenarios.steadyChain 1000))) n = inl 1000)
    by (intros n; reflexivity).
  assert (H3 : poll Scenarios.challengeDelay (Scenarios.allSet (Scenarios.steadyChain 1000))
                 Scenarios.landingWorld = Ret (None, Scenarios.landedWorld))
    by (vm_compute; reflexivity).
  split; [exact H1 |]. split; [exact H2 |]. split; [exact H3 |].
  exact (proj1 (second_tick_claims_only_fresh_landings Scenarios.challengeDelay
                  (Scenarios.allSet (Scenarios.steadyChain 1000)) 1000
                  Scenarios.landingWorld Scenarios.landedWorld H1 H2 H3)).
Defined.

(** C2 fails on both counts.  On [landingWorld], with the head at 1000, the
    first tick records the landing of the precommit message with seed epoch
    240 and, judging from the record as it was loaded, claims nothing; the
    second tick finds the landing recorded and the seed long reached, and
    claims PoRep.  On [commitSentWorld], with a chain on which the sector is
    not found, every tick logs the missing sector again. *)
Lemma second_tick_quiet_counterexample :
  ~ second_tick_quiet Scenarios.challengeDelay
      (Scenarios.allSet (Scenarios.steadyChain 1000)) Scenarios.landingWorld
  /\ newEvents Scenarios.landingWorld
       (final (poll Scenarios.challengeDelay
                 (Scenarios.allSet (Scenarios.steadyChain 1000)) Scenarios.landingWorld))
     = [EvChainHead 0]
  /\ newEvents Scenarios.landedWorld
       (final (poll Scenarios.challengeDelay
                 (Scenarios.allSet (Scenarios.steadyChain 1000)) Scenarios.landedWorld))
     = [EvChainHead 1; EvClaim pollerPoRep 1000 7; EvRegistered 100]
  /\ ~ second_tick_quiet Scenarios.challengeDelay
         (Scenarios.allSet (Scenarios.noSectorChain 1000)) Scenarios.commitSentWorld.
Proof.
  split; [| split; [| split ]].
  - intros H. specialize (H Scenarios.landedWorld eq_refl).
    vm_compute in H. discriminate H.
  - vm_compute. reflexivity.
  - vm_compute. reflexivity.
  - intros H.
    specialize (H (final (poll Scenarios.challengeDelay
                            (Scenarios.allSet (Scenarios.noSectorChain 1000))
                            Scenarios.commitSentWorld)) eq_refl).
    vm_compute in H. discriminate H.
Qed.

End PollerFacts.

(** ** The spread assigner *)

Module SpreadFacts.
Import sectorstorage AssignerNotions.

Lemma index_Some {A} (l : list A) (i : Z) (x : A) :
  index l i = Some x <-> 0 <= i /\ l !! Z.to_nat i = Some x.
Proof. unfold index. case_decide; split; intros; try tauto; try discriminate; lia. Qed.

Lemma index_lt {A} (l : list A) (i : Z) (x : A) :
  index l i = Some x -> 0 <= i < Z.of_nat (length l).
Proof.
  intros H. apply index_Some in H. destruct H as [H0 H].
  apply lookup_lt_Some in H. lia.
Qed.

Lemma index_is_Some {A} (l : list A) (i : Z) :
  is_Some (index l i) <-> 0 <= i < Z.of_nat (length l).
Proof.
  split.
  - intros [x H]. eapply index_lt, H.
  - intros H. unfold index. rewrite decide_True by lia.
    apply lookup_lt_is_Some. lia.
Qed.

Section Scan.

Context {WorkerResources Resources ActiveResources : Type}.
Variable zeroWorkerResources : WorkerResources.
Variable ResourceSpec : WorkerResources -> Z -> string -> Resources.
Variable CanHandleRequest :
  ActiveResources -> Resources -> WorkerID -> string -> WorkerInfo WorkerResources -> bool.

Variable sh : Scheduler WorkerResources.
Variable ws : list (SchedWindow ActiveResources).
Variable wa : gmap WorkerID Z.
Variable task : WorkerRequest.

Local Abbreviation try_ := (tryWindow ResourceSpec CanHandleRequest sh ws wa task).
Local Abbreviation scan := (scanWindows ResourceSpec CanHandleRequest sh ws wa task).
Local Abbreviation admitted_ := (admitted ResourceSpec CanHandleRequest sh ws wa task).
Local Abbreviation admits_ := (admits ResourceSpec CanHandleRequest ws task).
Local Abbreviation load := (windowLoad sh wa).

Local Abbreviation firstLeast_ := (firstLeast sh wa).
Local Abbreviation selects_ := (selects sh wa).

Lemma load_index wnd ow :
  index (OpenWindows sh) wnd = Some ow -> load wnd = assigned wa (Worker ow).
Proof. unfold windowLoad. intros ->. reflexivity. Qed.

(** What one candidate does to the selection. *)
Lemma tryWindow_cases st wnd st' :
  try_ st wnd = Some st' ->
  exists ow ok,
    index (OpenWindows sh) wnd = Some ow
    /\ admits_ st (Worker ow) wnd = Some ok
    /\ ((ok = false /\ st' = st)
        \/ (ok = true /\ bestAssigned st <= load wnd /\ st' = st)
        \/ (ok = true /\ load wnd < bestAssigned st
            /\ exists h, Workers sh !! Worker ow = Some h
                         /\ st' = mkSelection wnd (Info h) (Worker ow) (load wnd))).
Proof.
  unfold tryWindow. intros H.
  destruct (index (OpenWindows sh) wnd) as [ow |] eqn:How; simpl in H; [| discriminate].
  destruct (admits_ st (Worker ow) wnd) as [ok |] eqn:Hok; simpl in H; [| discriminate].
  exists ow, ok. split; [reflexivity |]. split; [exact Hok |].
  rewrite (load_index _ _ How).
  destruct ok; simpl in H.
  - destruct (bestAssigned st <=? assigned wa (Worker ow)) eqn:Hle.
    + apply Z.leb_le in Hle. injection H as <-. right. left. auto.
    + apply Z.leb_gt in Hle.
      destruct (Workers sh !! Worker ow) as [h |] eqn:Hw; simpl in H; [| discriminate].
      injection H as <-. right. right. eauto 10.
  - injection H as <-. left. auto.
Qed.

Lemma admitted_cons st wnd rest ow st' ok :
  index (OpenWindows sh) wnd = Some ow ->
  try_ st wnd = Some st' ->
  admits_ st (Worker ow) wnd = Some ok ->
  admitted_ st (wnd :: rest) = (if ok then [wnd] else []) ++ admitted_ st' rest.
Proof. intros Hi Ht Ha. simpl. rewrite Hi, Ht, Ha. destruct ok; reflexivity. Qed.

Hypothesis counters_small : forall wid, assigned wa wid < MaxInt.

Lemma load_small wnd : load wnd < MaxInt.
Proof using counters_small.
  unfold windowLoad. destruct (index _ _); [apply counters_small |].
  unfold MaxInt, Int64.MaxInt64. lia.
Qed.

Lemma selects_step st seen wnd st' ow ok :
  selects_ st seen ->
  index (OpenWindows sh) wnd = Some ow ->
  try_ st wnd = Some st' ->
  admits_ st (Worker ow) wnd = Some ok ->
  selects_ st' (seen ++ (if ok then [wnd] else [])).
Proof using counters_small.
  intros Hsel Hi Ht Ha.
  destruct (tryWindow_cases _ _ _ Ht) as (ow' & ok' & Hi' & Ha' & Hcases).
  rewrite Hi in Hi'. injection Hi' as <-. rewrite Ha in Ha'. injection Ha' as <-.
  destruct Hcases as [[-> ->] | [(-> & Hle & ->) | (-> & Hlt & h & Hw & ->)]].
  - rewrite app_nil_r. exact Hsel.
  - destruct Hsel as [(-> & Hs & Hb) | (pre & post & ow0 & -> & Hi0 & Hw0 & Hb0 & Hpre & Hpost)].
    + pose proof (load_small wnd). lia.
    + right. exists pre, (post ++ [wnd]), ow0.
      split; [rewrite <- app_assoc; reflexivity |].
      repeat split; try assumption.
      intros x Hx. apply elem_of_app in Hx. destruct Hx as [Hx | Hx]; [auto |].
      apply list_elem_of_singleton in Hx. subst x.
      rewrite (load_index _ _ Hi0), <- Hb0. exact Hle.
  - right. exists seen, [], ow. simpl.
    repeat split; try assumption.
    + apply load_index, Hi.
    + intros x Hx.
      destruct Hsel as [(-> & _ & _) | (pre & post & ow0 & -> & Hi0 & Hw0 & Hb0 & Hpre & Hpost)].
      * inversion Hx.
      * rewrite Hb0, <- (load_index _ _ Hi0) in Hlt.
        apply elem_of_app in Hx. destruct Hx as [Hx | Hx].
        -- specialize (Hpre x Hx). lia.
        -- apply elem_of_cons in Hx. destruct Hx as [-> | Hx]; [lia |].
           specialize (Hpost x Hx). lia.
    + intros x Hx. inversion Hx.
Qed.

Lemma selects_scan acceptable st seen sel :
  selects_ st seen ->
  scan st acceptable = Some sel ->
  selects_ sel (seen ++ admitted_ st acceptable).
Proof using counters_small.
  revert st seen. induction acceptable as [| wnd rest IH]; intros st seen Hsel Hscan.
  - simpl in *. injection Hscan as <-. rewrite app_nil_r. exact Hsel.
  - simpl in Hscan.
    destruct (try_ st wnd) as [st' |] eqn:Ht; simpl in Hscan; [| discriminate].
    destruct (tryWindow_cases _ _ _ Ht) as (ow & ok & Hi & Ha & _).
    rewrite (admitted_cons _ _ _ _ _ _ Hi Ht Ha), app_assoc.
    apply IH; [| exact Hscan].
    eapply selects_step; eassumption.
Qed.

(** The scan of one task, started as the code starts it. *)
Lemma scanWindows_first_least acceptable sel :
  scan (noSelection zeroWorkerResources) acceptable = Some sel ->
  (admitted_ (noSelection zeroWorkerResources) acceptable = []
   /\ selectedWindow sel = -1)
  \/ (0 <= selectedWindow sel
      /\ firstLeast_ sel (admitted_ (noSelection zeroWorkerResources) acceptable)).
Proof using counters_small.
  intros Hscan.
  pose proof (selects_scan acceptable (noSelection zeroWorkerResources) [] sel) as H.
  simpl in H.
  destruct H as [(Hn & Hs & _) | Hfl]; [left; auto | exact Hscan | left; auto | right].
  split; [| exact Hfl].
  destruct Hfl as (pre & post & ow & _ & Hi & _). apply index_Some in Hi. tauto.
Qed.

End Scan.

(** *** Removing the placed tasks *)

Lemma keepFrom_none o rm q :
  (forall x, x ∈ rm -> x < o) -> keepFrom o rm q = q.
Proof.
  revert o. induction q as [| x q IH]; intros o H; simpl; [reflexivity |].
  rewrite decide_False.
  - f_equal. apply IH. intros y Hy. specialize (H y Hy). lia.
  - intros Hin. specialize (H o Hin). lia.
Qed.

Lemma keepFrom_delete q o (i : nat) rm :
  (forall x, x ∈ rm -> x < o + Z.of_nat i) ->
  (i < length q)%nat ->
  keepFrom o rm (delete i q) = keepFrom o (rm ++ [o + Z.of_nat i]) q.
Proof.
  revert o i. induction q as [| x q IH]; intros o i Hrm Hi; simpl in Hi; [lia |].
  destruct i as [| i]; simpl.
  - rewrite decide_True by (apply elem_of_app; right; apply list_elem_of_singleton; lia).
    rewrite !keepFrom_none; [reflexivity | |].
    + intros y Hy. apply elem_of_app in Hy. destruct Hy as [Hy | Hy].
      * specialize (Hrm y Hy). lia.
      * apply list_elem_of_singleton in Hy. lia.
    + intros y Hy. specialize (Hrm y Hy). lia.
  - assert (Heq : o + Z.of_nat (S i) = (o + 1) + Z.of_nat i) by lia.
    rewrite Heq.
    assert (Hiff : o ∈ rm ++ [o + 1 + Z.of_nat i] <-> o ∈ rm).
    { rewrite elem_of_app, list_elem_of_singleton. split; [| auto].
      intros [? | ?]; [assumption | lia]. }
    destruct (decide (o ∈ rm)) as [Hin | Hnin].
    + rewrite decide_True by (apply Hiff, Hin).
      apply IH; [| lia]. intros y Hy. specialize (Hrm y Hy). lia.
    + rewrite decide_False by (rewrite Hiff; exact Hnin).
      f_equal. apply IH; [| lia]. intros y Hy. specialize (Hrm y Hy). lia.
Qed.

(** Removing the listed positions from the last to the first removes exactly
    the listed entries and keeps the others in their order. *)
Lemma removeAll_unplaced rrm q :
  StronglySorted Z.gt rrm ->
  Forall (fun x => 0 <= x < Z.of_nat (length q)) rrm ->
  removeAll q rrm = Some (unplaced (reverse rrm) q).
Proof.
  revert q. induction rrm as [| i rest IH]; intros q Hs Hr.
  - simpl. unfold unplaced. rewrite keepFrom_none; [reflexivity |].
    intros x Hx. inversion Hx.
  - apply StronglySorted_inv in Hs. destruct Hs as [Hs Hgt].
    apply Forall_cons in Hr. destruct Hr as [Hi Hr].
    simpl. unfold Remove. rewrite decide_True by exact Hi. simpl.
    rewrite IH; [| exact Hs |].
    + f_equal. unfold unplaced. rewrite reverse_cons.
      replace i with (0 + Z.of_nat (Z.to_nat i)) at 2 by lia.
      apply keepFrom_delete; [| lia].
      intros x Hx. rewrite elem_of_reverse in Hx.
      rewrite Forall_forall in Hgt. specialize (Hgt x Hx). lia.
    + rewrite length_delete by (apply lookup_lt_is_Some; lia).
      rewrite Forall_forall in Hgt, Hr |- *. intros x Hx.
      specialize (Hgt x Hx). specialize (Hr x Hx). lia.
Qed.

Section Pass.

Context {WorkerResources Resources ActiveResources : Type}.
Variable zeroWorkerResources : WorkerResources.
Variable ResourceSpec : WorkerResources -> Z -> string -> Resources.
Variable CanHandleRequest :
  ActiveResources -> Resources -> WorkerID -> string -> WorkerInfo WorkerResources -> bool.

Variable sh : Scheduler WorkerResources.
Variable acceptableWindows : list (list Z).
Variable ws0 : list (SchedWindow ActiveResources).

Local Abbreviation scan := (scanWindows ResourceSpec CanHandleRequest sh).
Local Abbreviation admitted_ := (admitted ResourceSpec CanHandleRequest sh).
Local Abbreviation step :=
  (assignTask zeroWorkerResources ResourceSpec CanHandleRequest sh acceptableWindows).
Local Abbreviation steps :=
  (assignTasks zeroWorkerResources ResourceSpec CanHandleRequest sh acceptableWindows).

Lemma assignTask_cases p sqi p' :
  step p sqi = Some p' ->
  exists task acceptable sel,
    index (SchedQueue sh) sqi = Some task
    /\ index acceptableWindows (IndexHeap task) = Some acceptable
    /\ scan (windows p) (workerAssigned p) task (noSelection zeroWorkerResources) acceptable
       = Some sel
    /\ ((selectedWindow sel < 0 /\ p' = p)
        \/ (0 <= selectedWindow sel
            /\ exists win, index (windows p) (selectedWindow sel) = Some win
                           /\ p' = placedPass p sqi task sel win)).
Proof.
  unfold assignTask. intros H.
  destruct (index (SchedQueue sh) sqi) as [task |] eqn:Htask; simpl in H; [| discriminate].
  destruct (index acceptableWindows (IndexHeap task)) as [acceptable |] eqn:Hacc;
    simpl in H; [| discriminate].
  destruct (scan _ _ _ _ _) as [sel |] eqn:Hscan; simpl in H; [| discriminate].
  exists task, acceptable, sel.
  split; [reflexivity |]. split; [exact Hacc |]. split; [exact Hscan |].
  destruct (selectedWindow sel <? 0) eqn:Hneg.
  - apply Z.ltb_lt in Hneg. injection H as <-. left. auto.
  - apply Z.ltb_ge in Hneg. right. split; [exact Hneg |].
    unfold appendTodo in H.
    destruct (index (windows p) (selectedWindow sel)) as [win |] eqn:Hwin; simpl in H;
      [| discriminate].
    injection H as <-. exists win. split; reflexivity.
Qed.

Local Abbreviation PassInv_ := (PassInv sh ws0).

Lemma PassInv_initial : PassInv_ 0 (initialPass ws0) [].
Proof.
  split; simpl; try reflexivity; try lia.
  - constructor.
  - constructor.
  - intros j win H. rewrite H, app_nil_r. destruct win; reflexivity.
Qed.

Lemma placedWith_le wid placed :
  0 <= placedWith sh wid placed <= Z.of_nat (length placed).
Proof.
  unfold placedWith. pose proof (List.filter_length_le
    (fun pl : Z * Z =>
       match index (OpenWindows sh) pl.2 with
       | Some ow => bool_decide (Worker ow = wid)
       | None => false
       end) placed). lia.
Qed.

Lemma placedWith_snoc wid placed sqi wnd ow :
  index (OpenWindows sh) wnd = Some ow ->
  placedWith sh wid (placed ++ [(sqi, wnd)])
    = placedWith sh wid placed + (if decide (Worker ow = wid) then 1 else 0).
Proof.
  intros Hi. unfold placedWith. rewrite List.filter_app, length_app. simpl.
  rewrite Hi. case_decide as Hd.
  - rewrite bool_decide_eq_true_2 by exact Hd. simpl. lia.
  - rewrite bool_decide_eq_false_2 by exact Hd. simpl. lia.
Qed.

Lemma placedOn_snoc j placed sqi wnd task :
  index (SchedQueue sh) sqi = Some task ->
  placedOn sh j (placed ++ [(sqi, wnd)])
    = placedOn sh j placed ++ (if decide (wnd = j) then [task] else []).
Proof.
  intros Hi. unfold placedOn. rewrite omap_app. f_equal. simpl.
  case_decide; [rewrite Hi |]; reflexivity.
Qed.

Lemma assigned_insert (wa : gmap WorkerID Z) wid wid' c :
  assigned (<[wid := c]> wa) wid' = if decide (wid = wid') then c else assigned wa wid'.
Proof.
  unfold assigned. rewrite lookup_insert. case_decide; reflexivity.
Qed.

Lemma PassInv_counters_small n p placed :
  PassInv_ n p placed -> n < MaxInt ->
  forall wid, assigned (workerAssigned p) wid < MaxInt.
Proof.
  intros Hinv Hn wid. rewrite (inv_counters _ _ _ _ _ Hinv).
  pose proof (placedWith_le wid placed). pose proof (inv_count _ _ _ _ _ Hinv). lia.
Qed.

(** One task: either nothing changes, or the task is placed on the window
    that the scan selected. *)
Lemma PassInv_step n p placed p' :
  PassInv_ n p placed -> 0 <= n < MaxInt ->
  step p n = Some p' ->
  (p' = p /\ PassInv_ (n + 1) p' placed)
  \/ (exists wnd, PassInv_ (n + 1) p' (placed ++ [(n, wnd)])).
Proof.
  intros Hinv Hn Hstep.
  destruct (assignTask_cases _ _ _ Hstep)
    as (task & acceptable & sel & Htask & Hacc & Hscan & Hcases).
  assert (Hweak : Forall (fun pl : Z * Z =>
                            0 <= pl.1 < n + 1 /\ is_Some (index (SchedQueue sh) pl.1)
                            /\ is_Some (index (OpenWindows sh) pl.2)) placed).
  { eapply Forall_impl; [apply (inv_range _ _ _ _ _ Hinv) |]. simpl.
    intros pl (? & ? & ?). repeat split; try assumption; lia. }
  destruct Hcases as [[Hneg ->] | (Hpos & win & Hwin & ->)].
  - left. split; [reflexivity |]. destruct Hinv. split; try assumption. lia.
  - right. exists (selectedWindow sel).
    pose proof (PassInv_counters_small _ _ _ Hinv ltac:(lia)) as Hsmall.
    destruct (scanWindows_first_least zeroWorkerResources ResourceSpec CanHandleRequest
                sh (windows p) (workerAssigned p) task Hsmall acceptable sel Hscan)
      as [[_ Hm] | [_ Hfl]]; [lia |].
    destruct Hfl as (pre & post & ow & _ & How & Hbw & _).
    pose proof (inv_count _ _ _ _ _ Hinv) as Hcount.
    unfold MaxInt, Int64.MaxInt64 in Hn.
    split; simpl.
    + rewrite fmap_app, (inv_rmQueue _ _ _ _ _ Hinv). reflexivity.
    + rewrite (inv_scheduled _ _ _ _ _ Hinv), length_app. simpl.
      rewrite Int64Facts.add_no_overflow
        by (unfold Int64.in_range, Int64.MinInt64, Int64.MaxInt64; lia).
      lia.
    + rewrite length_app. simpl. lia.
    + apply Forall_app. split; [exact Hweak |].
      constructor; [simpl; eauto with lia | constructor].
    + rewrite fmap_app. simpl. rewrite reverse_snoc.
      apply SSorted_cons; [apply (inv_sorted _ _ _ _ _ Hinv) |].
      apply Forall_reverse, Forall_fmap.
      eapply Forall_impl; [apply (inv_range _ _ _ _ _ Hinv) |]. simpl.
      intros pl (? & _). lia.
    + rewrite length_insert. apply (inv_length _ _ _ _ _ Hinv).
    + intros j win0 Hj.
      pose proof (inv_todo _ _ _ _ _ Hinv j win0 Hj) as Hold.
      rewrite (placedOn_snoc _ _ _ _ _ Htask).
      apply index_Some in Hold. destruct Hold as [Hj0 Hold].
      apply index_Some. split; [exact Hj0 |].
      case_decide as Hd.
      * subst j. apply index_Some in Hwin. destruct Hwin as [_ Hwin].
        rewrite Hwin in Hold. injection Hold as ->.
        rewrite list_lookup_insert_eq by (eapply lookup_lt_Some; exact Hwin).
        unfold withTodo. simpl. rewrite app_assoc. reflexivity.
      * rewrite list_lookup_insert_ne by lia. rewrite app_nil_r. exact Hold.
    + intros wid. rewrite assigned_insert, (placedWith_snoc _ _ _ _ _ How), <- Hbw.
      case_decide as Hd.
      * subst wid. rewrite (inv_counters _ _ _ _ _ Hinv).
        pose proof (placedWith_le (bestWid sel) placed).
        rewrite Int64Facts.add_no_overflow
          by (unfold Int64.in_range, Int64.MinInt64, Int64.MaxInt64; lia).
        reflexivity.
      * rewrite (inv_counters _ _ _ _ _ Hinv). lia.
Qed.

Lemma PassInv_steps (k : nat) n p placed p' :
  PassInv_ n p placed -> 0 <= n -> n + Z.of_nat k <= MaxInt ->
  steps p (seqZ n (Z.of_nat k)) = Some p' ->
  exists placed', PassInv_ (n + Z.of_nat k) p' placed'.
Proof.
  revert n p placed. induction k as [| k IH]; intros n p placed Hinv H0 Hmax Hsteps.
  - simpl in Hsteps. injection Hsteps as <-. exists placed.
    replace (n + Z.of_nat 0) with n by lia. exact Hinv.
  - rewrite seqZ_cons in Hsteps by lia. simpl in Hsteps.
    destruct (step p n) as [p1 |] eqn:Hstep; simpl in Hsteps; [| discriminate].
    replace (Z.pred (Z.of_nat (S k))) with (Z.of_nat k) in Hsteps by lia.
    replace (n + Z.of_nat (S k)) with (Z.succ n + Z.of_nat k) by lia.
    destruct (PassInv_step n p placed p1 Hinv ltac:(lia) Hstep) as [[_ Hinv1] | [wnd Hinv1]];
      (eapply IH; [| | | exact Hsteps]; [replace (Z.succ n) with (n + 1) by lia; exact Hinv1 | lia | lia]).
Qed.

Lemma assignTasks_app p l1 l2 :
  steps p (l1 ++ l2) = (p1 ← steps p l1; steps p1 l2).
Proof.
  revert p. induction l1 as [| x l1 IH]; intros p; simpl; [reflexivity |].
  destruct (step p x) as [p1 |]; simpl; [apply IH | reflexivity].
Qed.

(** The scan of a whole queue. *)
Lemma scanQueue_inv queueLen p :
  queueLen <= MaxInt ->
  scanQueue zeroWorkerResources ResourceSpec CanHandleRequest sh queueLen
    acceptableWindows ws0 = Some p ->
  0 <= queueLen /\ exists placed, PassInv_ queueLen p placed.
Proof.
  unfold scanQueue. intros Hmax H. case_decide as H0; [| discriminate].
  split; [exact H0 |].
  destruct (PassInv_steps (Z.to_nat queueLen) 0 (initialPass ws0) [] p) as [placed Hinv];
    [apply PassInv_initial | lia | lia | rewrite Z2Nat.id by lia; exact H |].
  replace (0 + Z.of_nat (Z.to_nat queueLen)) with queueLen in Hinv by lia.
  eauto.
Qed.

(** The state of the pass when it reaches queue position [n]. *)
Lemma scanQueue_prefix queueLen pfin n :
  queueLen <= MaxInt ->
  scanQueue zeroWorkerResources ResourceSpec CanHandleRequest sh queueLen
    acceptableWindows ws0 = Some pfin ->
  0 <= n < queueLen ->
  exists p placed p1,
    steps (initialPass ws0) (seqZ 0 n) = Some p
    /\ PassInv_ n p placed
    /\ step p n = Some p1.
Proof.
  unfold scanQueue. intros Hmax H Hn. case_decide as H0; [| discriminate].
  replace queueLen with (n + (queueLen - n)) in H by lia.
  rewrite seqZ_app, assignTasks_app in H by lia.
  destruct (steps (initialPass ws0) (seqZ 0 n)) as [p |] eqn:Hp; simpl in H;
    [| discriminate].
  rewrite seqZ_cons in H by lia. simpl in H.
  destruct (step p (0 + n)) as [p1 |] eqn:Hstep; simpl in H; [| discriminate].
  replace (0 + n) with n in Hstep by lia.
  destruct (PassInv_steps (Z.to_nat n) 0 (initialPass ws0) [] p) as [placed Hinv];
    [apply PassInv_initial | lia | lia | rewrite Z2Nat.id by lia; exact Hp |].
  replace (0 + Z.of_nat (Z.to_nat n)) with n in Hinv by lia.
  eauto 10.
Qed.

Local Abbreviation chosen_ :=
  (chosen zeroWorkerResources ResourceSpec CanHandleRequest sh acceptableWindows ws0).
Local Abbreviation passedOver_ :=
  (passedOver zeroWorkerResources ResourceSpec CanHandleRequest sh acceptableWindows ws0).

(** One task, with the selection of its scan: either the scan ended without
    a window and nothing is placed, or the task is placed on the window in
    [selectedWindow], which the worker in [bestWid] owns. *)
Lemma PassInv_step_selected n p placed p' :
  PassInv_ n p placed -> 0 <= n < MaxInt ->
  step p n = Some p' ->
  exists task acceptable sel,
    index (SchedQueue sh) n = Some task
    /\ index acceptableWindows (IndexHeap task) = Some acceptable
    /\ scan (windows p) (workerAssigned p) task (noSelection zeroWorkerResources)
         acceptable = Some sel
    /\ ((selectedWindow sel < 0 /\ PassInv_ (n + 1) p' placed)
        \/ (exists ow,
              index (OpenWindows sh) (selectedWindow sel) = Some ow
              /\ bestWid sel = Worker ow
              /\ PassInv_ (n + 1) p' (placed ++ [(n, selectedWindow sel)]))).
Proof.
  intros Hinv Hn Hstep.
  destruct (assignTask_cases _ _ _ Hstep)
    as (task & acceptable & sel & Htask & Hacc & Hscan & Hcases).
  exists task, acceptable, sel.
  split; [exact Htask |]. split; [exact Hacc |]. split; [exact Hscan |].
  assert (Hweak : Forall (fun pl : Z * Z =>
                            0 <= pl.1 < n + 1 /\ is_Some (index (SchedQueue sh) pl.1)
                            /\ is_Some (index (OpenWindows sh) pl.2)) placed).
  { eapply Forall_impl; [apply (inv_range _ _ _ _ _ Hinv) |]. simpl.
    intros pl (? & ? & ?). repeat split; try assumption; lia. }
  destruct Hcases as [[Hneg ->] | (Hpos & win & Hwin & ->)].
  - left. split; [exact Hneg |]. destruct Hinv. split; try assumption. lia.
  - right.
    pose proof (PassInv_counters_small _ _ _ Hinv ltac:(lia)) as Hsmall.
    destruct (scanWindows_first_least zeroWorkerResources ResourceSpec CanHandleRequest
                sh (windows p) (workerAssigned p) task Hsmall acceptable sel Hscan)
      as [[_ Hm] | [_ Hfl]]; [lia |].
    destruct Hfl as (pre & post & ow & _ & How & Hbw & _).
    exists ow. split; [exact How |]. split; [exact Hbw |].
    pose proof (inv_count _ _ _ _ _ Hinv) as Hcount.
    unfold MaxInt, Int64.MaxInt64 in Hn.
    split; simpl.
    + rewrite fmap_app, (inv_rmQueue _ _ _ _ _ Hinv). reflexivity.
    + rewrite (inv_scheduled _ _ _ _ _ Hinv), length_app. simpl.
      rewrite Int64Facts.add_no_overflow
        by (unfold Int64.in_range, Int64.MinInt64, Int64.MaxInt64; lia).
      lia.
    + rewrite length_app. simpl. lia.
    + apply Forall_app. split; [exact Hweak |].
      constructor; [simpl; eauto with lia | constructor].
    + rewrite fmap_app. simpl. rewrite reverse_snoc.
      apply SSorted_cons; [apply (inv_sorted _ _ _ _ _ Hinv) |].
      apply Forall_reverse, Forall_fmap.
      eapply Forall_impl; [apply (inv_range _ _ _ _ _ Hinv) |]. simpl.
      intros pl (? & _). lia.
    + rewrite length_insert. apply (inv_length _ _ _ _ _ Hinv).
    + intros j win0 Hj.
      pose proof (inv_todo _ _ _ _ _ Hinv j win0 Hj) as Hold.
      rewrite (placedOn_snoc _ _ _ _ _ Htask).
      apply index_Some in Hold. destruct Hold as [Hj0 Hold].
      apply index_Some. split; [exact Hj0 |].
      case_decide as Hd.
      * subst j. apply index_Some in Hwin. destruct Hwin as [_ Hwin].
        rewrite Hwin in Hold. injection Hold as ->.
        rewrite list_lookup_insert_eq by (eapply lookup_lt_Some; exact Hwin).
        unfold withTodo. simpl. rewrite app_assoc. reflexivity.
      * rewrite list_lookup_insert_ne by lia. rewrite app_nil_r. exact Hold.
    + intros wid. rewrite assigned_insert, (placedWith_snoc _ _ _ _ _ How), <- Hbw.
      case_decide as Hd.
      * subst wid. rewrite (inv_counters _ _ _ _ _ Hinv).
        pose proof (placedWith_le (bestWid sel) placed).
        rewrite Int64Facts.add_no_overflow
          by (unfold Int64.in_range, Int64.MinInt64, Int64.MaxInt64; lia).
        reflexivity.
      * rewrite (inv_counters _ _ _ _ _ Hinv). lia.
Qed.

(** The placements of a scan are the choices of its inner loop: every
    placement is the window that the scan of that task selected, and a task
    that is not placed is one for which the scan selected nothing. *)
Lemma scan_chosen (k : nat) p :
  Z.of_nat k <= MaxInt ->
  steps (initialPass ws0) (seqZ 0 (Z.of_nat k)) = Some p ->
  exists placed,
    PassInv_ (Z.of_nat k) p placed
    /\ Forall chosen_ placed
    /\ forall n, 0 <= n < Z.of_nat k -> n ∉ placed.*1 -> passedOver_ n.
Proof.
  revert p. induction k as [| k IH]; intros p Hmax Hsteps.
  - simpl in Hsteps. injection Hsteps as <-. exists [].
    split; [apply PassInv_initial |]. split; [constructor |]. intros n Hn. lia.
  - replace (Z.of_nat (S k)) with (Z.of_nat k + 1) in * by lia.
    rewrite seqZ_app, assignTasks_app in Hsteps by lia.
    destruct (steps (initialPass ws0) (seqZ 0 (Z.of_nat k))) as [pk |] eqn:Hpk;
      [| discriminate].
    change (seqZ (0 + Z.of_nat k) 1) with [0 + Z.of_nat k] in Hsteps.
    simpl in Hsteps.
    destruct (step pk (0 + Z.of_nat k)) as [p1 |] eqn:Hstep; simpl in Hsteps;
      [| discriminate].
    injection Hsteps as <-.
    replace (0 + Z.of_nat k) with (Z.of_nat k) in Hstep by lia.
    destruct (IH pk ltac:(lia) eq_refl) as (placed & Hinv & Hch & Hpass).
    destruct (PassInv_step_selected _ _ _ _ Hinv ltac:(lia) Hstep)
      as (task & acceptable & sel & Htask & Hacc & Hscan & Hcases).
    assert (Hat : selectedAt zeroWorkerResources ResourceSpec CanHandleRequest sh
                    acceptableWindows ws0 (Z.of_nat k) sel)
      by (exists pk, task, acceptable; auto).
    destruct Hcases as [[Hneg Hinv1] | (ow & How & Hbw & Hinv1)].
    + exists placed. split; [exact Hinv1 |]. split; [exact Hch |].
      intros n Hn Hnot. destruct (decide (n = Z.of_nat k)) as [-> | Hne].
      * exists sel. auto.
      * apply Hpass; [lia | exact Hnot].
    + exists (placed ++ [(Z.of_nat k, selectedWindow sel)]).
      split; [exact Hinv1 |]. split.
      * apply Forall_app. split; [exact Hch |].
        constructor; [| constructor]. exists sel, ow. simpl. auto.
      * intros n Hn Hnot. rewrite fmap_app in Hnot. simpl in Hnot.
        apply not_elem_of_app in Hnot. destruct Hnot as [Hnot Hne].
        apply not_elem_of_cons in Hne. destruct Hne as [Hne _].
        apply Hpass; [lia | exact Hnot].
Qed.

(** What the scan selects.  In a pass that returns, take any queue position
    [n].  The pass has handled the positions before [n] in their order; the
    counters it holds then are, for every worker, the number of tasks it has
    placed on that worker so far in this pass.  Among the candidates that its
    own call of the admission test let through, a call made on the variable
    [info] and not on the worker of the candidate, the scan selects the first
    one whose worker has the least counter, and nothing when the call let
    none through. *)
Theorem spread_selects_first_least_loaded (queueLen : Z) (pfin : pass ActiveResources)
    (n : Z) :
  queueLen <= MaxInt ->
  scanQueue zeroWorkerResources ResourceSpec CanHandleRequest sh queueLen
    acceptableWindows ws0 = Some pfin ->
  0 <= n < queueLen ->
  workerAssigned (initialPass ws0) = ∅
  /\ exists p placed task acceptable sel,
       steps (initialPass ws0) (seqZ 0 n) = Some p
       /\ rmQueue p = placed.*1
       /\ (forall wid, assigned (workerAssigned p) wid = placedWith sh wid placed)
       /\ index (SchedQueue sh) n = Some task
       /\ index acceptableWindows (IndexHeap task) = Some acceptable
       /\ scan (windows p) (workerAssigned p) task (noSelection zeroWorkerResources)
            acceptable = Some sel
       /\ ((admitted_ (windows p) (workerAssigned p) task
               (noSelection zeroWorkerResources) acceptable = []
            /\ selectedWindow sel = -1)
           \/ (0 <= selectedWindow sel
               /\ firstLeast sh (workerAssigned p) sel
                    (admitted_ (windows p) (workerAssigned p) task
                       (noSelection zeroWorkerResources) acceptable))).
Proof.
  intros Hmax Hfin Hn. split; [reflexivity |].
  destruct (scanQueue_prefix queueLen pfin n Hmax Hfin Hn)
    as (p & placed & p1 & Hp & Hinv & Hstep).
  destruct (assignTask_cases _ _ _ Hstep)
    as (task & acceptable & sel & Htask & Hacc & Hscan & _).
  exists p, placed, task, acceptable, sel.
  split; [exact Hp |]. split; [apply (inv_rmQueue _ _ _ _ _ Hinv) |].
  split; [apply (inv_counters _ _ _ _ _ Hinv) |].
  split; [exact Htask |]. split; [exact Hacc |]. split; [exact Hscan |].
  eapply scanWindows_first_least; [| exact Hscan].
  eapply PassInv_counters_small; [exact Hinv | lia].
Qed.

(** C8. When [SpreadWS] returns, there is a list of placements, pairs of a
    queue position and a window in the order of the scan, such that: every
    placement is the choice of the scan, the window that the inner loop
    selected for that task, owned by the worker in [bestWid]; a task of the
    first [queueLen] that is not among them is one for which the scan
    selected no window; the returned count is their number; the queue has
    lost exactly the entries at the placed positions and keeps the others in
    their order; every window has its former pending list followed by the
    tasks placed on it; and the counter of every worker is the number of
    placements on its windows. *)
Theorem SpreadWS_places_and_removes (queueLen : Z) (count : Z)
    (sh' : Scheduler WorkerResources) (ws' : list (SchedWindow ActiveResources)) :
  queueLen <= MaxInt ->
  SpreadWS zeroWorkerResources ResourceSpec CanHandleRequest sh queueLen
    acceptableWindows ws0 = Some (count, sh', ws') ->
  exists p placed,
    scanQueue zeroWorkerResources ResourceSpec CanHandleRequest sh queueLen
      acceptableWindows ws0 = Some p
    /\ Forall chosen_ placed
    /\ (forall n, 0 <= n < queueLen -> n ∉ placed.*1 -> passedOver_ n)
    /\ rmQueue p = placed.*1
    /\ Forall (fun pl : Z * Z =>
                 0 <= pl.1 < queueLen /\ is_Some (index (SchedQueue sh) pl.1)
                 /\ is_Some (index (OpenWindows sh) pl.2)) placed
    /\ StronglySorted Z.gt (reverse (placed.*1))
    /\ count = Z.of_nat (length placed)
    /\ SchedQueue sh' = unplaced (placed.*1) (SchedQueue sh)
    /\ OpenWindows sh' = OpenWindows sh
    /\ Workers sh' = Workers sh
    /\ length ws' = length ws0
    /\ (forall j win, index ws0 j = Some win ->
          index ws' j
            = Some (mkSchedWindow (Allocated win) (Todo win ++ placedOn sh j placed)))
    /\ (forall wid, assigned (workerAssigned p) wid = placedWith sh wid placed).
Proof.
  intros Hmax H. unfold SpreadWS in H.
  destruct (scanQueue _ _ _ _ _ _ _) as [p |] eqn:Hp; simpl in H; [| discriminate].
  assert (Hscan : 0 <= queueLen
                  /\ steps (initialPass ws0) (seqZ 0 queueLen) = Some p).
  { unfold scanQueue in Hp. case_decide as H0; [| discriminate]. auto. }
  destruct Hscan as [H0 Hsteps].
  destruct (scan_chosen (Z.to_nat queueLen) p) as (placed & Hinv & Hch & Hpass);
    [lia | rewrite Z2Nat.id by lia; exact Hsteps |].
  rewrite Z2Nat.id in Hinv, Hpass by lia.
  assert (Hrm : removeAll (SchedQueue sh) (reverse (rmQueue p))
                = Some (unplaced (rmQueue p) (SchedQueue sh))).
  { rewrite <- (reverse_involutive (rmQueue p)) at 2.
    apply removeAll_unplaced.
    - rewrite (inv_rmQueue _ _ _ _ _ Hinv). apply (inv_sorted _ _ _ _ _ Hinv).
    - rewrite (inv_rmQueue _ _ _ _ _ Hinv). apply Forall_reverse, Forall_fmap.
      eapply Forall_impl; [apply (inv_range _ _ _ _ _ Hinv) |]. simpl.
      intros pl (_ & Hq & _). apply index_is_Some, Hq. }
  rewrite Hrm in H. simpl in H. injection H as <- <- <-.
  exists p, placed. split; [reflexivity |]. split; [exact Hch |]. split; [exact Hpass |].
  destruct Hinv. simpl.
  repeat split; try assumption; try reflexivity.
  rewrite inv_rmQueue0. reflexivity.
Qed.

(** [SpreadWS] returns whenever the scan of the queue does: removing the
    placed tasks cannot fail. *)
Lemma SpreadWS_returns queueLen p :
  queueLen <= MaxInt ->
  scanQueue zeroWorkerResources ResourceSpec CanHandleRequest sh queueLen
    acceptableWindows ws0 = Some p ->
  SpreadWS zeroWorkerResources ResourceSpec CanHandleRequest sh queueLen
    acceptableWindows ws0
  = Some (scheduled p,
          mkScheduler (unplaced (rmQueue p) (SchedQueue sh)) (OpenWindows sh) (Workers sh),
          windows p).
Proof.
  intros Hmax Hp. unfold SpreadWS. rewrite Hp. simpl.
  destruct (scanQueue_inv queueLen p Hmax Hp) as [H0 [placed Hinv]].
  rewrite <- (reverse_involutive (rmQueue p)) at 2.
  rewrite removeAll_unplaced; [reflexivity | |].
  - rewrite (inv_rmQueue _ _ _ _ _ Hinv). apply (inv_sorted _ _ _ _ _ Hinv).
  - rewrite (inv_rmQueue _ _ _ _ _ Hinv). apply Forall_reverse, Forall_fmap.
    eapply Forall_impl; [apply (inv_range _ _ _ _ _ Hinv) |]. simpl.
    intros pl (_ & Hq & _). apply index_is_Some, Hq.
Qed.

(** A task for which the scan selects no window stays where it is, and the
    pass goes on. *)
Lemma assignTask_no_window p sqi task acceptable sel :
  index (SchedQueue sh) sqi = Some task ->
  index acceptableWindows (IndexHeap task) = Some acceptable ->
  scan (windows p) (workerAssigned p) task (noSelection zeroWorkerResources) acceptable
    = Some sel ->
  selectedWindow sel < 0 ->
  step p sqi = Some p.
Proof.
  intros Ht Ha Hs Hneg. unfold assignTask. rewrite Ht. simpl. rewrite Ha. simpl.
  rewrite Hs. simpl. apply Z.ltb_lt in Hneg. rewrite Hneg. reflexivity.
Qed.

(** The admission test of a candidate is given the request and the worker
    information of the variable [info], which holds the zero value until a
    window is selected and the information of the selected worker after
    that; the information of the candidate's own worker is not consulted. *)
Lemma admits_uses_info_of_selection (ws : list (SchedWindow ActiveResources))
    (task : WorkerRequest) (st : selection WorkerResources) (wid : WorkerID) (wnd : Z)
    (win : SchedWindow ActiveResources) :
  index ws wnd = Some win ->
  admits ResourceSpec CanHandleRequest ws task st wid wnd =
    Some (CanHandleRequest (Allocated win)
            (ResourceSpec (WResources (info st)) (ProofType task) (TaskType task))
            wid "schedAssign" (info st)).
Proof. intros H. unfold admits. rewrite H. reflexivity. Qed.

End Pass.

Lemma spread_selects_first_least_loaded_witness :
  3 <= MaxInt
  /\ scanQueue tt Fleets.slotSpec Fleets.slotAdmits Fleets.threeWindows 3
       Fleets.anyOfThree Fleets.threeFreeWindows = Some Fleets.afterScan
  /\ 0 <= 1 < 3
  /\ exists p placed task acceptable sel,
       assignTasks tt Fleets.slotSpec Fleets.slotAdmits Fleets.threeWindows
         Fleets.anyOfThree (initialPass Fleets.threeFreeWindows) (seqZ 0 1) = Some p
       /\ rmQueue p = placed.*1
       /\ (forall wid,
             assigned (workerAssigned p) wid = placedWith Fleets.threeWindows wid placed)
       /\ index (SchedQueue Fleets.threeWindows) 1 = Some task
       /\ index Fleets.anyOfThree (IndexHeap task) = Some acceptable
       /\ scanWindows Fleets.slotSpec Fleets.slotAdmits Fleets.threeWindows
            (windows p) (workerAssigned p) task (noSelection tt) acceptable = Some sel
       /\ ((admitted Fleets.slotSpec Fleets.slotAdmits Fleets.threeWindows
               (windows p) (workerAssigned p) task (noSelection tt) acceptable = []
            /\ selectedWindow sel = -1)
           \/ (0 <= selectedWindow sel
               /\ firstLeast Fleets.threeWindows (workerAssigned p) sel
                    (admitted Fleets.slotSpec Fleets.slotAdmits Fleets.threeWindows
                       (windows p) (workerAssigned p) task (noSelection tt) acceptable))).
Proof.
  assert (H1 : 3 <= MaxInt) by (vm_compute; discriminate).
  assert (H2 : scanQueue tt Fleets.slotSpec Fleets.slotAdmits Fleets.threeWindows 3
                 Fleets.anyOfThree Fleets.threeFreeWindows = Some Fleets.afterScan)
    by (vm_compute; reflexivity).
  assert (H3 : 0 <= 1 < 3) by lia.
  split; [exact H1 |]. split; [exact H2 |]. split; [exact H3 |].
  exact (proj2 (spread_selects_first_least_loaded tt Fleets.slotSpec Fleets.slotAdmits
                  Fleets.threeWindows Fleets.anyOfThree Fleets.threeFreeWindows
                  3 Fleets.afterScan 1 H1 H2 H3)).
Defined.

(** On [threeWindows] the scan for the second task ends on window 2. *)
Example spread_prefers_idle_worker :
  assignTasks tt Fleets.slotSpec Fleets.slotAdmits Fleets.threeWindows
    Fleets.anyOfThree (initialPass Fleets.threeFreeWindows) (seqZ 0 1)
  = Some Fleets.afterFirstTask
  /\ admitted Fleets.slotSpec Fleets.slotAdmits Fleets.threeWindows
       (windows Fleets.afterFirstTask) (workerAssigned Fleets.afterFirstTask)
       (Fleets.precommit1 2 1) (noSelection tt) [0; 1; 2] = [0; 1; 2]
  /\ scanWindows Fleets.slotSpec Fleets.slotAdmits Fleets.threeWindows
       (windows Fleets.afterFirstTask) (workerAssigned Fleets.afterFirstTask)
       (Fleets.precommit1 2 1) (noSelection tt) [0; 1; 2]
     = Some Fleets.secondSelection.
Proof. vm_compute. repeat split; reflexivity. Qed.

Lemma SpreadWS_places_and_removes_witness :
  3 <= MaxInt
  /\ SpreadWS tt Fleets.slotSpec Fleets.slotAdmits Fleets.threeWindows 3
       Fleets.anyOfThree Fleets.threeFreeWindows
     = Some (2,
             mkScheduler [Fleets.precommit1 3 2] (OpenWindows Fleets.threeWindows)
               (Workers Fleets.threeWindows),
             windows Fleets.afterScan)
  /\ exists p placed,
       scanQueue tt Fleets.slotSpec Fleets.slotAdmits Fleets.threeWindows 3
         Fleets.anyOfThree Fleets.threeFreeWindows = Some p
       /\ Forall (chosen tt Fleets.slotSpec Fleets.slotAdmits Fleets.threeWindows
                    Fleets.anyOfThree Fleets.threeFreeWindows) placed
       /\ (forall n, 0 <= n < 3 -> n ∉ placed.*1 ->
             passedOver tt Fleets.slotSpec Fleets.slotAdmits Fleets.threeWindows
               Fleets.anyOfThree Fleets.threeFreeWindows n)
       /\ rmQueue p = placed.*1
       /\ Forall (fun pl : Z * Z =>
                    0 <= pl.1 < 3
                    /\ is_Some (index (SchedQueue Fleets.threeWindows) pl.1)
                    /\ is_Some (index (OpenWindows Fleets.threeWindows) pl.2)) placed
       /\ StronglySorted Z.gt (reverse (placed.*1))
       /\ 2 = Z.of_nat (length placed)
       /\ [Fleets.precommit1 3 2] = unplaced (placed.*1) (SchedQueue Fleets.threeWindows)
       /\ OpenWindows Fleets.threeWindows = OpenWindows Fleets.threeWindows
       /\ Workers Fleets.threeWindows = Workers Fleets.threeWindows
       /\ length (windows Fleets.afterScan) = length Fleets.threeFreeWindows
       /\ (forall j win, index Fleets.threeFreeWindows j = Some win ->
             index (windows Fleets.afterScan) j
               = Some (mkSchedWindow (Allocated win)
                         (Todo win ++ placedOn Fleets.threeWindows j placed)))
       /\ (forall wid,
             assigned (workerAssigned p) wid = placedWith Fleets.threeWindows wid placed).
Proof.
  assert (H1 : 3 <= MaxInt) by (vm_compute; discriminate).
  assert (H2 : SpreadWS tt Fleets.slotSpec Fleets.slotAdmits Fleets.threeWindows 3
                 Fleets.anyOfThree Fleets.threeFreeWindows
               = Some (2,
                       mkScheduler [Fleets.precommit1 3 2] (OpenWindows Fleets.threeWindows)
                         (Workers Fleets.threeWindows),
                       windows Fleets.afterScan))
    by (vm_compute; reflexivity).
  split; [exact H1 |]. split; [exact H2 |].
  exact (SpreadWS_places_and_removes tt Fleets.slotSpec Fleets.slotAdmits
           Fleets.threeWindows Fleets.anyOfThree Fleets.threeFreeWindows
           3 2 _ _ H1 H2).
Defined.

(** C7, where the code departs from it.  Worker alpha has 64 units of memory,
    its window has none in use, and the task needs 8: the admission test of
    the window, given the request and the information of that worker,
    accepts.  The pass gives the test the zero-valued [info] instead of the
    information of the candidate's worker, so the test refuses, the window
    is rejected and the task stays in the queue. *)
Theorem spread_rejects_window_its_worker_admits :
  Fleets.memoryAdmits 0 (Fleets.memorySpec 64 8 "seal/v0/precommit/1") 1%N
    "schedAssign" (mkWorkerInfo "alpha" false 64) = true
  /\ admits Fleets.memorySpec Fleets.memoryAdmits Fleets.oneEmptyWindow
       (Fleets.precommit1 1 0) (noSelection 0) 1%N 0 = Some false
  /\ SpreadWS 0 Fleets.memorySpec Fleets.memoryAdmits Fleets.oneWorker 1 [[0]]
       Fleets.oneEmptyWindow
     = Some (0, Fleets.oneWorker, Fleets.oneEmptyWindow).
Proof. vm_compute. repeat split; reflexivity. Qed.

(** C6, where the code departs from it.  Worker beta has 4 units of memory,
    worker alpha has 64, and the task needs 8: of the two acceptable windows
    only window 1, on alpha, is feasible.  The scan tests window 0 with the
    zero-valued [info], which asks for nothing, and selects it; it then tests
    window 1 with the information of beta and rejects it.  So the task is
    placed on window 0, which is not among the feasible candidates, and the
    first feasible candidate, whose worker has the same counter, is passed
    over. *)
Theorem spread_selects_window_its_worker_rejects :
  List.filter (feasible Fleets.ownSpec Fleets.ownAdmits Fleets.twoWorkers
                 Fleets.twoEmptyWindows (Fleets.precommit1 1 0)) [0; 1] = [1]
  /\ windowLoad Fleets.twoWorkers ∅ 0 = windowLoad Fleets.twoWorkers ∅ 1
  /\ scanWindows Fleets.ownSpec Fleets.ownAdmits Fleets.twoWorkers
       Fleets.twoEmptyWindows ∅ (Fleets.precommit1 1 0) (noSelection (0, 0)) [0; 1]
     = Some (mkSelection 0 (mkWorkerInfo "beta" false (4, 8)) 2%N 0)
  /\ SpreadWS (0, 0) Fleets.ownSpec Fleets.ownAdmits Fleets.twoWorkers 1 [[0; 1]]
       Fleets.twoEmptyWindows
     = Some (1,
             mkScheduler [] (OpenWindows Fleets.twoWorkers) (Workers Fleets.twoWorkers),
             [mkSchedWindow 0 [Fleets.precommit1 1 0]; mkSchedWindow 0 []]).
Proof. vm_compute. repeat split; reflexivity. Qed.

End SpreadFacts.

(** ** The poller over a tick and over its whole run *)

Module PollerRunFacts.
Import lpseal PollerNotions RunNotions PollerFacts.

(** *** Relations that the stages of the polled records respect *)

Section Guarded.

Variable delay : Z.
Variable R : World -> World -> Prop.
Variable s : SealPoller.
Variable P : pollTask -> Prop.

Hypothesis R_refl : forall w, R w w.
Hypothesis R_trans : forall a b c, R a b -> R b c -> R a c.
Hypothesis R_log : forall msg e, preserves R (log_Errorw msg e).
Hypothesis R_head : preserves R (api_ChainHead (api s)).
Hypothesis R_register : forall p task ts,
  P task -> stageReady s ts p task = true ->
  preserves R (register s p task (stageClaim p task)).
Hypothesis R_precommit_landed : forall task h tsk,
  P task -> checksPrecommitMsgLanded task = true ->
  preserves R (db_Exec (where_precommit_landed task) (set_precommit_landed h tsk)).
Hypothesis R_commit_landed : forall task tsk,
  P task -> checksCommitMsgLanded s task = true ->
  preserves R (db_Exec (where_commit_landed task) (set_commit_landed tsk)).

Lemma guarded_pollTasks tasks :
  (forall t, In t (notFailed tasks) -> P t) ->
  preserves R (pollTasks delay s tasks).
Proof using All.
  induction tasks as [| task rest IH]; intros HP; simpl;
    [apply preserves_ret, R_refl |].
  rewrite notFailed_cons in HP.
  destruct (Failed task) eqn:Hf; [apply IH, HP |].
  apply preserves_bind; [exact R_trans | apply R_head |].
  intros [ts | err]; [| apply preserves_ret, R_refl].
  assert (Ht : P task) by (apply HP; left; reflexivity).
  apply preserves_bind;
    [exact R_trans | | intros _; apply IH; intros t Hin; apply HP; right; exact Hin].
  apply preserves_pollTaskStages;
    [ exact R_refl | exact R_trans | exact R_log
    | intros p Hr; apply (R_register p task ts Ht Hr)
    | intros h tsk Hc; apply R_precommit_landed; assumption
    | intros tsk Hc; apply R_commit_landed; assumption ].
Qed.

Lemma guarded_poll w :
  (forall t, In t (notFailed (polled (db w))) -> P t) ->
  R w (final (poll delay s w)).
Proof using All.
  intros HP. destruct (available (db w)) eqn:Ha.
  - rewrite poll_available by exact Ha. apply guarded_pollTasks, HP.
  - unfold poll, bind, db_Select, select_tasks. rewrite Ha. simpl. apply R_refl.
Qed.

Lemma guarded_pollLogged w :
  (forall t, In t (notFailed (polled (db w))) -> P t) ->
  R w (final (pollLogged delay s w)).
Proof using All.
  intros HP. pose proof (guarded_poll w HP) as H.
  unfold pollLogged, bind.
  destruct (poll delay s w) as [[[e |] w1] | w1]; simpl in H |- *; try exact H.
  eapply R_trans; [exact H | apply R_log].
Qed.

Lemma guarded_RunPoller signals :
  (forall t, P t) -> preserves R (RunPoller delay s signals).
Proof using All.
  intros HP. induction signals as [| [|] rest IH]; simpl;
    try (apply preserves_ret, R_refl).
  apply preserves_bind; [exact R_trans | | intros _; exact IH].
  intros w. apply guarded_pollLogged. intros t _. apply HP.
Qed.

End Guarded.

(** A registration respects [R] when noting the claim does and, once the
    handle is there, running the claim does. *)
Lemma preserves_register_set (R : World -> World -> Prop) s p task :
  (forall w, R w w) -> (forall a b c, R a b -> R b c -> R a c) ->
  preserves R (emit (EvClaim p (SpID task) (SectorNumber task))) ->
  (pollers s p = true -> preserves R (AddTask (stageClaim p task))) ->
  preserves R (register s p task (stageClaim p task)).
Proof.
  intros Hrefl Htrans Hemit Hclaim. unfold register.
  apply preserves_bind; [exact Htrans | exact Hemit | intros _].
  intros w. unfold bind, Val.
  destruct (pollers s p) eqn:E; [apply Hclaim; reflexivity | apply Hrefl].
Qed.

(** *** What a statement leaves of the database *)

Lemma Exec_db cond set d :
  (Exec cond set d).2 = d
  \/ (available d = true
      /\ (Exec cond set d).2
         = mkDB (updated cond set (sectors_sdr_pipeline d)) (message_waits d) true).
Proof.
  destruct (available d) eqn:Ha.
  - rewrite Exec_available by exact Ha. right. auto.
  - rewrite Exec_unavailable by exact Ha. left. reflexivity.
Qed.

Lemma AddTask_claim_db cond set w :
  db (final (AddTask (claim cond set) w)) = db w
  \/ (available (db w) = true
      /\ db (final (AddTask (claim cond set) w))
         = mkDB (updated cond (set (next_task w)) (sectors_sdr_pipeline (db w)))
             (message_waits (db w)) true).
Proof.
  destruct (available (db w)) eqn:Ha.
  - rewrite AddTask_claim_available by exact Ha.
    destruct (_ =? 1); [right; auto | left; reflexivity].
  - rewrite AddTask_claim_unavailable by exact Ha. left. reflexivity.
Qed.

Lemma step_related (Q : row -> row -> Prop) cond set (d d' : DB) :
  (forall r, Q r r) ->
  (forall r, cond r = true -> Q r (set r)) ->
  d' = d
  \/ (available d = true
      /\ d' = mkDB (updated cond set (sectors_sdr_pipeline d)) (message_waits d) true) ->
  Forall2 Q (sectors_sdr_pipeline d) (sectors_sdr_pipeline d')
  /\ message_waits d' = message_waits d
  /\ available d' = available d.
Proof.
  intros Hrefl Hset [-> | [Ha ->]]; simpl.
  - split; [apply Forall2_same, Hrefl | auto].
  - split; [apply Forall2_updated; assumption | auto].
Qed.

(** *** Columns that are only ever filled in *)

Lemma kept_refl {A} (o : option A) : kept o o.
Proof. intros a H. exact H. Qed.

Lemma kept_null {A} (o' : option A) : kept None o'.
Proof. intros a H. discriminate H. Qed.

Lemma kept_trans {A} (a b c : option A) : kept a b -> kept b c -> kept a c.
Proof. intros H1 H2 x Hx. apply H2, H1, Hx. Qed.

Lemma filled_in_refl r : filled_in r r.
Proof.
  split; try reflexivity; try apply kept_refl; try (intros H; exact H).
  unfold taskIds. repeat constructor; apply kept_refl.
Qed.

Lemma filled_in_trans a b c : filled_in a b -> filled_in b c -> filled_in a c.
Proof.
  intros [Hk1 Ht1 Hs1 Hp1 Hc1 Hr1] [Hk2 Ht2 Hs2 Hp2 Hc2 Hr2]. split.
  - congruence.
  - eapply Forall2_trans; [| exact Ht1 | exact Ht2]. intros x y z. apply kept_trans.
  - eapply kept_trans; eassumption.
  - intros H. apply Hp2, Hp1, H.
  - intros H. apply Hc2, Hc1, H.
  - congruence.
Qed.

(** A claim fills in the task-id columns of its stage, which its WHERE
    clause found null. *)
Lemma filled_in_claim p task id r :
  stageWhere p task r = true -> filled_in r (stageSet p id r).
Proof.
  intros H. pose proof (stageWhere_null p task r H) as Hnull.
  destruct p; simpl in Hnull;
    repeat match goal with
           | Hf : Forall _ (_ :: _) |- _ =>
               apply Forall_cons in Hf; let E := fresh "E" in destruct Hf as [E Hf]
           end;
    (split; simpl; try reflexivity; try apply kept_refl; try (intros Hb; exact Hb));
    unfold taskIds; simpl;
    repeat (constructor;
            try match goal with
                | E : ?c = None |- kept ?c _ => rewrite E; apply kept_null
                end;
            try apply kept_refl).
Qed.

Lemma filled_in_precommit_landed task h tsk r :
  where_precommit_landed task r = true -> filled_in r (set_precommit_landed h tsk r).
Proof.
  intros H. unfold where_precommit_landed in H. apply andb_true_iff in H.
  destruct H as [_ H]. apply is_null_true in H.
  split; simpl; try reflexivity.
  - unfold taskIds. simpl. repeat constructor; apply kept_refl.
  - rewrite H. apply kept_null.
  - intros _. reflexivity.
  - intros Hb. exact Hb.
Qed.

Lemma filled_in_commit_landed tsk r : filled_in r (set_commit_landed tsk r).
Proof.
  split; simpl; try reflexivity; try apply kept_refl.
  - unfold taskIds. simpl. repeat constructor; apply kept_refl.
  - intros Hb. exact Hb.
  - intros _. reflexivity.
Qed.

Lemma only_filled_in_refl w : only_filled_in w w.
Proof.
  split; [apply Forall2_same, filled_in_refl | auto].
Qed.

Lemma only_filled_in_trans a b c :
  only_filled_in a b -> only_filled_in b c -> only_filled_in a c.
Proof.
  intros (H1 & H2 & H3) (H4 & H5 & H6). split; [| split; congruence].
  eapply Forall2_trans; [| exact H1 | exact H4]. intros x y z. apply filled_in_trans.
Qed.

Lemma only_filled_in_same w w' : db w' = db w -> only_filled_in w w'.
Proof. intros H. unfold only_filled_in, rows_related. rewrite H. apply only_filled_in_refl. Qed.

Lemma only_filled_in_emit e : preserves only_filled_in (emit e).
Proof. intros w. apply only_filled_in_same. reflexivity. Qed.

Lemma only_filled_in_claim p task :
  preserves only_filled_in (AddTask (stageClaim p task)).
Proof.
  intros w. rewrite stageClaim_unfold.
  apply (step_related filled_in (stageWhere p task) (stageSet p (next_task w)));
    [apply filled_in_refl | apply filled_in_claim | apply AddTask_claim_db].
Qed.

Lemma only_filled_in_precommit_landed task h tsk :
  preserves only_filled_in
    (db_Exec (where_precommit_landed task) (set_precommit_landed h tsk)).
Proof.
  intros w. rewrite final_db_Exec.
  apply (step_related filled_in (where_precommit_landed task) (set_precommit_landed h tsk));
    [apply filled_in_refl | apply filled_in_precommit_landed | apply Exec_db].
Qed.

Lemma only_filled_in_commit_landed task tsk :
  preserves only_filled_in (db_Exec (where_commit_landed task) (set_commit_landed tsk)).
Proof.
  intros w. rewrite final_db_Exec.
  apply (step_related filled_in (where_commit_landed task) (set_commit_landed tsk));
    [apply filled_in_refl | intros r _; apply filled_in_commit_landed | apply Exec_db].
Qed.

Lemma only_filled_in_poll delay s : preserves only_filled_in (poll delay s).
Proof.
  apply preserves_poll.
  - apply only_filled_in_refl.
  - apply only_filled_in_trans.
  - apply only_filled_in_emit.
  - apply only_filled_in_claim.
  - apply only_filled_in_precommit_landed.
  - apply only_filled_in_commit_landed.
  - intros api w. apply only_filled_in_same. reflexivity.
Qed.

Lemma only_filled_in_pollLogged delay s : preserves only_filled_in (pollLogged delay s).
Proof.
  unfold pollLogged.
  apply preserves_bind; [apply only_filled_in_trans | apply only_filled_in_poll |].
  intros [e |]; [apply only_filled_in_emit | apply preserves_ret, only_filled_in_refl].
Qed.

(** The poller only fills in.  Whatever a tick does, and whatever a whole
    run of [RunPoller] does over any sequence of ticks, returning or blocked:
    no row is added or removed and no key changes; a task id or a seed epoch
    that was set keeps its value; the two landing flags are never lowered;
    the flags that the tasks raise, the proof, the failure columns and the
    message cids are not written; and [message_waits] is left as it is. *)
Theorem poller_only_fills_in (delay : Z) (s : SealPoller) (signals : list signal)
    (w : World) :
  only_filled_in w (final (poll delay s w))
  /\ only_filled_in w (final (RunPoller delay s signals w)).
Proof.
  split; [apply only_filled_in_poll |].
  revert w. induction signals as [| [|] rest IH]; intros w; simpl;
    try apply only_filled_in_refl.
  apply (preserves_bind only_filled_in only_filled_in_trans);
    [apply only_filled_in_pollLogged | intros _; exact IH].
Qed.

(** *** The records that a tick leaves alone *)

Lemma untouched_refl K r : untouched_outside K r r.
Proof. split; reflexivity. Qed.

Lemma untouched_trans K a b c :
  untouched_outside K a b -> untouched_outside K b c -> untouched_outside K a c.
Proof.
  intros [Hk1 H1] [Hk2 H2]. split; [congruence |].
  intros Hn. rewrite <- (H1 Hn). apply H2. rewrite Hk1. exact Hn.
Qed.

Lemma untouched_set K (cond : row -> bool) (set : row -> row) k :
  K k ->
  (forall r, cond r = true -> key r = k) ->
  (forall r, key (set r) = key r) ->
  forall r, cond r = true -> untouched_outside K r (set r).
Proof.
  intros HK Hcond Hset r Hc. split; [apply Hset |].
  intros Hn. exfalso. apply Hn. rewrite (Hcond r Hc). exact HK.
Qed.

Lemma Forall2_impl_In {A B} (P Q : A -> B -> Prop) l k :
  Forall2 P l k -> (forall a b, In a l -> P a b -> Q a b) -> Forall2 Q l k.
Proof.
  induction 1 as [| a b l k HP HF IH]; intros H; constructor.
  - apply H; [left; reflexivity | exact HP].
  - apply IH. intros a' b' Hin. apply H. right. exact Hin.
Qed.

(** A tick rewrites only rows that carry the key of a record it polls. *)
Lemma poll_frame delay s w :
  rows_related (untouched_outside (live (db w))) w (final (poll delay s w)).
Proof.
  set (K := live (db w)).
  assert (Hrefl : forall w0, rows_related (untouched_outside K) w0 w0)
    by (intros w0; apply Forall2_same, untouched_refl).
  assert (Htrans : forall a b c,
            rows_related (untouched_outside K) a b ->
            rows_related (untouched_outside K) b c ->
            rows_related (untouched_outside K) a c).
  { intros a b c H1 H2. eapply Forall2_trans; [| exact H1 | exact H2].
    intros x y z. apply untouched_trans. }
  assert (Hsame : forall w0 w1, db w1 = db w0 -> rows_related (untouched_outside K) w0 w1).
  { intros w0 w1 H. unfold rows_related. rewrite H. apply Hrefl. }
  apply (guarded_poll delay _ s (fun t => K (task_key t)) Hrefl Htrans).
  - intros msg e w0. apply Hsame. reflexivity.
  - intros w0. apply Hsame. reflexivity.
  - intros p task ts HK _. apply preserves_register_set; [exact Hrefl | exact Htrans | |].
    + intros w0. apply Hsame. reflexivity.
    + intros _ w0. rewrite stageClaim_unfold.
      apply (step_related (untouched_outside K) (stageWhere p task)
               (stageSet p (next_task w0)));
        [apply untouched_refl | | apply AddTask_claim_db].
      apply (untouched_set K _ _ (task_key task) HK);
        [intros r; apply stageWhere_key | intros r; apply stageSet_key].
  - intros task h tsk HK _ w0. rewrite final_db_Exec.
    apply (step_related (untouched_outside K) (where_precommit_landed task)
             (set_precommit_landed h tsk));
      [apply untouched_refl | | apply Exec_db].
    apply (untouched_set K _ _ (task_key task) HK);
      [intros r; apply where_precommit_landed_key | reflexivity].
  - intros task tsk HK _ w0. rewrite final_db_Exec.
    apply (step_related (untouched_outside K) (where_commit_landed task)
             (set_commit_landed tsk));
      [apply untouched_refl | | apply Exec_db].
    apply (untouched_set K _ _ (task_key task) HK);
      [intros r; apply where_commit_landed_key | reflexivity].
  - intros t Hin. exists t. auto.
Qed.

Lemma live_row d k :
  live d k <->
  exists r, In r (sectors_sdr_pipeline d) /\ key r = k
            /\ Failed (cols r) = false /\ AfterCommitMsgSuccess (cols r) = false.
Proof.
  unfold live. split.
  - intros (t & Hin & Hk). apply In_notFailed in Hin. destruct Hin as [Hin Hf].
    apply In_polled in Hin. destruct Hin as (r & Hr & Hs & ->). eauto 10.
  - intros (r & Hr & Hk & Hf & Hs). exists (cols r). split; [| exact Hk].
    apply In_notFailed. split; [| exact Hf]. apply In_polled. eauto.
Qed.

Lemma final_pollLogged_db delay s w :
  db (final (pollLogged delay s w)) = db (final (poll delay s w)).
Proof.
  unfold pollLogged, bind.
  destruct (poll delay s w) as [[[e |] w1] | w1]; reflexivity.
Qed.

(** On a table whose keys are unique a tick keeps the keys and leaves the
    rows of the failed and of the finished records as they are. *)
Lemma pollLogged_terminal delay s w :
  NoDup (List.map key (sectors_sdr_pipeline (db w))) ->
  rows_related (fun r r' => key r' = key r /\ (terminal r -> r' = r))
    w (final (pollLogged delay s w)).
Proof.
  intros Hnd. unfold rows_related. rewrite final_pollLogged_db.
  eapply Forall2_impl_In; [apply poll_frame |].
  intros r r' Hr [Hkey Hun]. split; [exact Hkey |].
  intros Hterm. apply Hun. intros Hlive.
  apply live_row in Hlive. destruct Hlive as (r0 & Hr0 & Hk & Hf & Hs).
  assert (r0 = r) by (apply (NoDup_key_inj _ _ _ Hnd Hr0 Hr); exact Hk). subst r0.
  destruct Hterm; congruence.
Qed.

Lemma Forall2_keys {Q : row -> row -> Prop} l l' :
  Forall2 (fun r r' => key r' = key r /\ Q r r') l l' ->
  List.map key l' = List.map key l.
Proof.
  induction 1 as [| r r' l l' [Hk _] _ IH]; simpl; [reflexivity |].
  rewrite Hk, IH. reflexivity.
Qed.

Lemma RunPoller_terminal delay s signals w :
  NoDup (List.map key (sectors_sdr_pipeline (db w))) ->
  rows_related (fun r r' => key r' = key r /\ (terminal r -> r' = r))
    w (final (RunPoller delay s signals w)).
Proof.
  revert w. induction signals as [| [|] rest IH]; intros w Hnd; simpl;
    try (apply Forall2_same; intros r; split; [reflexivity | intros _; reflexivity]).
  pose proof (pollLogged_terminal delay s w Hnd) as H1.
  unfold bind. destruct (pollLogged delay s w) as [[[] w1] | w1]; simpl in H1 |- *;
    [| exact H1].
  assert (Hnd1 : NoDup (List.map key (sectors_sdr_pipeline (db w1))))
    by (rewrite (Forall2_keys _ _ H1); exact Hnd).
  eapply Forall2_trans; [| exact H1 | exact (IH w1 Hnd1)].
  intros a b c [Hab Hterm] [Hbc Hterm']. split; [congruence |].
  intros Ht. rewrite <- (Hterm Ht). apply Hterm'. rewrite (Hterm Ht). exact Ht.
Qed.

(** Records that have failed and records whose commit message has landed are
    left alone.  A tick, returning or blocked, rewrites no row but rows that
    carry the key of a record it loaded and found not failed.  So on a table
    whose keys are unique, the row of every failed and of every finished
    record is, after any run of the loop, what it was before the run. *)
Theorem poll_leaves_terminal_records
    (delay : Z) (s : SealPoller) (signals : list signal) (w : World) :
  NoDup (List.map key (sectors_sdr_pipeline (db w))) ->
  Forall2 (untouched_outside (live (db w)))
    (sectors_sdr_pipeline (db w)) (sectors_sdr_pipeline (db (final (poll delay s w))))
  /\ Forall2 (fun r r' => terminal r -> r' = r)
       (sectors_sdr_pipeline (db w))
       (sectors_sdr_pipeline (db (final (RunPoller delay s signals w)))).
Proof.
  intros Hnd. split; [apply poll_frame |].
  eapply Forall2_impl; [apply (RunPoller_terminal delay s signals w Hnd) |].
  intros r r' [_ H]. exact H.
Qed.

Lemma poll_leaves_terminal_records_witness :
  NoDup (List.map key (sectors_sdr_pipeline (db RunScenarios.mixedWorld)))
  /\ Forall2 (fun r r' => terminal r -> r' = r)
       (sectors_sdr_pipeline (db RunScenarios.mixedWorld))
       (sectors_sdr_pipeline
          (db (final (RunPoller Scenarios.challengeDelay
                        (Scenarios.allSet (Scenarios.steadyChain 1000))
                        [tickerC; tickerC; ctxDone]
                        RunScenarios.mixedWorld)))).
Proof.
  assert (H : NoDup (List.map key (sectors_sdr_pipeline (db RunScenarios.mixedWorld)))).
  { apply (bool_decide_unpack _). vm_compute. exact I. }
  split; [exact H |].
  exact (proj2 (poll_leaves_terminal_records Scenarios.challengeDelay
                  (Scenarios.allSet (Scenarios.steadyChain 1000))
                  [tickerC; tickerC; ctxDone]
                  RunScenarios.mixedWorld H)).
Defined.

(** On [mixedWorld] the tick claims SDR for the new sector and nothing else. *)
Example poll_claims_the_live_record :
  newEvents RunScenarios.mixedWorld
    (final (poll Scenarios.challengeDelay (Scenarios.allSet (Scenarios.steadyChain 1000))
              RunScenarios.mixedWorld))
  = [EvChainHead 0; EvClaim pollerSDR 1000 3; EvRegistered 100].
Proof. vm_compute. reflexivity. Qed.

(** *** The order of the stages *)

Lemma stageReady_prerequisite s ts p t :
  stageReady s ts p t = true ->
  prerequisite p t /\ (p <> pollerPrecommitMsg -> IsSet s p = true).
Proof.
  destruct p; simpl;
    unfold readySDR, readySDRTrees, readyPrecommitMsg, readyPoRep, readyCommitMsg;
    rewrite ?andb_true_iff, ?negb_true_iff, ?is_null_true, ?is_null_false, ?Z.ltb_lt;
    intros H; (split; [| intros Hp; try congruence; tauto]);
    repeat split; try tauto.
  destruct H as [[[_ H] _] _]. destruct (PoRepProof t); [simpl in H; lia | discriminate].
Qed.

(** A tick notes a claim only for a record that it polls, and for a stage
    that was ready on that record at a height it read. *)
Lemma poll_claims_ready delay s w :
  claims_within
    (fun p sp sn =>
       exists t ts, In t (notFailed (polled (db w))) /\ task_key t = (sp, sn)
                    /\ stageReady s ts p t = true)
    w (final (poll delay s w)).
Proof.
  set (A := fun p sp sn =>
              exists t ts, In t (notFailed (polled (db w))) /\ task_key t = (sp, sn)
                           /\ stageReady s ts p t = true).
  apply (guarded_poll delay _ s (fun t => In t (notFailed (polled (db w))))
           (claims_within_refl A) (claims_within_trans A)).
  - intros msg e w0. eapply claims_within_quiet; [reflexivity | discriminate].
  - intros w0. eapply claims_within_quiet; [reflexivity | discriminate].
  - intros p task ts Hin Hready.
    apply preserves_register_set;
      [apply claims_within_refl | apply claims_within_trans | |].
    + intros w0. exists [EvClaim p (SpID task) (SectorNumber task)].
      split; [reflexivity |]. intros p' sp sn [[= <- <- <-] | []].
      exists task, ts. auto.
    + intros _ w0. destruct (final_AddTask_trace (stageClaim p task) w0) as (e & He & Hne).
      eapply claims_within_quiet; [exact He | exact Hne].
  - intros task h tsk _ _ w0. apply claims_within_silent.
    rewrite final_db_Exec. reflexivity.
  - intros task tsk _ _ w0. apply claims_within_silent.
    rewrite final_db_Exec. reflexivity.
  - auto.
Qed.

(** The claims of a tick respect the order of the pipeline.  Whenever a
    tick, returning or blocked, attempts the claim of a stage for a record,
    the table it loaded holds a row of that record, not failed and not
    finished, on which the stage is not claimed yet and the work the stage
    builds on is done: SDR done for the trees, the trees D and R done for the
    precommit message, the precommit message landed with a seed epoch for
    PoRep, PoRep done with a proof for the commit message.  And but for the
    precommit message, the handle of the stage is set. *)
Theorem claims_respect_stage_order (delay : Z) (s : SealPoller) (w : World)
    (p : poller) (sp sn : Z) :
  In (EvClaim p sp sn) (newEvents w (final (poll delay s w))) ->
  exists r, In r (sectors_sdr_pipeline (db w)) /\ key r = (sp, sn)
            /\ Failed (cols r) = false /\ AfterCommitMsgSuccess (cols r) = false
            /\ prerequisite p (cols r)
            /\ (p <> pollerPrecommitMsg -> IsSet s p = true).
Proof.
  intros Hin.
  apply (claims_within_newEvents _ _ _ _ _ _ (poll_claims_ready delay s w)) in Hin.
  destruct Hin as (t & ts & Hin & Hk & Hready).
  apply In_notFailed in Hin. destruct Hin as [Hin Hf].
  apply In_polled in Hin. destruct Hin as (r & Hr & Hs & ->).
  destruct (stageReady_prerequisite _ _ _ _ Hready) as [Hpre Hset].
  exists r. auto 10.
Qed.

Lemma claims_respect_stage_order_witness :
  In (EvClaim pollerPoRep 1000 7)
    (newEvents Scenarios.landedWorld
       (final (poll Scenarios.challengeDelay
                 (Scenarios.allSet (Scenarios.steadyChain 1000)) Scenarios.landedWorld)))
  /\ exists r, In r (sectors_sdr_pipeline (db Scenarios.landedWorld))
               /\ key r = (1000, 7)
               /\ Failed (cols r) = false /\ AfterCommitMsgSuccess (cols r) = false
               /\ prerequisite pollerPoRep (cols r)
               /\ (pollerPoRep <> pollerPrecommitMsg ->
                   IsSet (Scenarios.allSet (Scenarios.steadyChain 1000)) pollerPoRep = true).
Proof.
  assert (H : In (EvClaim pollerPoRep 1000 7)
                (newEvents Scenarios.landedWorld
                   (final (poll Scenarios.challengeDelay
                             (Scenarios.allSet (Scenarios.steadyChain 1000))
                             Scenarios.landedWorld))))
    by (vm_compute; auto).
  split; [exact H |].
  exact (claims_respect_stage_order Scenarios.challengeDelay
           (Scenarios.allSet (Scenarios.steadyChain 1000)) Scenarios.landedWorld
           pollerPoRep 1000 7 H).
Defined.

(** *** The errors of a tick *)

Lemma pollTasks_error delay s tasks w e w' :
  pollTasks delay s tasks w = Ret (Some e, w') ->
  exists n err,
    (heads_read w <= n)%nat /\ heads_read w' = S n
    /\ ChainHead (api s) n = inr err
    /\ e = ErrWrap "getting chain head" err.
Proof.
  revert w. induction tasks as [| task rest IH]; intros w H; [discriminate H |].
  destruct (Failed task) eqn:Hf.
  - rewrite pollTasks_failed in H by exact Hf. apply IH, H.
  - rewrite pollTasks_step in H by exact Hf.
    destruct (ChainHead (api s) (heads_read w)) as [ts | err] eqn:Hh.
    + apply bind_Ret in H. destruct H as ([] & w1 & Hst & H).
      pose proof (same_heads_pollTaskStages delay s task ts (afterHead w)) as Hs.
      unfold same_heads in Hs. rewrite Hst in Hs. simpl in Hs.
      destruct (IH w1 H) as (n & err & Hle & Hn & Herr & He).
      exists n, err. repeat split; try assumption. lia.
    + injection H as <- <-. exists (heads_read w), err. simpl. auto.
Qed.

(** A tick fails only where it loads the records and where it reads the
    chain head.  When the database does not answer, [poll] returns its error
    at once and has done nothing.  Every other error that [poll] returns is
    the error of a chain head read, wrapped; the tick ends with that read.
    So when the database answers and every head read succeeds, [poll] returns
    no error, whatever its claims and landing checks ran into. *)
Theorem poll_fails_only_on_select_or_chain_head (delay : Z) (s : SealPoller) (w : World) :
  (available (db w) = false -> poll delay s w = Ret (Some ErrDB, w))
  /\ (forall e w', poll delay s w = Ret (Some e, w') ->
        (e = ErrDB /\ available (db w) = false /\ w' = w)
        \/ (exists n err,
              (heads_read w <= n)%nat /\ heads_read w' = S n
              /\ ChainHead (api s) n = inr err
              /\ e = ErrWrap "getting chain head" err))
  /\ (available (db w) = true -> chain_answers (api s) ->
      forall e w', poll delay s w <> Ret (Some e, w')).
Proof.
  assert (Hdown : available (db w) = false -> poll delay s w = Ret (Some ErrDB, w)).
  { intros Ha. unfold poll, bind, db_Select, select_tasks. rewrite Ha. reflexivity. }
  split; [exact Hdown |]. split.
  - intros e w' H. destruct (available (db w)) eqn:Ha.
    + right. rewrite poll_available in H by exact Ha. eapply pollTasks_error, H.
    + left. rewrite Hdown in H by reflexivity. injection H as <- <-. auto.
  - intros Ha Hchain e w' H. rewrite poll_available in H by exact Ha.
    apply pollTasks_error in H. destruct H as (n & err & _ & _ & Herr & _).
    destruct (Hchain n) as [h Hh]. congruence.
Qed.

(** *** The landing of the precommit message *)



(** *** A tick that meets an unset handle *)

Lemma pollTaskStages_blocks delay s task ts w :
  pollers s pollerPrecommitMsg = false ->
  readyPrecommitMsg task = true ->
  exists w', pollTaskStages delay s task ts w = Blocked w'.
Proof.
  intros Hunset Hready. unfold pollTaskStages.
  destruct (returns_stage s ts pollerSDR task (pollStartSDR s task) eq_refl
              (stageReady_IsSet s ts pollerSDR task ltac:(discriminate)) w)
    as ([] & w1 & H1).
  rewrite (bind_Ret_l _ _ _ _ _ H1).
  destruct (returns_stage s ts pollerTrees task (pollStartSDRTrees s task) eq_refl
              (stageReady_IsSet s ts pollerTrees task ltac:(discriminate)) w1)
    as ([] & w2 & H2).
  rewrite (bind_Ret_l _ _ _ _ _ H2).
  eexists. apply bind_Blocked_l.
  unfold pollStartPrecommitMsg. rewrite Hready. apply register_unset. exact Hunset.
Qed.

Lemma pollTasks_blocks delay s tasks t w :
  pollers s pollerPrecommitMsg = false ->
  chain_answers (api s) ->
  In t (notFailed tasks) -> readyPrecommitMsg t = true ->
  exists w', pollTasks delay s tasks w = Blocked w'.
Proof.
  intros Hunset Hchain. revert w.
  induction tasks as [| task rest IH]; intros w Hin Hready; [destruct Hin |].
  rewrite notFailed_cons in Hin. destruct (Failed task) eqn:Hf.
  - rewrite pollTasks_failed by exact Hf. apply IH; assumption.
  - rewrite pollTasks_step by exact Hf.
    destruct (Hchain (heads_read w)) as [h Hh]. rewrite Hh. unfold bind.
    destruct (pollTaskStages delay s task h (afterHead w)) as [[[] w1] | w1] eqn:Hst;
      [| eauto].
    destruct Hin as [<- | Hin]; [| apply IH; assumption].
    destruct (pollTaskStages_blocks delay s task h (afterHead w) Hunset Hready)
      as [w' Hb].
    congruence.
Qed.

(** The precommit message stage asks its promise for the handle without
    testing it.  So while that handle is not set, a tick that loads a record
    which is not failed and is ready for its precommit message does not
    return, provided the database and the chain answer: it blocks, at that
    record or before it, and [RunPoller] with it; the signals that follow,
    the cancellation among them, are not looked at. *)
Theorem poll_hangs_without_precommit_handle
    (delay : Z) (s : SealPoller) (w : World) (t : pollTask) (signals : list signal) :
  IsSet s pollerPrecommitMsg = false ->
  available (db w) = true ->
  chain_answers (api s) ->
  In t (polled (db w)) -> Failed t = false -> readyPrecommitMsg t = true ->
  exists w', poll delay s w = Blocked w'
             /\ RunPoller delay s (tickerC :: signals) w = Blocked w'.
Proof.
  intros Hunset Ha Hchain Hin Hf Hready.
  destruct (pollTasks_blocks delay s (polled (db w)) t w Hunset Hchain) as [w' Hb];
    [apply In_notFailed; auto | exact Hready |].
  exists w'. rewrite poll_available by exact Ha. split; [exact Hb |].
  simpl. unfold pollLogged. apply bind_Blocked_l, bind_Blocked_l.
  rewrite poll_available by exact Ha. exact Hb.
Qed.

Lemma poll_hangs_without_precommit_handle_witness :
  IsSet (NewPoller (Scenarios.steadyChain 1000)) pollerPrecommitMsg = false
  /\ available (db Scenarios.treesDoneWorld) = true
  /\ chain_answers (api (NewPoller (Scenarios.steadyChain 1000)))
  /\ In (Scenarios.treesDoneTask 1000 7) (polled (db Scenarios.treesDoneWorld))
  /\ Failed (Scenarios.treesDoneTask 1000 7) = false
  /\ readyPrecommitMsg (Scenarios.treesDoneTask 1000 7) = true
  /\ exists w',
       poll Scenarios.challengeDelay (NewPoller (Scenarios.steadyChain 1000))
         Scenarios.treesDoneWorld = Blocked w'
       /\ RunPoller Scenarios.challengeDelay (NewPoller (Scenarios.steadyChain 1000))
            [tickerC; ctxDone] Scenarios.treesDoneWorld = Blocked w'.
Proof.
  assert (H3 : chain_answers (api (NewPoller (Scenarios.steadyChain 1000))))
    by (intros n; exists 1000; reflexivity).
  assert (H4 : In (Scenarios.treesDoneTask 1000 7) (polled (db Scenarios.treesDoneWorld)))
    by (left; reflexivity).
  split; [reflexivity |]. split; [reflexivity |]. split; [exact H3 |].
  split; [exact H4 |]. split; [reflexivity |]. split; [reflexivity |].
  exact (poll_hangs_without_precommit_handle Scenarios.challengeDelay
           (NewPoller (Scenarios.steadyChain 1000)) Scenarios.treesDoneWorld
           (Scenarios.treesDoneTask 1000 7) [ctxDone]
           eq_refl eq_refl H3 H4 eq_refl eq_refl).
Defined.

(** *** The loop *)

Lemma returns_pollTasks delay s tasks :
  pollers s pollerPrecommitMsg = true -> returns (pollTasks delay s tasks).
Proof.
  intros Hset. induction tasks as [| task rest IH]; simpl; [apply returns_ret |].
  destruct (Failed task); [exact IH |].
  apply returns_bind.
  - intros w. unfold api_ChainHead. eexists _, _. reflexivity.
  - intros [ts | err]; [| apply returns_ret].
    apply returns_bind; [| intros _; exact IH].
    apply returns_pollTaskStages. intros _. exact Hset.
Qed.

Lemma returns_pollLogged delay s :
  pollers s pollerPrecommitMsg = true -> returns (pollLogged delay s).
Proof.
  intros Hset. unfold pollLogged. apply returns_bind.
  - unfold poll. apply returns_bind.
    + intros w. unfold db_Select. eexists _, _. reflexivity.
    + intros [tasks | err]; [apply returns_pollTasks, Hset | apply returns_ret].
  - intros [e |]; [apply returns_emit | apply returns_ret].
Qed.

Lemma RunPoller_ticks delay s n rest w :
  pollers s pollerPrecommitMsg = true ->
  exists w', RunPoller delay s (replicate n tickerC) w = Ret (false, w')
             /\ RunPoller delay s (replicate n tickerC ++ rest) w
                = RunPoller delay s rest w'.
Proof.
  intros Hset. revert w. induction n as [| n IH]; intros w; simpl.
  - exists w. split; reflexivity.
  - destruct (returns_pollLogged delay s Hset w) as ([] & w1 & H1).
    destruct (IH w1) as (w' & Hrun & Happ). exists w'.
    rewrite !(bind_Ret_l _ _ _ _ _ H1). auto.
Qed.

Lemma pollLogged_down delay s w :
  available (db w) = false ->
  pollLogged delay s w = Ret (tt, logged "polling failed" ErrDB w).
Proof.
  intros Ha. unfold pollLogged, poll, bind, db_Select, select_tasks.
  rewrite Ha. reflexivity.
Qed.

Lemma RunPoller_down delay s n w :
  available (db w) = false ->
  exists w', RunPoller delay s (replicate n tickerC) w = Ret (false, w')
             /\ db w' = db w /\ heads_read w' = heads_read w
             /\ trace w' = trace w ++ replicate n (EvLog "polling failed" ErrDB).
Proof.
  revert w. induction n as [| n IH]; intros w Ha; simpl.
  - exists w. rewrite app_nil_r. auto.
  - rewrite (bind_Ret_l _ _ _ _ _ (pollLogged_down delay s w Ha)).
    destruct (IH (logged "polling failed" ErrDB w) Ha) as (w' & Hrun & Hdb & Hh & Htr).
    exists w'. simpl in *. rewrite Htr, <- app_assoc. auto.
Qed.

(** The loop goes on until the context is done.  Let the handle of the
    precommit message stage be set.  Then every tick returns, and after any
    number of ticks, whatever errors they met, [RunPoller] has not returned:
    it waits for the next signal.  When the context is then done it returns,
    in the world the ticks left, and looks at no later signal.  A tick that
    finds the database unavailable logs [polling failed] and changes nothing
    else, and the loop goes on. *)
Theorem RunPoller_stops_only_when_done
    (delay : Z) (s : SealPoller) (n : nat) (later : list signal) (w : World) :
  IsSet s pollerPrecommitMsg = true ->
  (exists w',
     RunPoller delay s (replicate n tickerC) w = Ret (false, w')
     /\ RunPoller delay s (replicate n tickerC ++ ctxDone :: later) w = Ret (true, w'))
  /\ (available (db w) = false ->
      exists w',
        RunPoller delay s (replicate n tickerC) w = Ret (false, w')
        /\ db w' = db w /\ heads_read w' = heads_read w
        /\ trace w' = trace w ++ replicate n (EvLog "polling failed" ErrDB)).
Proof.
  intros Hset. split; [| apply RunPoller_down].
  destruct (RunPoller_ticks delay s n (ctxDone :: later) w Hset) as (w' & Hrun & Happ).
  exists w'. split; [exact Hrun |]. rewrite Happ. reflexivity.
Qed.

Lemma RunPoller_stops_only_when_done_witness :
  IsSet (Scenarios.allSet (Scenarios.steadyChain 1000)) pollerPrecommitMsg = true
  /\ exists w',
       RunPoller Scenarios.challengeDelay (Scenarios.allSet (Scenarios.steadyChain 1000))
         (replicate 2 tickerC) Scenarios.landingWorld = Ret (false, w')
       /\ RunPoller Scenarios.challengeDelay (Scenarios.allSet (Scenarios.steadyChain 1000))
            (replicate 2 tickerC ++ [ctxDone; tickerC]) Scenarios.landingWorld
          = Ret (true, w').
Proof.
  split; [reflexivity |].
  exact (proj1 (RunPoller_stops_only_when_done Scenarios.challengeDelay
                  (Scenarios.allSet (Scenarios.steadyChain 1000)) 2 [tickerC]
                  Scenarios.landingWorld eq_refl)).
Defined.

(** Two ticks on [landingWorld]: the first records the landing, the second
    claims PoRep; the tick after the cancellation does not run. *)
Example RunPoller_two_ticks :
  newEvents Scenarios.landingWorld
    (final (RunPoller Scenarios.challengeDelay
              (Scenarios.allSet (Scenarios.steadyChain 1000))
              [tickerC; tickerC; ctxDone; tickerC] Scenarios.landingWorld))
  = [EvChainHead 0; EvChainHead 1; EvClaim pollerPoRep 1000 7; EvRegistered 100].
Proof. vm_compute. reflexivity. Qed.

(** *** A poller without handles *)

Lemma nothing_registered_refl w : nothing_registered w w.
Proof. split; [reflexivity |]. apply Forall2_same. auto. Qed.

Lemma nothing_registered_trans a b c :
  nothing_registered a b -> nothing_registered b c -> nothing_registered a c.
Proof.
  intros [H1 H2] [H3 H4]. split; [congruence |].
  eapply Forall2_trans; [| exact H2 | exact H4].
  intros x y z (? & ? & ?) (? & ? & ?). repeat split; congruence.
Qed.

Lemma nothing_registered_same w w' :
  db w' = db w -> next_task w' = next_task w -> nothing_registered w w'.
Proof.
  intros Hdb Hn. split; [exact Hn |]. unfold rows_related. rewrite Hdb.
  apply Forall2_same. auto.
Qed.

(** Until the Task Execution Service has supplied a handle, the poller
    registers nothing.  Over any run of a poller fresh from [NewPoller],
    returning or blocked, no task id is minted, no task-id column of any row
    changes, and no commit landing is recorded. *)
Theorem NewPoller_registers_nothing
    (delay : Z) (api : SealPollerAPI) (signals : list signal) (w : World) :
  nothing_registered w (final (RunPoller delay (NewPoller api) signals w))
  /\ nothing_registered w (final (poll delay (NewPoller api) w)).
Proof.
  assert (Hreg : forall p task ts,
            True -> stageReady (NewPoller api) ts p task = true ->
            preserves nothing_registered
              (register (NewPoller api) p task (stageClaim p task))).
  { intros p task ts _ _.
    apply preserves_register_set;
      [apply nothing_registered_refl | apply nothing_registered_trans | |].
    - intros w0. apply nothing_registered_same; reflexivity.
    - intros Hset. discriminate Hset. }
  assert (Hpl : forall task h tsk,
            True -> checksPrecommitMsgLanded task = true ->
            preserves nothing_registered
              (db_Exec (where_precommit_landed task) (set_precommit_landed h tsk))).
  { intros task h tsk _ _ w0. rewrite final_db_Exec. split; [reflexivity |].
    unfold rows_related. simpl.
    destruct (Exec_rows (where_precommit_landed task) (set_precommit_landed h tsk) (db w0))
      as [-> | ->]; [apply Forall2_same; auto |].
    apply Forall2_updated; auto. }
  assert (Hcl : forall task tsk,
            True -> checksCommitMsgLanded (NewPoller api) task = true ->
            preserves nothing_registered
              (db_Exec (where_commit_landed task) (set_commit_landed tsk))).
  { intros task tsk _ Hc. unfold checksCommitMsgLanded, IsSet in Hc. simpl in Hc.
    rewrite andb_false_r in Hc. discriminate Hc. }
  split.
  - apply (guarded_RunPoller delay nothing_registered (NewPoller api) (fun _ => True)
             nothing_registered_refl nothing_registered_trans); auto.
    + intros msg e w0. apply nothing_registered_same; reflexivity.
    + intros w0. apply nothing_registered_same; reflexivity.
  - apply (guarded_poll delay nothing_registered (NewPoller api) (fun _ => True)
             nothing_registered_refl nothing_registered_trans); auto.
    + intros msg e w0. apply nothing_registered_same; reflexivity.
    + intros w0. apply nothing_registered_same; reflexivity.
Qed.

End PollerRunFacts.

(** ** The spread assigner: bounds, balance and conservation *)

Module SpreadPassFacts.
Import sectorstorage AssignerNotions SpreadNotions SpreadFacts.

(** *** Lists of kept and of added tasks *)

Lemma keepFrom_app o rm l1 l2 :
  keepFrom o rm (l1 ++ l2)
  = keepFrom o rm l1 ++ keepFrom (o + Z.of_nat (length l1)) rm l2.
Proof.
  revert o. induction l1 as [| x l1 IH]; intros o; simpl.
  - f_equal. lia.
  - rewrite IH. replace (o + 1 + Z.of_nat (length l1)) with (o + Z.of_nat (S (length l1)))
      by lia.
    case_decide; reflexivity.
Qed.

Lemma keepFrom_ext o rm rm' l :
  (forall i, o <= i < o + Z.of_nat (length l) -> i ∈ rm <-> i ∈ rm') ->
  keepFrom o rm l = keepFrom o rm' l.
Proof.
  revert o. induction l as [| x l IH]; intros o H; simpl; [reflexivity |].
  rewrite (IH (o + 1)) by (intros i Hi; apply H; simpl; lia).
  pose proof (H o ltac:(simpl; lia)) as Ho.
  repeat case_decide; tauto.
Qed.

Lemma added_same {A : Type} (ws : list (SchedWindow A)) : added ws ws = [].
Proof.
  unfold added. induction ws as [| w ws IH]; simpl; [reflexivity |].
  rewrite drop_all, IH. reflexivity.
Qed.

Lemma added_insert {A : Type} (ws0 ws : list (SchedWindow A)) (k : nat) w0 win task :
  ws0 !! k = Some w0 -> ws !! k = Some win ->
  (length (Todo w0) <= length (Todo win))%nat ->
  added ws0 (<[k := mkSchedWindow (Allocated win) (Todo win ++ [task])]> ws)
    ≡ₚ task :: added ws0 ws.
Proof.
  unfold added. revert ws k. induction ws0 as [| v ws0 IH]; intros ws k H0 H1 Hlen;
    [discriminate H0 |].
  destruct ws as [| u ws]; [discriminate H1 |].
  destruct k as [| k]; simpl in *.
  - injection H0 as ->. injection H1 as ->.
    rewrite drop_app_le by exact Hlen. rewrite <- app_assoc. simpl.
    symmetry. apply Permutation_middle.
  - rewrite (IH ws k H0 H1 Hlen). symmetry. apply Permutation_middle.
Qed.

Section Pass.

Context {WorkerResources Resources ActiveResources : Type}.
Variable zeroWorkerResources : WorkerResources.
Variable ResourceSpec : WorkerResources -> Z -> string -> Resources.
Variable CanHandleRequest :
  ActiveResources -> Resources -> WorkerID -> string -> WorkerInfo WorkerResources -> bool.

Variable sh : Scheduler WorkerResources.
Variable acceptableWindows : list (list Z).
Variable ws0 : list (SchedWindow ActiveResources).

Local Abbreviation scan := (scanWindows ResourceSpec CanHandleRequest sh).
Local Abbreviation admitted_ := (admitted ResourceSpec CanHandleRequest sh).
Local Abbreviation admits_ := (admits ResourceSpec CanHandleRequest).
Local Abbreviation step :=
  (assignTask zeroWorkerResources ResourceSpec CanHandleRequest sh acceptableWindows).
Local Abbreviation steps :=
  (assignTasks zeroWorkerResources ResourceSpec CanHandleRequest sh acceptableWindows).
Local Abbreviation scanQueue_ :=
  (scanQueue zeroWorkerResources ResourceSpec CanHandleRequest sh).
Local Abbreviation SpreadWS_ :=
  (SpreadWS zeroWorkerResources ResourceSpec CanHandleRequest sh).
Local Abbreviation PassInv_ := (PassInv sh ws0).

(** *** The allocation that the admission test sees *)

Lemma PassInv_window n p placed wnd :
  PassInv_ n p placed ->
  index (windows p) wnd
  = (win ← index ws0 wnd;
     Some (mkSchedWindow (Allocated win) (Todo win ++ placedOn sh wnd placed))).
Proof.
  intros Hinv. destruct (index ws0 wnd) as [win |] eqn:Hw; simpl.
  - apply (inv_todo _ _ _ _ _ Hinv), Hw.
  - destruct (index (windows p) wnd) as [win' |] eqn:Hw'; [| reflexivity].
    exfalso. apply index_lt in Hw'. rewrite (inv_length _ _ _ _ _ Hinv) in Hw'.
    apply index_is_Some in Hw'. rewrite Hw in Hw'. destruct Hw' as [? [=]].
Qed.

Lemma PassInv_admits n p placed task st wid wnd :
  PassInv_ n p placed ->
  admits_ (windows p) task st wid wnd = admits_ ws0 task st wid wnd.
Proof.
  intros Hinv. unfold admits. rewrite (PassInv_window _ _ _ _ Hinv).
  destruct (index ws0 wnd); reflexivity.
Qed.

Lemma steps_inv n p :
  0 <= n <= MaxInt ->
  steps (initialPass ws0) (seqZ 0 n) = Some p ->
  exists placed, PassInv_ n p placed.
Proof.
  intros Hn Hp.
  destruct (PassInv_steps zeroWorkerResources ResourceSpec CanHandleRequest sh
              acceptableWindows ws0 (Z.to_nat n) 0 (initialPass ws0) [] p)
    as [placed Hinv];
    [apply PassInv_initial | lia | lia | rewrite Z2Nat.id by lia; exact Hp |].
  replace (0 + Z.of_nat (Z.to_nat n)) with n in Hinv by lia.
  eauto.
Qed.

(** The pass does not book its placements.  At whatever queue position the
    pass has arrived, the admission test of a window answers what it would
    have answered at the start of the pass: the allocation of a window is
    the one the pass was given, however many tasks the pass has put on the
    window meanwhile. *)
Theorem spread_admission_ignores_placements (n : Z) (p : pass ActiveResources)
    (task : WorkerRequest) (st : selection WorkerResources) (wid : WorkerID) (wnd : Z) :
  0 <= n <= MaxInt ->
  steps (initialPass ws0) (seqZ 0 n) = Some p ->
  admits_ (windows p) task st wid wnd = admits_ ws0 task st wid wnd
  /\ forall win, index (windows p) wnd = Some win ->
       exists win0, index ws0 wnd = Some win0 /\ Allocated win = Allocated win0.
Proof.
  intros Hn Hp. destruct (steps_inv n p Hn Hp) as [placed Hinv].
  split; [eapply PassInv_admits, Hinv |].
  intros win Hwin. rewrite (PassInv_window _ _ _ _ Hinv) in Hwin.
  destruct (index ws0 wnd) as [win0 |]; simpl in Hwin; [| discriminate].
  injection Hwin as <-. eauto.
Qed.

(** *** The indices of a pass *)

Lemma admits_is_Some ws task st wid wnd ok :
  admits_ ws task st wid wnd = Some ok -> is_Some (index ws wnd).
Proof.
  unfold admits. destruct (index ws wnd); simpl; [eauto | discriminate].
Qed.

Lemma scan_in_range ws wa task st acceptable sel :
  scan ws wa task st acceptable = Some sel ->
  forall wnd, wnd ∈ acceptable ->
    is_Some (index (OpenWindows sh) wnd) /\ is_Some (index ws wnd).
Proof.
  revert st. induction acceptable as [| x rest IH]; intros st Hscan wnd Hin;
    [inversion Hin |].
  simpl in Hscan.
  destruct (tryWindow ResourceSpec CanHandleRequest sh ws wa task st x) as [st' |] eqn:Ht;
    simpl in Hscan; [| discriminate].
  apply elem_of_cons in Hin. destruct Hin as [-> | Hin]; [| eapply IH; eassumption].
  destruct (tryWindow_cases _ _ _ _ _ _ _ _ _ Ht) as (ow & ok & Hi & Ha & _).
  split; [eauto | eapply admits_is_Some, Ha].
Qed.

Lemma try_total ws wa task st wnd :
  is_Some (index (OpenWindows sh) wnd) -> is_Some (index ws wnd) ->
  (forall ow, index (OpenWindows sh) wnd = Some ow -> is_Some (Workers sh !! Worker ow)) ->
  exists st', tryWindow ResourceSpec CanHandleRequest sh ws wa task st wnd = Some st'
              /\ (selectedWindow st' = selectedWindow st \/ selectedWindow st' = wnd).
Proof.
  intros [ow How] [win Hwin] Hw. destruct (Hw ow How) as [h Hh].
  unfold tryWindow, admits. rewrite How. simpl. rewrite Hwin. simpl.
  destruct (negb _); [eauto |].
  destruct (_ <=? _); [eauto |].
  rewrite Hh. simpl. eauto.
Qed.

Lemma scan_total ws wa task st acceptable :
  (forall wnd, wnd ∈ acceptable ->
     is_Some (index (OpenWindows sh) wnd) /\ is_Some (index ws wnd)) ->
  (forall ow, ow ∈ OpenWindows sh -> is_Some (Workers sh !! Worker ow)) ->
  exists sel, scan ws wa task st acceptable = Some sel
              /\ (selectedWindow sel = selectedWindow st
                  \/ selectedWindow sel ∈ acceptable).
Proof.
  intros Hb Hw. revert st.
  induction acceptable as [| x rest IH]; intros st; simpl; [eauto |].
  destruct (Hb x ltac:(left)) as [Ho Hx].
  destruct (try_total ws wa task st x Ho Hx) as (st' & Ht & Hsel).
  { intros ow How. apply Hw. apply index_Some in How.
    eapply list_elem_of_lookup_2, How. }
  rewrite Ht. simpl.
  destruct (IH ltac:(intros wnd Hin; apply Hb; right; exact Hin) st')
    as (sel & Hscan & Hs).
  exists sel. split; [exact Hscan |].
  destruct Hs as [Hs | Hs]; [| right; right; exact Hs].
  rewrite Hs. destruct Hsel as [-> | ->]; [left; reflexivity | right; left].
Qed.

Lemma inBounds_windows n p placed k :
  PassInv_ n p placed -> inBounds sh acceptableWindows ws0 k ->
  inBounds sh acceptableWindows (windows p) k.
Proof.
  intros Hinv (task & acceptable & Ht & Ha & Hb). exists task, acceptable.
  split; [exact Ht |]. split; [exact Ha |]. intros wnd Hin.
  destruct (Hb wnd Hin) as [Ho Hw]. split; [exact Ho |].
  apply index_is_Some. rewrite (inv_length _ _ _ _ _ Hinv). apply index_is_Some, Hw.
Qed.

Lemma step_total n p placed :
  PassInv_ n p placed ->
  inBounds sh acceptableWindows ws0 n ->
  (forall ow, ow ∈ OpenWindows sh -> is_Some (Workers sh !! Worker ow)) ->
  exists p', step p n = Some p'.
Proof.
  intros Hinv Hb Hw.
  destruct (inBounds_windows _ _ _ _ Hinv Hb) as (task & acceptable & Ht & Ha & Hin).
  destruct (scan_total (windows p) (workerAssigned p) task
              (noSelection zeroWorkerResources) acceptable Hin Hw) as (sel & Hscan & Hsel).
  unfold assignTask. rewrite Ht. simpl. rewrite Ha. simpl. rewrite Hscan. simpl.
  destruct (selectedWindow sel <? 0) eqn:Hneg; [eauto |].
  apply Z.ltb_ge in Hneg.
  destruct Hsel as [Hsel | Hsel]; [simpl in Hsel; lia |].
  destruct (Hin _ Hsel) as [_ [win Hwin]].
  unfold appendTodo. rewrite Hwin. simpl. eauto.
Qed.

Lemma steps_total (k : nat) n p placed :
  PassInv_ n p placed -> 0 <= n -> n + Z.of_nat k <= MaxInt ->
  (forall i, n <= i < n + Z.of_nat k -> inBounds sh acceptableWindows ws0 i) ->
  (forall ow, ow ∈ OpenWindows sh -> is_Some (Workers sh !! Worker ow)) ->
  exists p', steps p (seqZ n (Z.of_nat k)) = Some p'.
Proof.
  intros Hinv H0 Hmax Hb Hw. revert n p placed Hinv H0 Hmax Hb.
  induction k as [| k IH]; intros n p placed Hinv H0 Hmax Hb; [simpl; eauto |].
  rewrite seqZ_cons by lia. simpl.
  destruct (step_total n p placed Hinv (Hb n ltac:(lia)) Hw) as [p1 Hstep].
  rewrite Hstep. simpl.
  replace (Z.pred (Z.of_nat (S k))) with (Z.of_nat k) by lia.
  assert (Hinv1 : exists placed1, PassInv_ (Z.succ n) p1 placed1).
  { replace (Z.succ n) with (n + 1) by lia.
    destruct (PassInv_step zeroWorkerResources ResourceSpec CanHandleRequest sh
                acceptableWindows ws0 n p placed p1 Hinv ltac:(unfold MaxInt in *; lia) Hstep)
      as [[_ H] | [wnd H]]; eauto. }
  destruct Hinv1 as [placed1 Hinv1].
  apply (IH (Z.succ n) p1 placed1 Hinv1); [lia | lia |].
  intros i Hi. apply Hb. lia.
Qed.

(** [SpreadWS] returns only when its indices are in range; where one is
    not, it stops in an index-out-of-range panic.  If it returns, [queueLen]
    is not negative and does not exceed the length of the queue, every task
    among the first [queueLen] has a list of acceptable windows, and every
    window of such a list is both an open window of the scheduler and a
    window of the pass.  Conversely, when all this holds and the owner of
    every open window is a worker that the scheduler knows, [SpreadWS]
    returns. *)
Theorem SpreadWS_returns_within_bounds (queueLen : Z) :
  queueLen <= MaxInt ->
  (forall count sh' ws',
     SpreadWS_ queueLen acceptableWindows ws0 = Some (count, sh', ws') ->
     0 <= queueLen <= Z.of_nat (length (SchedQueue sh))
     /\ forall n, 0 <= n < queueLen -> inBounds sh acceptableWindows ws0 n)
  /\ (0 <= queueLen ->
      (forall n, 0 <= n < queueLen -> inBounds sh acceptableWindows ws0 n) ->
      (forall ow, ow ∈ OpenWindows sh -> is_Some (Workers sh !! Worker ow)) ->
      exists count sh' ws',
        SpreadWS_ queueLen acceptableWindows ws0 = Some (count, sh', ws')).
Proof.
  intros Hmax. split.
  - intros count sh' ws' H. unfold SpreadWS in H.
    destruct (scanQueue_ queueLen acceptableWindows ws0) as [p |] eqn:Hp;
      simpl in H; [| discriminate].
    destruct (scanQueue_inv _ _ _ _ _ _ _ _ Hmax Hp) as [H0 _].
    assert (Hb : forall n, 0 <= n < queueLen -> inBounds sh acceptableWindows ws0 n).
    { intros n Hn.
      destruct (scanQueue_prefix _ _ _ _ _ _ _ _ n Hmax Hp Hn)
        as (pn & placed & p1 & _ & Hinv & Hstep).
      destruct (assignTask_cases _ _ _ _ _ _ _ _ Hstep)
        as (task & acceptable & sel & Ht & Ha & Hscan & _).
      exists task, acceptable. split; [exact Ht |]. split; [exact Ha |].
      intros wnd Hin. destruct (scan_in_range _ _ _ _ _ _ Hscan wnd Hin) as [Ho Hw].
      split; [exact Ho |]. apply index_is_Some.
      rewrite <- (inv_length _ _ _ _ _ Hinv). apply index_is_Some, Hw. }
    split; [| exact Hb]. split; [exact H0 |].
    destruct (decide (queueLen = 0)) as [-> | Hne]; [lia |].
    destruct (Hb (queueLen - 1) ltac:(lia)) as (task & _ & Ht & _).
    apply index_lt in Ht. lia.
  - intros H0 Hb Hw.
    destruct (steps_total (Z.to_nat queueLen) 0 (initialPass ws0) [] (PassInv_initial _ _)
                ltac:(lia) ltac:(lia)) as [p Hp]; [| exact Hw |].
    { intros i Hi. apply Hb. lia. }
    rewrite Z2Nat.id in Hp by lia.
    assert (Hscan : scanQueue_ queueLen acceptableWindows ws0 = Some p).
    { unfold scanQueue. rewrite decide_True by exact H0. exact Hp. }
    rewrite (SpreadWS_returns _ _ _ _ _ _ _ _ Hmax Hscan). eauto.
Qed.

(** *** No task is lost *)

Lemma conserved_step n p placed p' :
  PassInv_ n p placed -> conserved sh ws0 n p -> 0 <= n < MaxInt ->
  step p n = Some p' -> conserved sh ws0 (n + 1) p'.
Proof.
  intros Hinv [Hperm Hcount] Hn Hstep.
  destruct (assignTask_cases _ _ _ _ _ _ _ _ Hstep)
    as (task & acceptable & sel & Htask & Hacc & Hscan & Hcases).
  pose proof Htask as Hlook. apply index_Some in Hlook. destruct Hlook as [_ Hlook].
  assert (Hlen : length (take (Z.to_nat n) (SchedQueue sh)) = Z.to_nat n).
  { apply length_take_le. apply lookup_lt_Some in Hlook. lia. }
  assert (Hbelow : forall i, i ∈ rmQueue p -> i < n).
  { intros i Hi. rewrite (inv_rmQueue _ _ _ _ _ Hinv) in Hi.
    apply list_elem_of_fmap in Hi. destruct Hi as (pl & -> & Hpl).
    pose proof (inv_range _ _ _ _ _ Hinv) as Hr. rewrite Forall_forall in Hr.
    apply (Hr pl Hpl). }
  unfold conserved. replace (Z.to_nat (n + 1)) with (S (Z.to_nat n)) by lia.
  rewrite (take_S_r _ _ _ Hlook). unfold unplaced in *.
  rewrite keepFrom_app, Hlen. simpl.
  replace (0 + Z.of_nat (Z.to_nat n)) with n by lia.
  destruct Hcases as [[_ ->] | (Hpos & win & Hwin & ->)].
  - split; [| exact Hcount].
    rewrite decide_False by (intros Hin; specialize (Hbelow n Hin); lia).
    rewrite Hperm at 1. rewrite <- !app_assoc.
    apply Permutation_app_head, Permutation_app_comm.
  - simpl.
    rewrite decide_True by (apply elem_of_app; right; apply list_elem_of_singleton;
                            reflexivity).
    rewrite app_nil_r.
    rewrite (keepFrom_ext 0 (rmQueue p ++ [n]) (rmQueue p)).
    2: { intros i Hi. rewrite Hlen in Hi.
         rewrite elem_of_app, list_elem_of_singleton. split; [| auto].
         intros [? | ?]; [assumption | lia]. }
    pose proof Hwin as Hw. rewrite (PassInv_window _ _ _ _ Hinv) in Hw.
    destruct (index ws0 (selectedWindow sel)) as [w0 |] eqn:Hw0; simpl in Hw;
      [| discriminate].
    injection Hw as <-.
    apply index_Some in Hwin. destruct Hwin as [_ Hwin].
    apply index_Some in Hw0. destruct Hw0 as [_ Hw0].
    pose proof (added_insert ws0 (windows p) (Z.to_nat (selectedWindow sel)) w0 _ task
                  Hw0 Hwin) as Hadd.
    simpl in Hadd. rewrite length_app in Hadd. specialize (Hadd ltac:(lia)).
    unfold withTodo. simpl. split.
    + rewrite Hadd, Hperm at 1. rewrite <- app_assoc.
      apply Permutation_app_head. symmetry. apply Permutation_cons_append.
    + rewrite Hadd. simpl.
      pose proof (inv_scheduled _ _ _ _ _ Hinv) as Hs.
      pose proof (inv_count _ _ _ _ _ Hinv) as Hc.
      rewrite Int64Facts.add_no_overflow
        by (unfold Int64.in_range, Int64.MinInt64, MaxInt in *; lia).
      lia.
Qed.

Lemma conserved_steps (k : nat) n p placed p' :
  PassInv_ n p placed -> conserved sh ws0 n p -> 0 <= n -> n + Z.of_nat k <= MaxInt ->
  steps p (seqZ n (Z.of_nat k)) = Some p' -> conserved sh ws0 (n + Z.of_nat k) p'.
Proof.
  revert n p placed. induction k as [| k IH]; intros n p placed Hinv Hc H0 Hmax Hsteps.
  - simpl in Hsteps. injection Hsteps as <-.
    replace (n + Z.of_nat 0) with n by lia. exact Hc.
  - rewrite seqZ_cons in Hsteps by lia. simpl in Hsteps.
    destruct (step p n) as [p1 |] eqn:Hstep; simpl in Hsteps; [| discriminate].
    replace (Z.pred (Z.of_nat (S k))) with (Z.of_nat k) in Hsteps by lia.
    replace (n + Z.of_nat (S k)) with (Z.succ n + Z.of_nat k) by lia.
    pose proof (conserved_step n p placed p1 Hinv Hc ltac:(lia) Hstep) as Hc1.
    replace (n + 1) with (Z.succ n) in Hc1 by lia.
    assert (Hinv1 : exists placed1, PassInv_ (Z.succ n) p1 placed1).
    { replace (Z.succ n) with (n + 1) by lia.
      destruct (PassInv_step zeroWorkerResources ResourceSpec CanHandleRequest sh
                  acceptableWindows ws0 n p placed p1 Hinv ltac:(lia) Hstep)
        as [[_ H] | [wnd H]]; eauto. }
    destruct Hinv1 as [placed1 Hinv1].
    apply (IH (Z.succ n) p1 placed1 Hinv1 Hc1); [lia | lia | exact Hsteps].
Qed.

(** No task is lost and none is duplicated.  When [SpreadWS] returns, the
    tasks of the queue it was given are, each as often as it occurred, the
    tasks of the queue it leaves together with the tasks it has added to the
    pending lists of the windows; the count it returns is the number of tasks
    added, and the queue has become shorter by as much. *)
Theorem SpreadWS_conserves_tasks (queueLen : Z) (count : Z)
    (sh' : Scheduler WorkerResources) (ws' : list (SchedWindow ActiveResources)) :
  queueLen <= MaxInt ->
  SpreadWS_ queueLen acceptableWindows ws0 = Some (count, sh', ws') ->
  SchedQueue sh ≡ₚ SchedQueue sh' ++ added ws0 ws'
  /\ count = Z.of_nat (length (added ws0 ws'))
  /\ Z.of_nat (length (SchedQueue sh')) + count = Z.of_nat (length (SchedQueue sh)).
Proof.
  intros Hmax H.
  destruct (scanQueue_ queueLen acceptableWindows ws0) as [p |] eqn:Hp;
    [| unfold SpreadWS in H; rewrite Hp in H; discriminate H].
  rewrite (SpreadWS_returns _ _ _ _ _ _ _ _ Hmax Hp) in H. injection H as <- <- <-.
  destruct (scanQueue_inv _ _ _ _ _ _ _ _ Hmax Hp) as [H0 [placed Hinv]].
  unfold scanQueue in Hp. rewrite decide_True in Hp by exact H0.
  assert (Hc : conserved sh ws0 (0 + Z.of_nat (Z.to_nat queueLen)) p).
  { apply (conserved_steps (Z.to_nat queueLen) 0 (initialPass ws0) []);
      [apply PassInv_initial | | lia | lia | rewrite Z2Nat.id by lia; exact Hp].
    split; simpl; rewrite added_same; [reflexivity | reflexivity]. }
  replace (0 + Z.of_nat (Z.to_nat queueLen)) with queueLen in Hc by lia.
  destruct Hc as [Hperm Hcount]. simpl.
  assert (Hq : SchedQueue sh
               ≡ₚ unplaced (rmQueue p) (SchedQueue sh) ++ added ws0 (windows p)).
  { rewrite <- (take_drop (Z.to_nat queueLen) (SchedQueue sh)) at 1 2.
    unfold unplaced in *. rewrite keepFrom_app.
    rewrite (keepFrom_none _ _ (drop _ _)).
    - rewrite Hperm at 1. rewrite <- !app_assoc.
      apply Permutation_app_head, Permutation_app_comm.
    - intros x Hx. rewrite (inv_rmQueue _ _ _ _ _ Hinv) in Hx.
      apply list_elem_of_fmap in Hx. destruct Hx as (pl & -> & Hpl).
      pose proof (inv_range _ _ _ _ _ Hinv) as Hr. rewrite Forall_forall in Hr.
      destruct (Hr pl Hpl) as ([_ Hlt] & Hsome & _).
      apply index_is_Some in Hsome. rewrite length_take. lia. }
  split; [exact Hq |]. split; [lia |].
  apply Permutation_length in Hq. rewrite length_app in Hq. lia.
Qed.

(** *** Tasks go to windows that are acceptable for them *)

Lemma scan_selected ws wa task st acceptable sel :
  scan ws wa task st acceptable = Some sel ->
  selectedWindow sel = selectedWindow st \/ selectedWindow sel ∈ acceptable.
Proof.
  revert st. induction acceptable as [| x rest IH]; intros st Hscan; simpl in Hscan.
  - injection Hscan as <-. left. reflexivity.
  - destruct (tryWindow ResourceSpec CanHandleRequest sh ws wa task st x) as [st' |] eqn:Ht;
      simpl in Hscan; [| discriminate].
    destruct (IH st' Hscan) as [Hs | Hs]; [| right; right; exact Hs].
    rewrite Hs.
    destruct (tryWindow_cases _ _ _ _ _ _ _ _ _ Ht)
      as (ow & ok & _ & _ & [[_ ->] | [(_ & _ & ->) | (_ & _ & h & _ & ->)]]);
      [left; reflexivity | left; reflexivity | right; left].
Qed.

Lemma acceptedAt_mono n m j t :
  n <= m -> acceptedAt sh acceptableWindows n j t -> acceptedAt sh acceptableWindows m j t.
Proof.
  intros Hle [(i & Hi & Hq) Hacc]. split; [| exact Hacc]. exists i. split; [lia | exact Hq].
Qed.

Lemma acceptably_step n p placed p' :
  PassInv_ n p placed ->
  acceptably sh acceptableWindows ws0 (windows p) n -> 0 <= n ->
  step p n = Some p' ->
  acceptably sh acceptableWindows ws0 (windows p') (n + 1).
Proof.
  intros Hinv Hacc Hn Hstep.
  destruct (assignTask_cases _ _ _ _ _ _ _ _ Hstep)
    as (task & acceptable & sel & Htask & Ha & Hscan & Hcases).
  assert (Hold : forall j w0 win,
            index ws0 j = Some w0 -> index (windows p) j = Some win ->
            forall t, t ∈ drop (length (Todo w0)) (Todo win) ->
                      acceptedAt sh acceptableWindows (n + 1) j t).
  { intros j w0 win H0 H1 t Ht. eapply acceptedAt_mono; [| eapply Hacc; eassumption]. lia. }
  destruct Hcases as [[_ ->] | (Hpos & win & Hwin & ->)]; [exact Hold |].
  intros j w0 win' H0 H1 t Ht. simpl in H1.
  destruct (decide (j = selectedWindow sel)) as [-> | Hne].
  - apply index_Some in H1. destruct H1 as [_ H1].
    pose proof Hwin as Hw. apply index_Some in Hw. destruct Hw as [_ Hw].
    rewrite list_lookup_insert_eq in H1 by (eapply lookup_lt_Some, Hw).
    injection H1 as <-. unfold withTodo in Ht. simpl in Ht.
    pose proof Hwin as Hw'. rewrite (PassInv_window _ _ _ _ Hinv), H0 in Hw'.
    simpl in Hw'. injection Hw' as Hw'.
    rewrite drop_app_le in Ht by (rewrite <- Hw'; simpl; rewrite length_app; lia).
    apply elem_of_app in Ht. destruct Ht as [Ht | Ht]; [eapply Hold; eassumption |].
    apply list_elem_of_singleton in Ht. subst t.
    split; [exists n; split; [lia | exact Htask] |].
    exists acceptable. split; [exact Ha |].
    destruct (scan_selected _ _ _ _ _ _ Hscan) as [Hs | Hs]; [simpl in Hs; lia | exact Hs].
  - apply (Hold j w0 win' H0); [| exact Ht].
    apply index_Some in H1. destruct H1 as [Hj H1].
    apply index_Some. split; [exact Hj |].
    rewrite list_lookup_insert_ne in H1 by lia. exact H1.
Qed.

Lemma acceptably_steps (k : nat) n p placed p' :
  PassInv_ n p placed ->
  acceptably sh acceptableWindows ws0 (windows p) n -> 0 <= n ->
  n + Z.of_nat k <= MaxInt ->
  steps p (seqZ n (Z.of_nat k)) = Some p' ->
  acceptably sh acceptableWindows ws0 (windows p') (n + Z.of_nat k).
Proof.
  revert n p placed. induction k as [| k IH]; intros n p placed Hinv Hc H0 Hmax Hsteps.
  - simpl in Hsteps. injection Hsteps as <-.
    replace (n + Z.of_nat 0) with n by lia. exact Hc.
  - rewrite seqZ_cons in Hsteps by lia. simpl in Hsteps.
    destruct (step p n) as [p1 |] eqn:Hstep; simpl in Hsteps; [| discriminate].
    replace (Z.pred (Z.of_nat (S k))) with (Z.of_nat k) in Hsteps by lia.
    replace (n + Z.of_nat (S k)) with (Z.succ n + Z.of_nat k) by lia.
    pose proof (acceptably_step n p placed p1 Hinv Hc H0 Hstep) as Hc1.
    replace (n + 1) with (Z.succ n) in Hc1 by lia.
    assert (Hinv1 : exists placed1, PassInv_ (Z.succ n) p1 placed1).
    { replace (Z.succ n) with (n + 1) by lia.
      destruct (PassInv_step zeroWorkerResources ResourceSpec CanHandleRequest sh
                  acceptableWindows ws0 n p placed p1 Hinv ltac:(lia) Hstep)
        as [[_ H] | [wnd H]]; eauto. }
    destruct Hinv1 as [placed1 Hinv1].
    apply (IH (Z.succ n) p1 placed1 Hinv1 Hc1); [lia | lia | exact Hsteps].
Qed.

(** A task is only ever put on a window that is acceptable for it.  When
    [SpreadWS] returns, every window has the allocation it had and has its
    former pending list followed by the tasks added to it, and each task
    added to the window [j] is one of the first [queueLen] tasks of the queue
    and has [j] in its list of acceptable windows. *)
Theorem SpreadWS_places_on_acceptable_windows (queueLen : Z) (count : Z)
    (sh' : Scheduler WorkerResources) (ws' : list (SchedWindow ActiveResources))
    (j : Z) (win' : SchedWindow ActiveResources) :
  queueLen <= MaxInt ->
  SpreadWS_ queueLen acceptableWindows ws0 = Some (count, sh', ws') ->
  index ws' j = Some win' ->
  exists w0 new,
    index ws0 j = Some w0
    /\ Allocated win' = Allocated w0
    /\ Todo win' = Todo w0 ++ new
    /\ forall t, t ∈ new -> acceptedAt sh acceptableWindows queueLen j t.
Proof.
  intros Hmax H Hwin.
  destruct (scanQueue_ queueLen acceptableWindows ws0) as [p |] eqn:Hp;
    [| unfold SpreadWS in H; rewrite Hp in H; discriminate H].
  rewrite (SpreadWS_returns _ _ _ _ _ _ _ _ Hmax Hp) in H. injection H as <- <- <-.
  destruct (scanQueue_inv _ _ _ _ _ _ _ _ Hmax Hp) as [H0 [placed Hinv]].
  unfold scanQueue in Hp. rewrite decide_True in Hp by exact H0.
  assert (Hc : acceptably sh acceptableWindows ws0 (windows p)
                 (0 + Z.of_nat (Z.to_nat queueLen))).
  { apply (acceptably_steps (Z.to_nat queueLen) 0 (initialPass ws0) []);
      [apply PassInv_initial | | lia | lia | rewrite Z2Nat.id by lia; exact Hp].
    intros i w0 win Hi0 Hi1 t Ht. simpl in Hi1. rewrite Hi0 in Hi1. injection Hi1 as <-.
    rewrite drop_all in Ht. inversion Ht. }
  replace (0 + Z.of_nat (Z.to_nat queueLen)) with queueLen in Hc by lia.
  pose proof Hwin as Hw. rewrite (PassInv_window _ _ _ _ Hinv) in Hw.
  destruct (index ws0 j) as [w0 |] eqn:Hw0; simpl in Hw; [| discriminate].
  injection Hw as <-. exists w0, (placedOn sh j placed). simpl.
  split; [reflexivity |]. split; [reflexivity |]. split; [reflexivity |].
  intros t Ht. apply (Hc j w0 _ Hw0 Hwin). simpl.
  rewrite drop_app_length. exact Ht.
Qed.

(** *** Balance *)

Hypothesis admits_all : forall a r wid caller i, CanHandleRequest a r wid caller i = true.

Lemma admitted_all ws wa task st acceptable sel :
  scan ws wa task st acceptable = Some sel ->
  admitted_ ws wa task st acceptable = acceptable.
Proof using admits_all.
  revert st. induction acceptable as [| x rest IH]; intros st Hscan; [reflexivity |].
  simpl in Hscan.
  destruct (tryWindow ResourceSpec CanHandleRequest sh ws wa task st x) as [st' |] eqn:Ht;
    simpl in Hscan; [| discriminate].
  destruct (tryWindow_cases _ _ _ _ _ _ _ _ _ Ht) as (ow & ok & Hi & Ha & _).
  assert (ok = true) as ->.
  { unfold admits in Ha. destruct (index ws x); simpl in Ha; [| discriminate].
    rewrite admits_all in Ha. congruence. }
  rewrite (admitted_cons ResourceSpec CanHandleRequest sh ws wa task st x rest ow st' true
             Hi Ht Ha). simpl.
  f_equal. eapply IH, Hscan.
Qed.

Variable queueLen : Z.
Variable W : WorkerID -> Prop.
Hypothesis queueLen_small : queueLen <= MaxInt.
Hypothesis same_candidates : sameCandidates sh acceptableWindows queueLen W.

Lemma evenly_step n p placed p' :
  PassInv_ n p placed -> evenly W n p -> 0 <= n < queueLen ->
  step p n = Some p' -> evenly W (n + 1) p'.
Proof using admits_all queueLen_small same_candidates.
  intros Hinv [Hbal Hall] Hn Hstep.
  destruct (assignTask_cases _ _ _ _ _ _ _ _ Hstep)
    as (task & acceptable & sel & Htask & Hacc & Hscan & Hcases).
  pose proof (same_candidates n task acceptable Hn Htask Hacc) as HW.
  pose proof (PassInv_counters_small _ _ _ _ _ Hinv ltac:(lia)) as Hsmall.
  destruct (scanWindows_first_least zeroWorkerResources ResourceSpec CanHandleRequest
              sh (windows p) (workerAssigned p) task Hsmall acceptable sel Hscan)
    as [[Hnone Hm] | [Hpos Hfl]];
    rewrite (admitted_all _ _ _ _ _ _ Hscan) in *.
  - (* nothing acceptable: there is no candidate worker at all *)
    assert (Hempty : forall wid, ~ W wid).
    { intros wid Hw. apply HW in Hw. destruct Hw as (wnd & ow & Hin & _).
      rewrite Hnone in Hin. inversion Hin. }
    destruct Hcases as [[_ ->] | (Hpos & _)]; [| lia].
    split; [exact Hbal |]. intros [wid Hw]. destruct (Hempty wid Hw).
  - destruct Hcases as [[Hneg _] | (_ & win & Hwin & ->)]; [lia |].
    destruct Hfl as (pre & post & ow & Hseen & How & Hbw & Hba & Hpre & Hpost).
    assert (Hbest : W (bestWid sel)).
    { apply HW. exists (selectedWindow sel), ow. rewrite Hseen.
      split; [apply elem_of_app; right; left | auto]. }
    assert (Hmin : forall b, W b ->
              assigned (workerAssigned p) (bestWid sel) <= assigned (workerAssigned p) b).
    { intros b Hb. apply HW in Hb. destruct Hb as (wnd & owb & Hin & Howb & <-).
      rewrite Hbw, <- (load_index sh (workerAssigned p) _ _ How),
        <- (load_index sh (workerAssigned p) _ _ Howb).
      rewrite Hseen in Hin. apply elem_of_app in Hin. destruct Hin as [Hin | Hin].
      - specialize (Hpre wnd Hin). lia.
      - apply elem_of_cons in Hin. destruct Hin as [-> | Hin]; [lia |].
        apply (Hpost wnd Hin). }
    assert (Hge : 0 <= assigned (workerAssigned p) (bestWid sel)).
    { rewrite (inv_counters _ _ _ _ _ Hinv). apply placedWith_le. }
    assert (Hadd : Int64.add (assigned (workerAssigned p) (bestWid sel)) 1
                   = assigned (workerAssigned p) (bestWid sel) + 1).
    { apply Int64Facts.add_no_overflow. specialize (Hsmall (bestWid sel)).
      unfold Int64.in_range, Int64.MinInt64, MaxInt in *. lia. }
    split; simpl.
    + intros a b Ha Hb. rewrite !assigned_insert, Hadd.
      pose proof (Hmin a Ha). pose proof (Hmin b Hb). pose proof (Hbal a b Ha Hb).
      pose proof (Hbal a (bestWid sel) Ha Hbest).
      repeat case_decide; subst; lia.
    + intros Hex. rewrite (Hall Hex).
      apply Int64Facts.add_no_overflow.
      unfold Int64.in_range, Int64.MinInt64, MaxInt in *. lia.
Qed.

Lemma evenly_steps (k : nat) n p placed p' :
  PassInv_ n p placed -> evenly W n p -> 0 <= n -> n + Z.of_nat k <= queueLen ->
  steps p (seqZ n (Z.of_nat k)) = Some p' -> evenly W (n + Z.of_nat k) p'.
Proof using admits_all queueLen_small same_candidates.
  revert n p placed. induction k as [| k IH]; intros n p placed Hinv Hev H0 Hmax Hsteps.
  - simpl in Hsteps. injection Hsteps as <-.
    replace (n + Z.of_nat 0) with n by lia. exact Hev.
  - rewrite seqZ_cons in Hsteps by lia. simpl in Hsteps.
    destruct (step p n) as [p1 |] eqn:Hstep; simpl in Hsteps; [| discriminate].
    replace (Z.pred (Z.of_nat (S k))) with (Z.of_nat k) in Hsteps by lia.
    replace (n + Z.of_nat (S k)) with (Z.succ n + Z.of_nat k) by lia.
    pose proof (evenly_step n p placed p1 Hinv Hev ltac:(lia) Hstep) as Hev1.
    replace (n + 1) with (Z.succ n) in Hev1 by lia.
    assert (Hinv1 : exists placed1, PassInv_ (Z.succ n) p1 placed1).
    { replace (Z.succ n) with (n + 1) by lia.
      destruct (PassInv_step zeroWorkerResources ResourceSpec CanHandleRequest sh
                  acceptableWindows ws0 n p placed p1 Hinv ltac:(unfold MaxInt in *; lia) Hstep)
        as [[_ H] | [wnd H]]; eauto. }
    destruct Hinv1 as [placed1 Hinv1].
    apply (IH (Z.succ n) p1 placed1 Hinv1 Hev1); [lia | lia | exact Hsteps].
Qed.

(** The pass spreads evenly.  Let the admission test accept every request,
    and let all the tasks that the pass scans have the same candidate
    workers [W], the owners of their acceptable windows.  Then, when the
    scan of the queue is over, the counters of any two workers of [W]
    differ by one at most, and, if there is a candidate worker at all, every
    task scanned has been placed. *)
Theorem SpreadWS_spreads_evenly (p : pass ActiveResources) :
  scanQueue_ queueLen acceptableWindows ws0 = Some p ->
  balanced W (workerAssigned p)
  /\ ((exists wid, W wid) ->
      scheduled p = queueLen
      /\ SpreadWS_ queueLen acceptableWindows ws0
         = Some (queueLen,
                 mkScheduler (unplaced (rmQueue p) (SchedQueue sh))
                   (OpenWindows sh) (Workers sh),
                 windows p)).
Proof using admits_all queueLen_small same_candidates.
  intros Hp. pose proof Hp as Hscan. unfold scanQueue in Hp.
  case_decide as H0; [| discriminate].
  assert (Hev : evenly W (0 + Z.of_nat (Z.to_nat queueLen)) p).
  { apply (evenly_steps (Z.to_nat queueLen) 0 (initialPass ws0) []);
      [apply PassInv_initial | | lia | lia | rewrite Z2Nat.id by lia; exact Hp].
    split; [| reflexivity]. intros a b _ _. unfold assigned. simpl.
    rewrite !lookup_empty. simpl. lia. }
  replace (0 + Z.of_nat (Z.to_nat queueLen)) with queueLen in Hev by lia.
  destruct Hev as [Hbal Hall]. split; [exact Hbal |].
  intros Hex. split; [apply Hall, Hex |].
  rewrite (SpreadWS_returns _ _ _ _ _ _ _ _ queueLen_small Hscan), (Hall Hex).
  reflexivity.
Qed.

End Pass.

Lemma spread_admission_ignores_placements_witness :
  0 <= 1 <= MaxInt
  /\ assignTasks tt Fleets.slotSpec Fleets.slotAdmits MoreFleets.oneSlot [[0]]
       (initialPass MoreFleets.oneFreeSlot) (seqZ 0 1) = Some MoreFleets.afterFirstSlot
  /\ admits Fleets.slotSpec Fleets.slotAdmits (windows MoreFleets.afterFirstSlot)
       (Fleets.precommit1 2 0) (noSelection tt) 1%N 0
     = admits Fleets.slotSpec Fleets.slotAdmits MoreFleets.oneFreeSlot
         (Fleets.precommit1 2 0) (noSelection tt) 1%N 0.
Proof.
  assert (H1 : 0 <= 1 <= MaxInt) by (vm_compute; split; discriminate).
  assert (H2 : assignTasks tt Fleets.slotSpec Fleets.slotAdmits MoreFleets.oneSlot [[0]]
                 (initialPass MoreFleets.oneFreeSlot) (seqZ 0 1)
               = Some MoreFleets.afterFirstSlot) by (vm_compute; reflexivity).
  split; [exact H1 |]. split; [exact H2 |].
  exact (proj1 (spread_admission_ignores_placements tt Fleets.slotSpec Fleets.slotAdmits
                  MoreFleets.oneSlot [[0]] MoreFleets.oneFreeSlot 1
                  MoreFleets.afterFirstSlot (Fleets.precommit1 2 0) (noSelection tt)
                  1%N 0 H1 H2)).
Defined.

(** A window with one free slot takes both tasks of [oneSlot] in one pass. *)
Example spread_fills_one_slot_twice :
  SpreadWS tt Fleets.slotSpec Fleets.slotAdmits MoreFleets.oneSlot 2 [[0]]
    MoreFleets.oneFreeSlot
  = Some (2,
          mkScheduler [] (OpenWindows MoreFleets.oneSlot) (Workers MoreFleets.oneSlot),
          [mkSchedWindow 1 [Fleets.precommit1 1 0; Fleets.precommit1 2 0]]).
Proof. vm_compute. reflexivity. Qed.

Lemma SpreadWS_returns_within_bounds_witness :
  3 <= MaxInt
  /\ SpreadWS tt Fleets.slotSpec Fleets.slotAdmits Fleets.threeWindows 3
       Fleets.anyOfThree Fleets.threeFreeWindows
     = Some (2,
             mkScheduler [Fleets.precommit1 3 2] (OpenWindows Fleets.threeWindows)
               (Workers Fleets.threeWindows),
             windows Fleets.afterScan)
  /\ 0 <= 3 <= Z.of_nat (length (SchedQueue Fleets.threeWindows))
  /\ forall n, 0 <= n < 3 ->
       inBounds Fleets.threeWindows Fleets.anyOfThree Fleets.threeFreeWindows n.
Proof.
  assert (H1 : 3 <= MaxInt) by (vm_compute; discriminate).
  assert (H2 : SpreadWS tt Fleets.slotSpec Fleets.slotAdmits Fleets.threeWindows 3
                 Fleets.anyOfThree Fleets.threeFreeWindows
               = Some (2,
                       mkScheduler [Fleets.precommit1 3 2]
                         (OpenWindows Fleets.threeWindows) (Workers Fleets.threeWindows),
                       windows Fleets.afterScan)) by (vm_compute; reflexivity).
  split; [exact H1 |]. split; [exact H2 |].
  exact (proj1 (SpreadWS_returns_within_bounds tt Fleets.slotSpec Fleets.slotAdmits
                  Fleets.threeWindows Fleets.anyOfThree Fleets.threeFreeWindows 3 H1)
           _ _ _ H2).
Defined.

(** Asked to scan four tasks of a queue of three, [SpreadWS] panics. *)
Example SpreadWS_panics_beyond_the_queue :
  SpreadWS tt Fleets.slotSpec Fleets.slotAdmits Fleets.threeWindows 4
    Fleets.anyOfThree Fleets.threeFreeWindows = None.
Proof. vm_compute. reflexivity. Qed.

Lemma SpreadWS_conserves_tasks_witness :
  3 <= MaxInt
  /\ SpreadWS tt Fleets.slotSpec Fleets.slotAdmits Fleets.threeWindows 3
       Fleets.anyOfThree Fleets.threeFreeWindows
     = Some (2,
             mkScheduler [Fleets.precommit1 3 2] (OpenWindows Fleets.threeWindows)
               (Workers Fleets.threeWindows),
             windows Fleets.afterScan)
  /\ SchedQueue Fleets.threeWindows
       ≡ₚ [Fleets.precommit1 3 2]
          ++ added Fleets.threeFreeWindows (windows Fleets.afterScan)
  /\ 2 = Z.of_nat (length (added Fleets.threeFreeWindows (windows Fleets.afterScan)))
  /\ Z.of_nat (length [Fleets.precommit1 3 2]) + 2
     = Z.of_nat (length (SchedQueue Fleets.threeWindows)).
Proof.
  assert (H1 : 3 <= MaxInt) by (vm_compute; discriminate).
  assert (H2 : SpreadWS tt Fleets.slotSpec Fleets.slotAdmits Fleets.threeWindows 3
                 Fleets.anyOfThree Fleets.threeFreeWindows
               = Some (2,
                       mkScheduler [Fleets.precommit1 3 2]
                         (OpenWindows Fleets.threeWindows) (Workers Fleets.threeWindows),
                       windows Fleets.afterScan)) by (vm_compute; reflexivity).
  split; [exact H1 |]. split; [exact H2 |].
  exact (SpreadWS_conserves_tasks tt Fleets.slotSpec Fleets.slotAdmits
           Fleets.threeWindows Fleets.anyOfThree Fleets.threeFreeWindows 3 2 _ _ H1 H2).
Defined.

Lemma SpreadWS_places_on_acceptable_windows_witness :
  3 <= MaxInt
  /\ SpreadWS tt Fleets.slotSpec Fleets.slotAdmits Fleets.threeWindows 3
       Fleets.anyOfThree Fleets.threeFreeWindows
     = Some (2,
             mkScheduler [Fleets.precommit1 3 2] (OpenWindows Fleets.threeWindows)
               (Workers Fleets.threeWindows),
             windows Fleets.afterScan)
  /\ index (windows Fleets.afterScan) 2 = Some (mkSchedWindow 1 [Fleets.precommit1 2 1])
  /\ exists w0 new,
       index Fleets.threeFreeWindows 2 = Some w0
       /\ Allocated (mkSchedWindow 1 [Fleets.precommit1 2 1]) = Allocated w0
       /\ Todo (mkSchedWindow 1 [Fleets.precommit1 2 1]) = Todo w0 ++ new
       /\ forall t, t ∈ new -> acceptedAt Fleets.threeWindows Fleets.anyOfThree 3 2 t.
Proof.
  assert (H1 : 3 <= MaxInt) by (vm_compute; discriminate).
  assert (H2 : SpreadWS tt Fleets.slotSpec Fleets.slotAdmits Fleets.threeWindows 3
                 Fleets.anyOfThree Fleets.threeFreeWindows
               = Some (2,
                       mkScheduler [Fleets.precommit1 3 2]
                         (OpenWindows Fleets.threeWindows) (Workers Fleets.threeWindows),
                       windows Fleets.afterScan)) by (vm_compute; reflexivity).
  assert (H3 : index (windows Fleets.afterScan) 2
               = Some (mkSchedWindow 1 [Fleets.precommit1 2 1])) by reflexivity.
  split; [exact H1 |]. split; [exact H2 |]. split; [exact H3 |].
  exact (SpreadWS_places_on_acceptable_windows tt Fleets.slotSpec Fleets.slotAdmits
           Fleets.threeWindows Fleets.anyOfThree Fleets.threeFreeWindows 3 2 _ _ 2 _
           H1 H2 H3).
Defined.

Lemma threeWorkers_same_candidates :
  sameCandidates MoreFleets.threeWorkers MoreFleets.anyWindow 5 MoreFleets.isOneOfThree.
Proof.
  intros n task acceptable Hn Ht Ha wid.
  assert (Hidx : IndexHeap task = 0).
  { assert (Hcases : n = 0 \/ n = 1 \/ n = 2 \/ n = 3 \/ n = 4) by lia.
    destruct Hcases as [-> | [-> | [-> | [-> | ->]]]];
      vm_compute in Ht; injection Ht as <-; reflexivity. }
  rewrite Hidx in Ha. vm_compute in Ha. injection Ha as <-.
  unfold MoreFleets.isOneOfThree, candidateWorker. split.
  - intros [-> | [-> | ->]].
    + exists 0, (mkWindowRequest 1%N). split; [repeat constructor | split; reflexivity].
    + exists 1, (mkWindowRequest 2%N). split; [repeat constructor | split; reflexivity].
    + exists 2, (mkWindowRequest 3%N). split; [repeat constructor | split; reflexivity].
  - intros (wnd & ow & Hin & Hi & <-).
    apply list_elem_of_In in Hin. simpl in Hin.
    destruct Hin as [<- | [<- | [<- | []]]];
      vm_compute in Hi; injection Hi as <-; simpl; auto.
Qed.

Lemma SpreadWS_spreads_evenly_witness :
  (forall (a r : Z) (wid : WorkerID) (caller : string) (i : WorkerInfo unit),
     MoreFleets.admitsAll a r wid caller i = true)
  /\ 5 <= MaxInt
  /\ sameCandidates MoreFleets.threeWorkers MoreFleets.anyWindow 5 MoreFleets.isOneOfThree
  /\ scanQueue tt Fleets.slotSpec MoreFleets.admitsAll MoreFleets.threeWorkers 5
       MoreFleets.anyWindow MoreFleets.threeEmptyWindows = Some MoreFleets.afterFive
  /\ balanced MoreFleets.isOneOfThree (workerAssigned MoreFleets.afterFive).
Proof.
  assert (H1 : forall (a r : Z) (wid : WorkerID) (caller : string) (i : WorkerInfo unit),
            MoreFleets.admitsAll a r wid caller i = true) by reflexivity.
  assert (H2 : 5 <= MaxInt) by (vm_compute; discriminate).
  assert (H4 : scanQueue tt Fleets.slotSpec MoreFleets.admitsAll MoreFleets.threeWorkers 5
                 MoreFleets.anyWindow MoreFleets.threeEmptyWindows
               = Some MoreFleets.afterFive) by (vm_compute; reflexivity).
  split; [exact H1 |]. split; [exact H2 |].
  split; [exact threeWorkers_same_candidates |]. split; [exact H4 |].
  exact (proj1 (SpreadWS_spreads_evenly tt Fleets.slotSpec MoreFleets.admitsAll
                  MoreFleets.threeWorkers MoreFleets.anyWindow MoreFleets.threeEmptyWindows
                  H1 5 MoreFleets.isOneOfThree H2 threeWorkers_same_candidates
                  MoreFleets.afterFive H4)).
Defined.

End SpreadPassFacts.

(** ** The state-root statistics *)

Module StaterootFacts.
Import stateroot StaterootNotions.

(** *** The store that counts what it reads *)

Lemma wrap_add_l a b : Int64.wrap (Int64.wrap a + b) = Int64.wrap (a + b).
Proof.
  unfold Int64.wrap.
  replace ((a + 2 ^ 63) mod 2 ^ 64 - 2 ^ 63 + b + 2 ^ 63)
    with ((a + 2 ^ 63) mod 2 ^ 64 + b) by lia.
  rewrite Zplus_mod_idemp_l. f_equal. f_equal. lia.
Qed.

Section Store.

Context {Cid V : Type}.
Variable ChainReadObj : Cid -> result (list Byte.byte).

Lemma Get_read ts c (o : out V) obj :
  ChainReadObj c = inl obj ->
  (Get ChainReadObj ts c o).2
  = mkStore (Int64.add (blocksRead ts) 1)
      (Int64.add (dataRead ts) (Z.of_nat (length obj))).
Proof.
  intros H. unfold Get. rewrite H.
  destruct o as [UnmarshalCBOR |]; [destruct (UnmarshalCBOR obj) |]; reflexivity.
Qed.

Lemma Get_not_read ts c (o : out V) err :
  ChainReadObj c = inr err -> Get ChainReadObj ts c o = (GetFailed err, ts).
Proof. intros H. unfold Get. rewrite H. reflexivity. Qed.

Lemma Gets_counts (calls : list (Cid * out V)) ts :
  Int64.in_range (blocksRead ts) -> Int64.in_range (dataRead ts) ->
  blocksRead (Gets ChainReadObj ts calls)
    = Int64.wrap (blocksRead ts + Z.of_nat (length (sizesRead ChainReadObj calls)))
  /\ dataRead (Gets ChainReadObj ts calls)
    = Int64.wrap (dataRead ts + Z.of_nat (sum_list (sizesRead ChainReadObj calls))).
Proof.
  revert ts. induction calls as [| [c o] rest IH]; intros ts Hb Hd; simpl.
  - rewrite !Z.add_0_r, !Int64Facts.wrap_in_range by assumption. auto.
  - unfold sizesRead in *. simpl.
    destruct (ChainReadObj c) as [obj | err] eqn:Hread; simpl.
    + rewrite (Get_read ts c o obj Hread).
      destruct (IH (mkStore (Int64.add (blocksRead ts) 1)
                      (Int64.add (dataRead ts) (Z.of_nat (length obj)))))
        as [Hb' Hd']; [apply Int64Facts.add_range | apply Int64Facts.add_range |].
      rewrite Hb', Hd'. simpl. unfold Int64.add. rewrite !wrap_add_l.
      split; f_equal; lia.
    + rewrite (Get_not_read ts c o err Hread). simpl. apply IH; assumption.
Qed.

(** The store counts what it reads.  After any calls of [Get] on the store
    that [init-stat] creates, [blocksRead] is the number of calls whose
    read succeeded and [dataRead] the total size of the objects they read,
    both as Go's [int]; a read that succeeds is counted whether or not its
    object decodes, and even when the assertion on [out] panics.  A call
    whose read fails returns the error of the node and counts nothing, and
    [Put] stores nothing: it returns [cid.Undef] with an error and leaves
    the counters as they are. *)
Theorem tracking_store_counts_reads (calls : list (Cid * out V)) :
  blocksRead (Gets ChainReadObj newStore calls)
    = Int64.wrap (Z.of_nat (length (sizesRead ChainReadObj calls)))
  /\ dataRead (Gets ChainReadObj newStore calls)
    = Int64.wrap (Z.of_nat (sum_list (sizesRead ChainReadObj calls)))
  /\ (forall ts c (o : out V) err,
        ChainReadObj c = inr err -> Get ChainReadObj ts c o = (GetFailed err, ts))
  /\ (forall ts c (o : out V) obj,
        ChainReadObj c = inl obj ->
        (Get ChainReadObj ts c o).2
          = mkStore (Int64.add (blocksRead ts) 1)
              (Int64.add (dataRead ts) (Z.of_nat (length obj))))
  /\ (forall ts (v : V),
        Put (Cid := Cid) ts v = ((None, Some "Put is not implemented"%string), ts)).
Proof.
  destruct (Gets_counts calls newStore) as [Hb Hd];
    [vm_compute; split; discriminate | vm_compute; split; discriminate |].
  split; [exact Hb |]. split; [exact Hd |].
  split; [intros ts c o err; apply Get_not_read |].
  split; [intros ts c o obj; apply Get_read | reflexivity].
Qed.

End Store.

(** *** [stateroot stat] *)

Lemma collect_length {A B} (f : A -> result B) xs ys :
  collect f xs = inl ys -> length ys = length xs.
Proof.
  revert ys. induction xs as [| x xs IH]; intros ys H; simpl in H.
  - injection H as <-. reflexivity.
  - destruct (f x) as [y | err]; [| discriminate].
    destruct (collect f xs) as [ys' | err]; [| discriminate].
    injection H as <-. simpl. f_equal. apply IH. reflexivity.
Qed.

Lemma wrap64_range z : 0 <= wrap64 z < 2 ^ 64.
Proof. unfold wrap64. apply Z.mod_pos_bound. lia. Qed.

Lemma wrap64_add_l a b : wrap64 (wrap64 a + b) = wrap64 (a + b).
Proof. unfold wrap64. apply Zplus_mod_idemp_l. Qed.

Lemma wrap64_sub_r a b : wrap64 (a - wrap64 b) = wrap64 (a - b).
Proof. unfold wrap64. apply Zminus_mod_idemp_r. Qed.

Section Stat.

Context {Address Cid TipSetKey : Type}.
Variable GetFullNodeAPI : result (FullNode Address Cid TipSetKey).
Variable LoadTipSet : FullNode Address Cid TipSetKey -> result (TipSet Cid TipSetKey).
Variable NewFromString : string -> result Address.
Variable Digest : Cid -> result string.
Variable sortSlice : list (statItem Address Cid) -> list (statItem Address Cid).

Local Abbreviation stat :=
  (staterootStat GetFullNodeAPI LoadTipSet NewFromString Digest sortSlice).

Lemma outcap_min nArg (infos : list (statItem Address Cid)) :
  outcap nArg infos = Z.min (Z.of_nat (length infos)) (Z.max 10 nArg).
Proof.
  unfold outcap.
  destruct (10 <? nArg) eqn:H1; [apply Z.ltb_lt in H1 | apply Z.ltb_ge in H1].
  - destruct (Z.of_nat (length infos) <? nArg) eqn:H2;
      [apply Z.ltb_lt in H2 | apply Z.ltb_ge in H2]; lia.
  - destruct (Z.of_nat (length infos) <? 10) eqn:H2;
      [apply Z.ltb_lt in H2 | apply Z.ltb_ge in H2]; lia.
Qed.

Lemma sliceTo_outcap nArg (infos : list (statItem Address Cid)) :
  sliceTo infos (outcap nArg infos) = Some (take (Z.to_nat (outcap nArg infos)) infos).
Proof. unfold sliceTo. rewrite decide_True; [reflexivity |]. rewrite outcap_min. lia. Qed.

Lemma printRows_shown (infos : list (statItem Address Cid)) rows :
  printRows Digest infos = (rows, None) -> shown rows = List.map itemOf infos.
Proof.
  revert rows. induction infos as [| inf rest IH]; intros rows H; simpl in H.
  - injection H as <-. reflexivity.
  - destruct (Digest (Code (Actor_ inf))) as [digest | err]; [| discriminate].
    destruct (printRows Digest rest) as [rows' err'] eqn:Hrest.
    injection H as <- ->.
    transitivity (itemOf inf :: shown rows'); [reflexivity |].
    rewrite (IH rows' eq_refl). reflexivity.
Qed.

Lemma totalActorsSize_from (infos : list (statItem Address Cid)) acc :
  0 <= acc < 2 ^ 64 ->
  fold_left (fun acc info => wrap64 (acc + Size (Stat info))) infos acc
  = wrap64 (acc + sizeSum infos).
Proof.
  revert acc. induction infos as [| inf rest IH]; intros acc Hacc; simpl.
  - rewrite Z.add_0_r. unfold wrap64. rewrite Z.mod_small; [reflexivity | exact Hacc].
  - rewrite IH by apply wrap64_range. rewrite wrap64_add_l. f_equal. lia.
Qed.

Lemma sizeSum_Permutation (l k : list (statItem Address Cid)) :
  l ≡ₚ k -> sizeSum l = sizeSum k.
Proof. induction 1; simpl; lia. Qed.

(** What the command has done when it gets to print. *)
Lemma stat_printed args printed err :
  stat args = Exit printed err ->
  (printed = [] /\ err <> None)
  \/ exists api ts addrs infos totalStat rows,
       GetFullNodeAPI = inl api /\ LoadTipSet api = inl ts
       /\ (if decide (args = [])
           then StateListActors api (Key ts) = inl addrs
           else collect NewFromString args = inl addrs)
       /\ collect (statOf api (Key ts)) addrs = inl infos
       /\ ChainStatObj api (ParentState ts) None = inl totalStat
       /\ printRows Digest
            (take (Z.to_nat (outcap (Z.of_nat (length args)) (sortSlice infos)))
               (sortSlice infos)) = (rows, err)
       /\ printed
          = [TotalStateTreeSize (Size totalStat);
             SumOfActorStateSize (totalActorsSize (sortSlice infos));
             StateTreeStructureSize
               (wrap64 (Size totalStat - totalActorsSize (sortSlice infos)));
             StatHeader] ++ rows.
Proof.
  unfold staterootStat. intros H.
  destruct GetFullNodeAPI as [api | e]; [| injection H as <- <-; left; auto].
  destruct (LoadTipSet api) as [ts | e] eqn:Hts; [| injection H as <- <-; left; auto].
  destruct (collect NewFromString args) as [parsed | e] eqn:Hparse;
    [| injection H as <- <-; left; auto].
  destruct (if decide (length parsed = 0%nat) then StateListActors api (Key ts)
            else inl parsed) as [addrs | e] eqn:Haddrs;
    [| injection H as <- <-; left; auto].
  destruct (collect (statOf api (Key ts)) addrs) as [infos | e] eqn:Hinfos;
    [| injection H as <- <-; left; auto].
  destruct (ChainStatObj api (ParentState ts) None) as [totalStat | e] eqn:Htotal;
    [| injection H as <- <-; left; auto].
  rewrite sliceTo_outcap in H.
  destruct (printRows Digest _) as [rows err'] eqn:Hrows.
  injection H as <- <-. right.
  exists api, ts, addrs, infos, totalStat, rows.
  split; [reflexivity |]. split; [exact Hts |]. split; [| auto].
  pose proof (collect_length _ _ _ Hparse) as Hlen.
  destruct (decide (args = [])) as [Hargs | Hargs].
  - subst args. simpl in Hparse. injection Hparse as <-. simpl in Haddrs. exact Haddrs.
  - rewrite decide_False in Haddrs.
    + injection Haddrs as <-. reflexivity.
    + rewrite Hlen. destruct args; [congruence | discriminate].
Qed.

(** [stateroot stat] lists the largest actors.  When the command ends
    without an error, the rows it has printed are rows of the actors it
    fetched, each actor at most once, sizes in descending order, and no
    actor that is left out is larger than one that is listed.  The number of
    rows is ten, or the number of arguments if that is greater, and never
    more than there are actors: so with addresses given on the command line
    every one of them is listed, and without arguments the ten largest of
    all actors are.  The command never fails on the bounds of the slice it
    prints. *)
Theorem staterootStat_lists_the_largest (args : list string)
    (printed : list (line Address Cid)) :
  sorts sortSlice ->
  stat args = Exit printed None ->
  stat args <> Panic
  /\ exists api ts addrs infos rest,
       GetFullNodeAPI = inl api /\ LoadTipSet api = inl ts
       /\ (if decide (args = [])
           then StateListActors api (Key ts) = inl addrs
           else collect NewFromString args = inl addrs)
       /\ collect (statOf api (Key ts)) addrs = inl infos
       /\ shown printed ++ rest ≡ₚ List.map itemOf infos
       /\ StronglySorted (fun x y : Address * Z => y.2 <= x.2) (shown printed ++ rest)
       /\ Z.of_nat (length (shown printed))
          = Z.min (Z.of_nat (length infos)) (Z.max 10 (Z.of_nat (length args)))
       /\ (args <> [] -> rest = []).
Proof.
  intros Hsort H. split; [rewrite H; discriminate |].
  destruct (stat_printed args printed None H) as [[_ Hne] | Hp]; [congruence |].
  destruct Hp as (api & ts & addrs & infos & totalStat & rows
                  & Hapi & Hts & Haddrs & Hinfos & _ & Hrows & ->).
  destruct (Hsort infos) as [Hperm Hsorted].
  set (k := Z.to_nat (outcap (Z.of_nat (length args)) (sortSlice infos))) in *.
  exists api, ts, addrs, infos, (List.map itemOf (drop k (sortSlice infos))).
  split; [exact Hapi |]. split; [exact Hts |]. split; [exact Haddrs |].
  split; [exact Hinfos |].
  assert (Hshown : shown ([TotalStateTreeSize (Size totalStat);
                           SumOfActorStateSize (totalActorsSize (sortSlice infos));
                           StateTreeStructureSize
                             (wrap64 (Size totalStat - totalActorsSize (sortSlice infos)));
                           StatHeader] ++ rows)
                   = List.map itemOf (take k (sortSlice infos))).
  { rewrite <- (printRows_shown _ _ Hrows). reflexivity. }
  rewrite Hshown, <- List.map_app, take_drop.
  assert (Hlen : length (sortSlice infos) = length infos)
    by (apply Permutation_length, Hperm).
  assert (Hk : Z.of_nat k
               = Z.min (Z.of_nat (length infos)) (Z.max 10 (Z.of_nat (length args)))).
  { unfold k. rewrite outcap_min, Hlen. lia. }
  split; [apply Permutation_map, Hperm |].
  split.
  { apply (StronglySorted_fmap itemOf largerFirst); [| exact Hsorted].
    intros x y Hxy. exact Hxy. }
  split.
  { rewrite length_map, length_take, Hlen. lia. }
  intros Hargs. rewrite decide_False in Haddrs by exact Hargs.
  apply collect_length in Haddrs. apply collect_length in Hinfos.
  rewrite drop_ge; [reflexivity |]. lia.
Qed.

(** The sums that [stateroot stat] prints.  When the command has printed
    anything, it has first printed the size of the state tree as the node
    reports it, then the sum of the sizes of the actors it fetched, then
    the difference of the two, all three in [uint64]: the sum is the sum of
    the integers modulo 2^64, in whatever order the sort has left the items,
    and the difference wraps around when the sum exceeds the total.  An
    error met before that leaves nothing printed. *)
Theorem staterootStat_prints_the_sums (args : list string)
    (printed : list (line Address Cid)) (err : option error) :
  sorts sortSlice ->
  stat args = Exit printed err ->
  (printed = [] /\ err <> None)
  \/ exists api ts addrs infos totalStat,
       GetFullNodeAPI = inl api /\ LoadTipSet api = inl ts
       /\ collect (statOf api (Key ts)) addrs = inl infos
       /\ ChainStatObj api (ParentState ts) None = inl totalStat
       /\ take 4 printed
          = [TotalStateTreeSize (Size totalStat);
             SumOfActorStateSize (wrap64 (sizeSum infos));
             StateTreeStructureSize (wrap64 (Size totalStat - sizeSum infos));
             StatHeader].
Proof.
  intros Hsort H.
  destruct (stat_printed args printed err H) as [Hnone | Hp]; [left; exact Hnone | right].
  destruct Hp as (api & ts & addrs & infos & totalStat & rows
                  & Hapi & Hts & _ & Hinfos & Htotal & _ & ->).
  exists api, ts, addrs, infos, totalStat.
  split; [exact Hapi |]. split; [exact Hts |]. split; [exact Hinfos |].
  split; [exact Htotal |].
  destruct (Hsort infos) as [Hperm _].
  unfold totalActorsSize. rewrite totalActorsSize_from by lia.
  rewrite (sizeSum_Permutation _ _ Hperm), Z.add_0_l, wrap64_sub_r. reflexivity.
Qed.

End Stat.

(** *** [stateroot diffs] *)

Lemma last_cons_default {A} (l : list A) x d : List.last (x :: l) d = List.last l x.
Proof.
  revert x d. induction l as [| y l IH]; intros x d; [reflexivity |].
  change (List.last (x :: y :: l) d) with (List.last (y :: l) d).
  rewrite (IH y d), (IH y x). reflexivity.
Qed.

Section Diffs.

Context {Address Cid TipSetKey : Type}.
Variable GetFullNodeAPI : result (FullNode Address Cid TipSetKey).
Variable LoadTipSet : FullNode Address Cid TipSetKey -> result (TipSet Cid TipSetKey).
Variable NewTipSetKey : list Cid -> TipSetKey.

Lemma diffsLoop_rows api diff n (ts : TipSet Cid TipSetKey)
    (rows : list (line Address Cid)) err :
  diffsLoop NewTipSetKey api diff n ts = Exit rows err ->
  length (diffRows rows) = length rows
  /\ (length rows <= n)%nat
  /\ (diff = false -> Forall (fun r : Z * option Cid => r.2 = None) (diffRows rows))
  /\ (err = None -> (length rows < n)%nat ->
      List.last (List.map fst (diffRows rows)) (Height ts) = 0).
Proof.
  revert ts rows. induction n as [| n IH]; intros ts rows H; simpl in H.
  - injection H as <- <-. simpl. repeat split; try lia; constructor.
  - destruct (Height ts =? 0) eqn:Hh.
    { injection H as <- <-. apply Z.eqb_eq in Hh. simpl.
      repeat split; try lia; try constructor; auto. }
    destruct (fn ts) as [[strt cids] |]; [| discriminate].
    destruct (ChainGetTipSet api (NewTipSetKey cids)) as [ts' | e];
      [| injection H as <- <-; simpl; repeat split; try lia; try constructor; discriminate].
    destruct (fn ts') as [[pstrt ?] |]; [| discriminate].
    destruct (ChainStatObj api strt _) as [stats | e];
      [| injection H as <- <-; simpl; repeat split; try lia; try constructor; discriminate].
    destruct (diffsLoop NewTipSetKey api diff n ts') as [rows' err' |] eqn:Hrest;
      [| discriminate].
    injection H as <- <-.
    destruct (IH ts' rows' Hrest) as (Hlen & Hle & Hbase & Hlast).
    change (diffRows (DiffsRow (Height ts') (Size stats) (Links stats) strt
                        (if negb diff then None else Some pstrt) :: rows'))
      with ((Height ts', if negb diff then None else Some pstrt) :: diffRows rows').
    simpl length. rewrite Hlen.
    split; [reflexivity |]. split; [lia |]. split.
    + intros ->. constructor; [reflexivity | auto].
    + intros He Hlt. specialize (Hlast He ltac:(lia)).
      simpl List.map. rewrite last_cons_default. exact Hlast.
Qed.

(** [stateroot diffs] walks back no further than it is told and stops at
    genesis.  After the header it prints one row for each tipset it steps
    back to, at most [count] of them, none when [count] is not positive.
    Without the flag [diff] the base of every row is [cid.Undef].  And when
    it ends without an error having printed fewer than [count] rows, it has
    reached height 0: the last height it printed, or that of the tipset it
    started from when it printed none, is 0. *)
Theorem staterootDiffs_walks_back (count : Z) (diff : bool)
    (printed : list (line Address Cid)) (err : option error) :
  staterootDiffs GetFullNodeAPI LoadTipSet NewTipSetKey count diff = Exit printed err ->
  (printed = [] /\ err <> None)
  \/ exists api ts rows,
       GetFullNodeAPI = inl api /\ LoadTipSet api = inl ts
       /\ printed = DiffsHeader :: rows
       /\ length (diffRows printed) = length rows
       /\ Z.of_nat (length rows) <= Z.max 0 count
       /\ (diff = false -> Forall (fun r : Z * option Cid => r.2 = None) (diffRows printed))
       /\ (err = None -> Z.of_nat (length rows) < count ->
           List.last (List.map fst (diffRows printed)) (Height ts) = 0).
Proof.
  unfold staterootDiffs. intros H.
  destruct GetFullNodeAPI as [api | e]; [| injection H as <- <-; left; auto].
  destruct (LoadTipSet api) as [ts | e] eqn:Hts; [| injection H as <- <-; left; auto].
  destruct (diffsLoop NewTipSetKey api diff (Z.to_nat count) ts) as [rows err' |] eqn:Hloop;
    [| discriminate].
  injection H as <- <-. right. exists api, ts, rows.
  destruct (diffsLoop_rows _ _ _ _ _ _ Hloop) as (Hlen & Hle & Hbase & Hlast).
  split; [reflexivity |]. split; [exact Hts |]. split; [reflexivity |].
  split; [exact Hlen |]. split; [lia |]. split; [exact Hbase |].
  intros He Hlt. apply Hlast; [exact He | lia].
Qed.

End Diffs.

(** *** On a node with three actors *)

Lemma sortBySize_sorts : sorts Nodes.sortBySize.
Proof.
  assert (Htrans : Transitive (@largerFirst string string))
    by (intros a b c; unfold largerFirst; lia).
  assert (Htotal : Total (@largerFirst string string))
    by (intros a b; unfold largerFirst; lia).
  intros l. split; [apply merge_sort_Permutation | apply StronglySorted_merge_sort; assumption].
Qed.

Lemma staterootStat_lists_the_largest_witness :
  sorts Nodes.sortBySize
  /\ staterootStat Nodes.connect Nodes.load Nodes.parse Nodes.digest
       Nodes.sortBySize [] = Exit Nodes.statOutput None
  /\ exists api ts addrs infos rest,
       Nodes.connect = inl api /\ Nodes.load api = inl ts
       /\ (if decide (@nil string = [])
           then StateListActors api (Key ts) = inl addrs
           else collect Nodes.parse [] = inl addrs)
       /\ collect (statOf api (Key ts)) addrs = inl infos
       /\ shown Nodes.statOutput ++ rest ≡ₚ List.map itemOf infos
       /\ StronglySorted (fun x y : string * Z => y.2 <= x.2) (shown Nodes.statOutput ++ rest)
       /\ Z.of_nat (length (shown Nodes.statOutput))
          = Z.min (Z.of_nat (length infos)) (Z.max 10 (Z.of_nat (length (@nil string))))
       /\ (@nil string <> [] -> rest = []).
Proof.
  assert (H : staterootStat Nodes.connect Nodes.load Nodes.parse
                Nodes.digest Nodes.sortBySize [] = Exit Nodes.statOutput None)
    by (vm_compute; reflexivity).
  split; [exact sortBySize_sorts |]. split; [exact H |].
  exact (proj2 (staterootStat_lists_the_largest Nodes.connect Nodes.load Nodes.parse
                  Nodes.digest Nodes.sortBySize [] Nodes.statOutput sortBySize_sorts H)).
Defined.

Lemma staterootStat_prints_the_sums_witness :
  sorts Nodes.sortBySize
  /\ staterootStat Nodes.connect Nodes.load Nodes.parse Nodes.digest
       Nodes.sortBySize ["f03"%string] = Exit Nodes.statOutputOfOne None
  /\ ((Nodes.statOutputOfOne = [] /\ @None error <> None)
      \/ exists api ts addrs infos totalStat,
           Nodes.connect = inl api /\ Nodes.load api = inl ts
           /\ collect (statOf api (Key ts)) addrs = inl infos
           /\ ChainStatObj api (ParentState ts) None = inl totalStat
           /\ take 4 Nodes.statOutputOfOne
              = [TotalStateTreeSize (Size totalStat);
                 SumOfActorStateSize (wrap64 (sizeSum infos));
                 StateTreeStructureSize (wrap64 (Size totalStat - sizeSum infos));
                 StatHeader]).
Proof.
  assert (H : staterootStat Nodes.connect Nodes.load Nodes.parse
                Nodes.digest Nodes.sortBySize ["f03"%string]
              = Exit Nodes.statOutputOfOne None)
    by (vm_compute; reflexivity).
  split; [exact sortBySize_sorts |]. split; [exact H |].
  exact (staterootStat_prints_the_sums Nodes.connect Nodes.load
           Nodes.parse Nodes.digest Nodes.sortBySize ["f03"%string] Nodes.statOutputOfOne
           None sortBySize_sorts H).
Defined.

Lemma staterootDiffs_walks_back_witness :
  staterootDiffs Nodes.connect Nodes.load (fun cids => cids) 30 false
    = Exit Nodes.diffsOutput None
  /\ ((Nodes.diffsOutput = [] /\ @None error <> None)
      \/ exists (api : FullNode string string (list string)) ts rows,
           Nodes.connect = inl api /\ Nodes.load api = inl ts
           /\ Nodes.diffsOutput = DiffsHeader :: rows
           /\ length (diffRows Nodes.diffsOutput) = length rows
           /\ Z.of_nat (length rows) <= Z.max 0 30
           /\ (false = false ->
               Forall (fun r : Z * option string => r.2 = None)
                 (diffRows Nodes.diffsOutput))
           /\ (@None error = None -> Z.of_nat (length rows) < 30 ->
               List.last (List.map fst (diffRows Nodes.diffsOutput)) (Height ts) = 0)).
Proof.
  assert (H : staterootDiffs Nodes.connect Nodes.load
                (fun cids => cids) 30 false = Exit Nodes.diffsOutput None)
    by (vm_compute; reflexivity).
  split; [exact H |].
  exact (staterootDiffs_walks_back Nodes.connect Nodes.load
           (fun cids => cids) 30 false Nodes.diffsOutput None H).
Defined.

(** Two reads, of 3 and of 2 bytes, and a read that fails: two blocks and
    five bytes are counted. *)
Example tracking_store_counts_two_reads :
  Gets (V := unit)
    (fun c : nat => match c with
                    | 0%nat => inl [Byte.x01; Byte.x02; Byte.x03]
                    | 1%nat => inl [Byte.x04; Byte.x05]
                    | _ => inr "not found"%string
                    end)
    newStore
    [(0%nat, None); (7%nat, Some (fun _ => inl tt));
     (1%nat, Some (fun _ => inr "bad cbor"%string))]
  = mkStore 2 5.
Proof. vm_compute. reflexivity. Qed.

End StaterootFacts.
